(** * Reptile meta-learning loop and style-transfer loss assembly

    A shallow embedding of the two notebooks of the repository:

    - [notebooks/8-MetaLearning/2-Reptile-Sines-PyTorch.ipynb]: the Reptile
      outer loop, its inner SGD, the linear step-size schedule and the
      periodic evaluation branch;
    - [notebooks/2-CNN/6-StyleTransfer/4-Art-Style-Transfer-inception_tf.ipynb]:
      [gram_matrix], [content_loss], [style_loss], the total-variation
      penalty and the assembled [total_loss].

    The code is written once over an arithmetic interface ([Arith]) and
    instantiated twice: with IEEE 754 binary64 / binary32 (Python floats and
    float32 tensors, through the standard library's [SpecFloat]) and with
    exact rationals ([Qc]).  Elementwise tensor code is fully determined by
    the notebooks, so its properties are stated on the floating-point
    instance as well.  Reductions performed inside the numerical libraries
    ([tf.matmul], [tf.reduce_mean], [tf.reduce_sum]) have no summation order
    fixed by the source: they are modelled as sums from the last element
    to the first, what holds of them is proved in exact arithmetic, and
    what fails in float32 is shown on concrete inputs. *)

From Stdlib Require Import ZArith QArith Qcanon SpecFloat Permutation.
From Stdlib Require Floats Uint63.
From stdpp Require Import gmap strings list fin_maps.

Set Warnings "-abstract-large-number".
Local Open Scope Z_scope.

(** ** 1. Arithmetic interface *)

(** The operations the notebooks apply to numbers.  [of_int] is the
    conversion of a Python integer (or of an integral literal such as [10.]);
    a decimal literal such as [0.1] is the correctly rounded quotient
    [of_int 1 / of_int 10]. *)
Class Arith (A : Type) := {
  of_int : Z → A;
  fadd : A → A → A;
  fsub : A → A → A;
  fmul : A → A → A;
  fdiv : A → A → A;
  fleb : A → A → bool;
}.

(** Conversion of a Python float to the element type of a tensor:
    [torch.Tensor(x)], [tensor * python_float], [tf.constant(python_float)]. *)
Class Cast (F T : Type) := cast : F → T.

Declare Scope num_scope.
Delimit Scope num_scope with num.
Infix "+" := fadd : num_scope.
Infix "-" := fsub : num_scope.
Infix "*" := fmul : num_scope.
Infix "/" := fdiv : num_scope.

(** *** Exact rationals *)

#[global] Instance Qc_arith : Arith Qc := {|
  of_int := Qc_of_Z;
  fadd := Qcplus;
  fsub := Qcminus;
  fmul := Qcmult;
  fdiv := Qcdiv;
  fleb := λ x y, bool_decide (Qcle x y);
|}.

#[global] Instance Qc_cast : Cast Qc Qc := λ x, x.

(** *** IEEE 754 binary64 (Python [float], NumPy [float64]) and binary32
    ([torch.Tensor], [tf.float32]), round to nearest even *)

Record binary64 := B64 { b64 : spec_float }.
Record binary32 := B32 { b32 : spec_float }.

#[global] Instance binary64_arith : Arith binary64 := {|
  of_int := λ z, B64 (binary_normalize 53 1024 z 0 false);
  fadd := λ x y, B64 (SFadd 53 1024 (b64 x) (b64 y));
  fsub := λ x y, B64 (SFsub 53 1024 (b64 x) (b64 y));
  fmul := λ x y, B64 (SFmul 53 1024 (b64 x) (b64 y));
  fdiv := λ x y, B64 (SFdiv 53 1024 (b64 x) (b64 y));
  fleb := λ x y, SFleb (b64 x) (b64 y);
|}.

#[global] Instance binary32_arith : Arith binary32 := {|
  of_int := λ z, B32 (binary_normalize 24 128 z 0 false);
  fadd := λ x y, B32 (SFadd 24 128 (b32 x) (b32 y));
  fsub := λ x y, B32 (SFsub 24 128 (b32 x) (b32 y));
  fmul := λ x y, B32 (SFmul 24 128 (b32 x) (b32 y));
  fdiv := λ x y, B32 (SFdiv 24 128 (b32 x) (b32 y));
  fleb := λ x y, SFleb (b32 x) (b32 y);
|}.

(** Rounding of a binary64 value to binary32. *)
Definition round32 (x : spec_float) : spec_float :=
  match x with
  | S754_finite s m e => binary_round 24 128 s m e
  | _ => x
  end.

#[global] Instance binary_cast : Cast binary64 binary32 := λ x, B32 (round32 (b64 x)).

(** Neither infinite nor NaN. *)
Definition is_finite (x : spec_float) : bool :=
  match x with
  | S754_zero _ | S754_finite _ _ _ => true
  | _ => false
  end.

(** Finite and not the negative zero: the values a freshly initialised
    PyTorch parameter can hold. *)
Definition regular (x : spec_float) : bool :=
  match x with
  | S754_zero s => negb s
  | S754_finite _ _ _ => true
  | _ => false
  end.

(** ** 2. The Reptile notebook *)

(** What the notebook takes from NumPy and PyTorch: the random generator
    [rng = np.random.RandomState(seed)], [np.sin], [np.pi], [np.linspace],
    the forward pass [model(x)] of the [nn.Sequential] network and the
    gradients left in [param.grad] by [loss.backward()] for the loss
    [(model(x) - y).pow(2).mean()]. *)
Class Externals (F T : Type) := {
  rng : Type;
  rng_uniform : F → F → rng → F * rng;
  rng_permutation : nat → rng → list nat * rng;
  rng_choice : nat → nat → rng → list nat * rng;
  np_sin : F → F;
  np_pi : F;
  np_linspace : F → F → nat → list F;
  forward : gmap string (list T) → list T → list T;
  backward : gmap string (list T) → list T → list T → string → list T;
}.

(** The hyperparameter cell. *)
Record hyper (F : Type) := Hyper {
  plot : bool;
  inner_stepsize : F;
  inner_epochs : nat;
  inner_batchsize : nat;
  outer_stepsize0 : F;
  outer_steps : nat;
}.
Arguments Hyper {F}.
Arguments plot {F}.
Arguments inner_stepsize {F}.
Arguments inner_epochs {F}.
Arguments inner_batchsize {F}.
Arguments outer_stepsize0 {F}.
Arguments outer_steps {F}.

(** [plot = True], [inner_stepsize = 0.02], [inner_epochs = 1],
    [inner_batchsize = 10], [outer_stepsize0 = 0.1], [outer_steps = 10000]. *)
Definition notebook_hyper {F} `{!Arith F} : hyper F :=
  {| plot := true;
     inner_stepsize := (of_int 2 / of_int 100)%num;
     inner_epochs := 1;
     inner_batchsize := 10;
     outer_stepsize0 := (of_int 1 / of_int 10)%num;
     outer_steps := 10000 |}.

(** A sampled task: the closure [f_randomsine] over [phase] and [ampl]. *)
Record task (F : Type) := Task { phase : F; ampl : F }.
Arguments Task {F}.
Arguments phase {F}.
Arguments ampl {F}.

(** The values of the fixed evaluation cell: [f_plot] and [xtrain_plot]. *)
Record plot_data (F : Type) := PlotData { f_plot : task F; xtrain_plot : list F }.
Arguments PlotData {F}.
Arguments f_plot {F}.
Arguments xtrain_plot {F}.

(** [range(0, n, step)]; a zero step raises [ValueError] in Python and is
    the empty range here (the notebook's step is [inner_batchsize = 10]). *)
Definition py_range_step (n step : nat) : list nat :=
  match step with
  | O => []
  | _ => (λ k, k * step)%nat <$> seq 0 ((n + step - 1) / step)
  end.

(** [outer_stepsize0*(1-outer_step/outer_steps)]: true division of two
    Python integers, then float arithmetic. *)
Definition outer_stepsize {F} `{!Arith F} (h : hyper F) (outer_step : nat) : F :=
  (outer_stepsize0 h *
     (of_int 1 - of_int (Z.of_nat outer_step) / of_int (Z.of_nat (outer_steps h))))%num.

(** [plot and outer_step==0 or (outer_step+1) % 1000 == 0]. *)
Definition plot_now {F} (h : hyper F) (outer_step : nat) : bool :=
  plot h && (outer_step =? 0)%nat || ((outer_step + 1) mod 1000 =? 0)%nat.

Section Tensors.
Context {F T : Type} `{!Arith T, !Cast F T}.

(** A parameter tensor is the list of its elements.  The two operands of
    every elementwise operation of the loop are tensors of one and the
    same parameter, hence of one shape. *)
Definition tadd (a b : list T) : list T := zip_with fadd a b.
Definition tsub (a b : list T) : list T := zip_with fsub a b.

(** [tensor * python_float] and [python_float * tensor]: both dispatch to
    the same kernel, which multiplies by the float converted to the
    tensor's element type. *)
Definition tscale (a : list T) (s : F) : list T := (λ x, x * cast s)%num <$> a.

(** [s * tensor], the scalar written on the left as in the usual
    statement of the Reptile update; the notebook writes
    [tensor * outer_stepsize]. *)
Definition tscale_l (s : F) (a : list T) : list T := (λ x, cast s * x)%num <$> a.

(** [totorch]: [torch.autograd.Variable(torch.Tensor(x))]. *)
Definition totorch (x : list F) : list T := cast <$> x.

(** [weights_before[name] + (weights_after[name]-weights_before[name])*outer_stepsize]. *)
Definition interpolate_tensor (s : F) (wb wa : list T) : list T :=
  tadd wb (tscale (tsub wa wb) s).

(** The dictionary comprehension [{name : ... for name in weights_before}].
    A name of [weights_before] missing from [weights_after] would be a
    [KeyError]; both dictionaries come from the one model and have its
    names. *)
Definition interpolate (weights_before weights_after : gmap string (list T)) (s : F)
  : gmap string (list T) :=
  map_zip_with (interpolate_tensor s) weights_before weights_after.

(** [model.load_state_dict(d)]: every parameter of the model is
    overwritten with the entry of [d] of its name.  PyTorch raises on a
    missing or unexpected name; the dictionaries the notebook loads have
    exactly the names of the model. *)
Definition load_state_dict (m d : gmap string (list T)) : gmap string (list T) :=
  map_zip_with (λ _ new, new) m d.

(** A Python variable holding a dictionary of tensors either aliases the
    storage of the live model (the result of [model.state_dict()]) or owns
    a detached copy (the result of [deepcopy]). *)
Inductive dict_ref :=
| Live
| Detached (d : gmap string (list T)).

Definition state_dict : dict_ref := Live.

(** The tensors a reference denotes when the model's parameters are [m]. *)
Definition deref (m : gmap string (list T)) (r : dict_ref) : gmap string (list T) :=
  match r with
  | Live => m
  | Detached d => d
  end.

Definition deepcopy (m : gmap string (list T)) (r : dict_ref) : dict_ref :=
  Detached (deref m r).

(** The statement
    [model.load_state_dict({name : weights_before[name] + (weights_after[name]-weights_before[name])*s for name in weights_before})]
    run on the model [m] for a step size [s]: the comprehension reads both
    dictionaries through their references, then the model is overwritten. *)
Definition load_interpolation (s : F) (weights_before weights_after : dict_ref)
    (m : gmap string (list T)) : gmap string (list T) :=
  load_state_dict m (interpolate (deref m weights_before) (deref m weights_after) s).
End Tensors.

Section Reptile.
Context {F T : Type} `{!Arith F, !Arith T, !Cast F T, !Externals F T}.

(** [x_all = np.linspace(-5, 5, 50)[:,None]]. *)
Definition x_all : list F := np_linspace (of_int (-5)) (of_int 5) 50.

Definition f_randomsine (t : task F) (x : F) : F :=
  (np_sin (x + phase t) * ampl t)%num.

Definition gen_task (g : rng) : task F * rng :=
  let '(ph, g) := rng_uniform (of_int 0) (of_int 2 * np_pi)%num g in
  let '(am, g) := rng_uniform (of_int 2) (of_int 5) g in
  (Task ph am, g).

(** NumPy indexing by an array of indices, [x_all[batch_indices]].  The
    indices come from [rng.permutation(len(x_all))] and are in range. *)
Definition np_index (xs : list F) (idx : list nat) : list F :=
  (λ i, default (of_int 0) (xs !! i)) <$> idx.

(** One in-place SGD step on every parameter:
    [param.data -= inner_stepsize * param.grad.data]. *)
Definition train_current_model_on_batch (h : hyper F)
    (m : gmap string (list T)) (x y : list F) : gmap string (list T) :=
  let x := totorch x in
  let y := totorch y in
  map_imap (λ name param,
    Some (tsub param (tscale (backward m x y name) (inner_stepsize h)))) m.

Definition predict_using_current_model (m : gmap string (list T)) (x : list F) : list T :=
  forward m (totorch x).

(** The cell choosing a fixed task and minibatch for visualisation. *)
Definition choose_plot_data (h : hyper F) (g : rng) : plot_data F * rng :=
  let '(f, g) := gen_task g in
  let '(idx, g) := rng_choice (length x_all) (inner_batchsize h) g in
  (PlotData f (np_index x_all idx), g).

(** One pass [for start in range(0, len(x_all), inner_batchsize)]. *)
Definition sgd_epoch (h : hyper F) (inds : list nat) (y_all : list F)
    (m : gmap string (list T)) : gmap string (list T) :=
  foldl (λ m start,
      let batch_indices := take (inner_batchsize h) (drop start inds) in
      train_current_model_on_batch h m
        (np_index x_all batch_indices) (np_index y_all batch_indices))
    m (py_range_step (length x_all) (inner_batchsize h)).

(** [for _ in range(inner_epochs)]. *)
Definition inner_sgd (h : hyper F) (inds : list nat) (y_all : list F)
    (m : gmap string (list T)) : gmap string (list T) :=
  Nat.iter (inner_epochs h) (sgd_epoch h inds y_all) m.

(** The evaluation branch: snapshot, 32 SGD steps on the fixed minibatch
    (the plots and the printed loss do not touch the model), restore. *)
Definition plot_branch (h : hyper F) (pd : plot_data F)
    (m : gmap string (list T)) : gmap string (list T) :=
  let f := f_plot pd in
  let weights_before := deepcopy m state_dict in
  let m' :=
    Nat.iter 32 (λ m, train_current_model_on_batch h m
                        (xtrain_plot pd) (f_randomsine f <$> xtrain_plot pd)) m in
  load_state_dict m' (deref m' weights_before).

(** The state threaded through the outer loop. *)
Record world := World { model : gmap string (list T); rng_state : rng }.

(** The model after the inner adaptation of an outer iteration. *)
Definition adapt (h : hyper F) (w : world) : world :=
  let '(f, g) := gen_task (rng_state w) in
  let y_all := f_randomsine f <$> x_all in
  let '(inds, g) := rng_permutation (length x_all) g in
  World (inner_sgd h inds y_all (model w)) g.

(** The meta-update of an outer iteration, run on the adapted model [m]:
    [weights_after] is an alias of the live parameters, so the
    comprehension reads the adapted values through it. *)
Definition meta_update (h : hyper F) (outer_step : nat)
    (weights_before : dict_ref (T := T)) (m : gmap string (list T))
  : gmap string (list T) :=
  let weights_after := state_dict in
  let outer_stepsize := outer_stepsize h outer_step in
  load_interpolation outer_stepsize weights_before weights_after m.

(** The body of [for outer_step in range(outer_steps)]. *)
Definition reptile_iteration (h : hyper F) (pd : plot_data F)
    (outer_step : nat) (w : world) : world :=
  let weights_before := deepcopy (model w) state_dict in
  let w1 := adapt h w in
  let m2 := meta_update h outer_step weights_before (model w1) in
  let m3 := if plot_now h outer_step then plot_branch h pd m2 else m2 in
  World m3 (rng_state w1).

(** The first [n] iterations of the loop, and the whole loop. *)
Definition reptile_steps (h : hyper F) (pd : plot_data F) (n : nat) (w : world) : world :=
  foldl (λ w outer_step, reptile_iteration h pd outer_step w) w (seq 0 n).

Definition reptile_loop (h : hyper F) (pd : plot_data F) (w : world) : world :=
  reptile_steps h pd (outer_steps h) w.
End Reptile.


(** ** 3. The style-transfer notebook *)

(** A convolutional activation: its static shape [batch, height, width,
    channels] and its elements in row-major order. *)
Record tensor4 (T : Type) := Tensor4 {
  dim0 : nat;
  dim1 : nat;
  dim2 : nat;
  dim3 : nat;
  data : list T;
}.
Arguments Tensor4 {T}.
Arguments dim0 {T}.
Arguments dim1 {T}.
Arguments dim2 {T}.
Arguments dim3 {T}.
Arguments data {T}.

(** The buffer holds one element per index. *)
Definition wf_tensor4 {T} (t : tensor4 T) : Prop :=
  length (data t) = (dim0 t * dim1 t * dim2 t * dim3 t)%nat.

(** Element [t[b, h, w, c]]. *)
Definition get4 {T} (t : tensor4 T) (b h w c : nat) : option T :=
  data t !! (((b * dim1 t + h) * dim2 t + w) * dim3 t + c)%nat.

(** What the notebook takes from TensorFlow and the model zoo: [tf.pow]
    and the end points of the pre-trained Inception v1 network run on an
    image of shape [height, width, 3]. *)
Class TfExternals (F T : Type) := {
  tf_pow : T → F → T;
  inception_v1 : list (list (list T)) → gmap string (tensor4 T);
}.

(** [tf.square] applied to a [Dimension] yields an [int32] tensor, and the
    product of two [int32] tensors wraps around. *)
Definition int32_wrap (z : Z) : Z := (z + 2 ^ 31) mod 2 ^ 32 - 2 ^ 31.

Definition photo_layers : list string := ["Mixed_4b"].
Definition style_layers : list string :=
  ["Conv2d_1a_7x7"; "Conv2d_2c_3x3"; "Mixed_3b"; "Mixed_4d"].
Definition all_layers : list string := photo_layers ++ style_layers.

Section StyleTransfer.
Context {F T : Type} `{!Arith F, !Arith T, !Cast F T, !TfExternals F T}.

(** [tf.reduce_sum] and [tf.reduce_mean] over all the elements. *)
Definition reduce_sum (l : list T) : T := foldr fadd (of_int 0) l.
Definition reduce_mean (l : list T) : T :=
  (reduce_sum l / of_int (Z.of_nat (length l)))%num.

Definition tf_square (l : list T) : list T := (λ v, v * v)%num <$> l.

(** [tf.reshape(tensor, shape=[-1, ncols])]: the buffer cut into rows of
    [ncols] elements, the number of rows being inferred. *)
Definition tf_reshape (flat : list T) (ncols : nat) : list (list T) :=
  (λ r, take ncols (drop (r * ncols) flat)) <$> seq 0 (length flat / ncols).

(** Element [j] of a row of a matrix. *)
Definition component (j : nat) (row : list T) : T := default (of_int 0) (row !! j).

(** [tf.transpose] of a matrix with [ncols] columns. *)
Definition tf_transpose (ncols : nat) (matrix : list (list T)) : list (list T) :=
  (λ j, component j <$> matrix) <$> seq 0 ncols.

Definition dot (u v : list T) : T := reduce_sum (zip_with fmul u v).

(** [tf.matmul(a, b)] where [b] has [ncols] columns. *)
Definition tf_matmul (ncols : nat) (a b : list (list T)) : list (list T) :=
  (λ row, (λ col, dot row col) <$> tf_transpose ncols b) <$> a.

Definition gram_matrix (tensor : tensor4 T) : list (list T) :=
  let num_channels := dim3 tensor in
  let matrix := tf_reshape (data tensor) num_channels in
  tf_matmul num_channels (tf_transpose num_channels matrix) matrix.

(** [1./2. * tf.reduce_mean(tf.square(x - p))]; a missing layer is a
    [KeyError]. *)
Definition content_loss (P X : gmap string (tensor4 T)) (layer : string) : option T :=
  p ← P !! layer;
  x ← X !! layer;
  Some (cast (of_int 1 / of_int 2 : F)%num
        * reduce_mean (tf_square (zip_with fsub (data x) (data p))))%num.

Definition style_loss (S X : gmap string (tensor4 T)) (layer : string) : option T :=
  s ← S !! layer;
  x ← X !! layer;
  let S_gram := gram_matrix s in
  let X_gram := gram_matrix x in
  let N := Z.of_nat (dim1 s) in
  let M := Z.of_nat (dim2 s * dim3 s) in
  Some (reduce_mean (tf_square (concat (zip_with (zip_with fsub) X_gram S_gram)))
        / (cast (of_int 4 : F)
           * of_int (int32_wrap (int32_wrap (N * N) * int32_wrap (M * M)))))%num.

(** Slices of an image [x] of shape [height, width, channels]:
    [x[1:]], [x[:-1]], [x[:, 1:]], [x[:, :-1]]. *)
Definition rows_from_1 (x : list (list (list T))) := drop 1 x.
Definition rows_to_last (x : list (list (list T))) := take (length x - 1) x.
Definition cols_from_1 (x : list (list (list T))) := drop 1 <$> x.
Definition cols_to_last (x : list (list (list T))) :=
  (λ row, take (length row - 1) row) <$> x.

Definition image_zip_with (f : T → T → T) (a b : list (list (list T))) :=
  zip_with (zip_with (zip_with f)) a b.
Definition image_map (f : T → T) (a : list (list (list T))) :=
  fmap (M := list) (fmap (M := list) (fmap (M := list) f)) a.

Definition total_variation_loss_lX (x : list (list (list T))) : T :=
  let dv := image_zip_with fsub (cols_to_last (rows_from_1 x))
                                (cols_to_last (rows_to_last x)) in
  let dh := image_zip_with fsub (cols_from_1 (rows_to_last x))
                                (cols_to_last (rows_to_last x)) in
  let sq := image_map (λ v, v * v)%num in
  reduce_sum (concat (concat
    (image_map (λ v, tf_pow v (of_int 125 / of_int 100)%num)
       (image_zip_with fadd (sq dv) (sq dh))))).

(** [{name : end_points[name] for name in layers}], as done for
    [photo_features], [style_features] and [art_features]. *)
Definition capture (layers : list string) (end_points : gmap string (tensor4 T))
  : option (gmap string (tensor4 T)) :=
  list_to_map <$> mapM (λ name, (λ l, (name, l)) <$> end_points !! name) layers.

Definition cl : F := of_int 10.
Definition sl : F := (of_int 2 * of_int 1000 * of_int 1000)%num.
Definition vp : F := (of_int 10 / of_int 1000 / of_int 1000)%num.

(** The list [losses] for the image fed to [input_image_float]. *)
Definition losses (photo_features style_features : gmap string (tensor4 T))
    (input_image_float : list (list (list T))) : option (list T) :=
  art_features ← capture all_layers (inception_v1 input_image_float);
  c ← content_loss photo_features art_features "Mixed_4b";
  s1 ← style_loss style_features art_features "Conv2d_1a_7x7";
  s2 ← style_loss style_features art_features "Conv2d_2c_3x3";
  s3 ← style_loss style_features art_features "Mixed_3b";
  s4 ← style_loss style_features art_features "Mixed_4d";
  Some [ (cast (cl * of_int 1) * c)%num;
         (cast (sl * of_int 1) * s1)%num;
         (cast (sl * of_int 1) * s2)%num;
         (cast (sl * of_int 10) * s3)%num;
         (cast (sl * of_int 10) * s4)%num;
         (cast (vp * of_int 1) * total_variation_loss_lX input_image_float)%num ].

Definition total_loss (photo_features style_features : gmap string (tensor4 T))
    (input_image_float : list (list (list T))) : option T :=
  reduce_sum <$> losses photo_features style_features input_image_float.

(** The pixel vectors of an activation re-ordered inside every batch item:
    position [k] of the result holds the channels of position [σ[k]]. *)
Definition permute_spatial (σ : list nat) (t : tensor4 T) : tensor4 T :=
  let hw := (dim1 t * dim2 t)%nat in
  let px := tf_reshape (data t) (dim3 t) in
  Tensor4 (dim0 t) (dim1 t) (dim2 t) (dim3 t)
    (concat (b ← seq 0 (dim0 t);
             (λ k, default [] (px !! (b * hw + k)%nat)) <$> σ)).

(** The mean squared error of the spec's wording. *)
Definition mean_squared_error (x p : list T) : T :=
  reduce_mean (tf_square (zip_with fsub x p)).

End StyleTransfer.

Section GramSpec.
Context {T : Type} `{!Arith T}.



End GramSpec.

(** ** 4. Concrete environments and inputs *)

(** The hyperparameter cell in Python floats, and in exact arithmetic. *)
Definition notebook_hyper64 : hyper binary64 := notebook_hyper.
Definition notebook_hyperQ : hyper Qc := notebook_hyper.

(** The hyperparameter cell with [inner_epochs = 0]. *)
Definition zero_epoch_hyper {F} `{!Arith F} : hyper F :=
  {| plot := plot notebook_hyper;
     inner_stepsize := inner_stepsize notebook_hyper;
     inner_epochs := 0;
     inner_batchsize := inner_batchsize notebook_hyper;
     outer_stepsize0 := outer_stepsize0 notebook_hyper;
     outer_steps := outer_steps notebook_hyper |}.

(** A small environment on which the loop can be run: a counter for the
    random generator, whose first call of [gen_task] samples phase [0] and
    amplitude [3]; a two-point grid; a model whose output is its first
    parameter and whose gradients are the parameters themselves. *)
Definition test_externals {F T} `{!Arith F, !Arith T} : Externals F T := {|
  rng := nat;
  rng_uniform := λ low high g,
    (if Nat.even g then low else (low + of_int 1)%num, S g);
  rng_permutation := λ n g, (reverse (seq 0 n), S g);
  rng_choice := λ n size g, (replicate size 0%nat, S g);
  np_sin := λ x, x;
  np_pi := of_int 3;
  np_linspace := λ start stop num, [start; stop];
  forward := λ m x, default [] (m !! "0.weight");
  backward := λ m x y name, default [] (m !! name);
|}.

Definition test_plot_data {F} `{!Arith F} : plot_data F :=
  PlotData (Task (of_int 0) (of_int 3)) [of_int 1].

(** float32 parameters [0.3] and [-0.07], and a model holding them. *)
Definition f32_0_3 : binary32 := (of_int 3 / of_int 10)%num.
Definition f32_m0_07 : binary32 := (of_int (-7) / of_int 100)%num.

Definition test_weights32 : gmap string (list binary32) :=
  {[ "0.weight" := [f32_0_3; f32_m0_07]; "0.bias" := [f32_m0_07] ]}.
Definition test_weights32' : gmap string (list binary32) :=
  {[ "0.weight" := [f32_m0_07; f32_0_3]; "0.bias" := [f32_0_3] ]}.

Definition test_weightsQ : gmap string (list Qc) :=
  {[ "0.weight" := [Qc_of_Z 3; Qc_of_Z (-7)]; "0.bias" := [Qc_of_Z 5] ]}.
Definition test_weightsQ' : gmap string (list Qc) :=
  {[ "0.weight" := [Qc_of_Z 2; Qc_of_Z 1]; "0.bias" := [Qc_of_Z 0] ]}.

(** Two mappings of one model: the same names, the same shapes. *)
Definition same_shape {T} (W W' : gmap string (list T)) : Prop :=
  length <$> W = length <$> W'.

(** Every element of every parameter satisfies [P]. *)
Definition all_elements {T} (P : T → Prop) (W : gmap string (list T)) : Prop :=
  map_Forall (λ _ tensor, Forall P tensor) W.

(** A step size that stays finite when converted for a float32 tensor. *)
Definition finite_step (s : binary64) : bool := is_finite (b32 (cast s)).

(** The notebook's schedule evaluated on the kernel's own binary64 numbers:
    [0.1 * (1 - z / 10000)] for an iteration index [z]. *)
Definition prim_of_int (z : Z) : PrimFloat.float :=
  PrimFloat.of_uint63 (Uint63.of_Z z).

Definition prim_outer_stepsize (z : Z) : PrimFloat.float :=
  PrimFloat.mul
    (PrimFloat.div (prim_of_int 1) (prim_of_int 10))
    (PrimFloat.sub (prim_of_int 1)
       (PrimFloat.div (prim_of_int z) (prim_of_int 10000))).

(** The check run at iteration [z]: the step size is not NaN, the next one
    is not larger, and the step size converts to a finite float32. *)
Definition schedule_step_checkb (z : Z) : bool :=
  PrimFloat.leb (prim_outer_stepsize z) (prim_outer_stepsize z)
  && PrimFloat.leb (prim_outer_stepsize (z + 1)) (prim_outer_stepsize z)
  && finite_step (B64 (FloatOps.Prim2SF (prim_outer_stepsize z))).

(** The check run at iterations [z, z + 1, ..., z + n - 1]. *)
Fixpoint schedule_checkb (n : nat) (z : Z) : bool :=
  match n with
  | O => true
  | S n => schedule_step_checkb z && schedule_checkb n (z + 1)
  end.

(** A [1 x 2 x 2 x 2] activation, a permutation of its four spatial
    positions, and one-element content features. *)
Definition test_activation {T} `{!Arith T} : tensor4 T :=
  Tensor4 1 2 2 2 (of_int <$> [1; 2; 3; 4; 5; 6; 7; 8]).
Definition test_permutation : list nat := [2; 0; 3; 1]%nat.

(** A float32 activation with three positions and one channel, holding
    4096, 1 and 1, and a rotation of its positions. *)
Definition large_and_small32 : tensor4 binary32 :=
  Tensor4 1 1 3 1 (of_int <$> [4096; 1; 1]).
Definition rotation3 : list nat := [1; 2; 0]%nat.



Definition test_features {T} `{!Arith T} (z : Z) : gmap string (tensor4 T) :=
  list_to_map ((λ name, (name, Tensor4 1 1 1 1 [of_int z])) <$> all_layers).

(** An environment on which the losses can be run: the identity for
    [tf.pow], and a network whose every end point is the top-left pixel's
    first channel. *)
Definition test_tf_externals {F T} `{!Arith T} : TfExternals F T := {|
  tf_pow := λ x _, x;
  inception_v1 := λ image,
    list_to_map ((λ name, (name, Tensor4 1 1 1 1 (take 1 (concat (concat image)))))
                 <$> all_layers);
|}.

Definition test_image {T} `{!Arith T} : list (list (list T)) :=
  [ [ [of_int 1; of_int 2; of_int 3]; [of_int 4; of_int 5; of_int 6] ];
    [ [of_int 7; of_int 8; of_int 9]; [of_int 1; of_int 3; of_int 5] ] ].

(** The weights of the six terms of [total_loss], in the order of
    [losses]. *)
Definition loss_weights : list Qc :=
  [ Qc_of_Z 10; Qc_of_Z 2000000; Qc_of_Z 2000000; Qc_of_Z 20000000;
    Qc_of_Z 20000000; (Qc_of_Z 1 / Qc_of_Z 100000)%Qc ].

(** ** 5. The rest of the Reptile notebook *)

(** The hyperparameter cell with another value of [plot]. *)
Definition with_plot {F} (b : bool) (h : hyper F) : hyper F :=
  {| plot := b;
     inner_stepsize := inner_stepsize h;
     inner_epochs := inner_epochs h;
     inner_batchsize := inner_batchsize h;
     outer_stepsize0 := outer_stepsize0 h;
     outer_steps := outer_steps h |}.

Section ReptileBatches.
Context {F T : Type} `{!Arith F, !Arith T, !Cast F T, !Externals F T}.

(** The values [batch_indices = inds[start:start+inner_batchsize]] takes
    during one pass [for start in range(0, len(x_all), inner_batchsize)]. *)
Definition epoch_batches (h : hyper F) (inds : list nat) : list (list nat) :=
  (λ start, take (inner_batchsize h) (drop start inds))
    <$> py_range_step (length x_all) (inner_batchsize h).

(** The gradients that [loss.backward()] leaves in [param.grad] have the
    shape of their parameter. *)
Definition gradients_have_parameter_shape : Prop :=
  ∀ (m : gmap string (list T)) (x y : list T) (name : string) (param : list T),
    m !! name = Some param → length (backward m x y name) = length param.
End ReptileBatches.

(** ** 6. The rest of the style-transfer notebook *)

(** [int(x)] of a Python float: truncation towards zero; an infinity is an
    [OverflowError] and a NaN a [ValueError].  NumPy's [astype] to an
    integer type truncates in the same way when the result fits the
    type. *)
Class Trunc (A : Type) := trunc : A → option Z.

(** [tf.abs]. *)
Class Abs (A : Type) := fabs : A → A.

#[global] Instance Qc_trunc : Trunc Qc :=
  λ q, Some (Z.quot (Qnum q) (Zpos (Qden q))).

#[global] Instance Qc_abs : Abs Qc :=
  λ q, if bool_decide (Qcle 0%Qc q) then q else Qcopp q.

Definition SFtrunc (x : spec_float) : option Z :=
  match x with
  | S754_zero _ => Some 0
  | S754_finite s m e =>
      Some (cond_Zopp s
              match e with
              | Zneg p => Zpos m / 2 ^ Zpos p
              | _ => Zpos m * 2 ^ e
              end)
  | _ => None
  end.

#[global] Instance spec_float_eq_dec : EqDecision spec_float.
Proof. solve_decision. Defined.

#[global] Instance binary32_eq_dec : EqDecision binary32.
Proof. solve_decision. Defined.

#[global] Instance binary64_trunc : Trunc binary64 := λ x, SFtrunc (b64 x).
#[global] Instance binary32_trunc : Trunc binary32 := λ x, SFtrunc (b32 x).
#[global] Instance binary32_abs : Abs binary32 := λ x, B32 (SFabs (b32 x)).

(** [astype('float64')] of a float32 value: the same number, in the
    binary64 format. *)
Definition widen64 (x : spec_float) : spec_float :=
  match x with
  | S754_finite s m e => binary_round 53 1024 s m e
  | _ => x
  end.

#[global] Instance binary_widen : Cast binary32 binary64 := λ x, B64 (widen64 (b32 x)).

(** *** Python slices *)

(** A slice bound [i] of a sequence of length [len]: a negative bound
    counts from the end, and the result is clamped to [0 .. len]. *)
Definition py_slice_bound (len i : Z) : Z :=
  if i <? 0 then Z.max 0 (i + len) else Z.min i len.

(** [l[start:stop]]. *)
Definition py_slice {A} (start stop : Z) (l : list A) : list A :=
  let len := Z.of_nat (length l) in
  let a := py_slice_bound len start in
  let b := py_slice_bound len stop in
  take (Z.to_nat (b - a)) (drop (Z.to_nat a) l).

(** *** The cells choosing the photo and the style *)

(** The cell [photo_i += 1; photo = plt.imread(photos[photo_i % len(photos)])]:
    the new counter and the path that is read.  An empty list is a
    [ZeroDivisionError]. *)
Definition next_image (images : list string) (image_i : Z) : Z * option string :=
  let image_i := image_i + 1 in
  (image_i,
   if (length images =? 0)%nat then None
   else images !! Z.to_nat (image_i mod Z.of_nat (length images))).

(** *** [prep_image] *)

(** What [plt.imread] returns: a 2-d array for a grey image, a 3-d array
    [rows x columns x channels] otherwise. *)
Inductive ndarray_image (V : Type) :=
| Gray (px : list (list V))
| Color (px : list (list (list V))).
Arguments Gray {V}.
Arguments Color {V}.

(** [scipy.misc.imresize(im, (rows, columns))]; its result is a [uint8]
    array. *)
Class ImageExternals (V : Type) := {
  imresize : list (list (list V)) → nat * nat → list (list (list Z));
}.

(** The first two components of [im.shape]. *)
Definition image_shape {A} (im : list (list (list A))) : nat * nat :=
  (length im, length (default [] (head im))).

(** Every row of an image has [w] pixels and there are [h] rows. *)
Definition has_shape {A} (h w : nat) (im : list (list (list A))) : Prop :=
  length im = h ∧ Forall (λ row, length row = w) im.

(** An array of shape [h, w, c]. *)
Definition has_shape3 {A} (h w c : nat) (im : list (list (list A))) : Prop :=
  length im = h
  ∧ Forall (λ row, length row = w ∧ Forall (λ px, length px = c) row) im.

(** [im[h//2-112:h//2+112, w//2-112:w//2+112]] with [h, w, _ = im.shape]. *)
Definition central_crop {A} (im : list (list (list A))) : list (list (list A)) :=
  let '(h, w) := image_shape im in
  let h := Z.of_nat h in
  let w := Z.of_nat w in
  py_slice (w / 2 - 112) (w / 2 + 112)
    <$> py_slice (h / 2 - 112) (h / 2 + 112) im.

Section PrepImage.
Context {F T V : Type} `{!Arith F, !Arith T, !Cast F T, !Trunc F, !ImageExternals V}.

(** [int(a*224/b)]: the product of two Python integers, their true
    division, and the truncation of the float.  A zero [b] is a
    [ZeroDivisionError]. *)
Definition scaled_side (a b : nat) : option nat :=
  if (b =? 0)%nat then None
  else Z.to_nat <$> trunc (of_int (Z.of_nat a * 224)%Z / of_int (Z.of_nat b) : F)%num.

(** The size passed to [imresize]: the smallest side becomes 224. *)
Definition resize_size (h w : nat) : option (nat * nat) :=
  if (h <? w)%nat then (λ w', (224%nat, w')) <$> scaled_side w h
  else (λ h', (h', 224%nat)) <$> scaled_side h w.

(** [( v.astype('float32')/255.0 - 0.5 ) * 2.0] for a [uint8] value [v]. *)
Definition rescale_pixel (v : Z) : T :=
  ((of_int v / cast (of_int 255 : F) - cast (of_int 1 / of_int 2 : F)%num)
   * cast (of_int 2 : F))%num.

(** [if len(im.shape) == 2: im = np.repeat(im[:, :, np.newaxis], 3, axis=2)]. *)
Definition as_color (im : ndarray_image V) : list (list (list V)) :=
  match im with
  | Gray px => fmap (M := list) (fmap (M := list) (λ v, [v; v; v])) px
  | Color px => px
  end.

Definition prep_image (im : ndarray_image V)
  : option (list (list (list Z)) * list (list (list T))) :=
  let im := as_color im in
  let '(h, w) := image_shape im in
  size ← resize_size h w;
  let im := central_crop (imresize im size) in
  let rawim := im in
  Some (rawim,
        fmap (M := list) (fmap (M := list) (fmap (M := list) rescale_pixel)) im).
End PrepImage.

(** *** The optimisation cell *)

(** [im.flatten()] and [x.reshape(h, w, c)]; a vector of the wrong length
    is a [ValueError]. *)
Definition np_flatten {A} (im : list (list (list A))) : list A := concat (concat im).

Definition np_reshape3 {A} (h w c : nat) (x : list A) : option (list (list (list A))) :=
  if (length x =? h * w * c)%nat then Some (tf_reshape (tf_reshape x c) w) else None.

Section Optimisation.
Context {F T : Type} `{!Arith F, !Arith T, !Cast F T, !Cast T F, !Trunc F,
                       !TfExternals F T}.

(** [x0 = art_image.flatten().astype('float64')]. *)
Definition x0_init (art_image : list (list (list T))) : list F :=
  cast <$> np_flatten art_image.

(** [x_image = x.reshape(image_size,image_size,3).astype('float32')]. *)
Definition x_image (image_size : nat) (x : list F) : option (list (list (list T))) :=
  fmap (M := list) (fmap (M := list) (fmap (M := list) cast))
    <$> np_reshape3 image_size image_size 3 x.

(** The loss returned by [eval_loss_and_grad]: [total_loss] run on
    [x_image], as a float64. *)
Definition eval_loss (image_size : nat)
    (photo_features style_features : gmap string (tensor4 T)) (x : list F) : option F :=
  img ← x_image image_size x;
  x_loss ← total_loss photo_features style_features img;
  Some (cast x_loss).

(** [np.clip(x, a_min, a_max)] for bounds that are numbers; a NaN stays a
    NaN. *)
Definition np_clip (x a_min a_max : F) : F :=
  if fleb x x then
    let y := if fleb a_min x then x else a_min in
    if fleb y a_max then y else a_max
  else x.

(** One element of [art_raw = np.clip(((x0*0.5 + 0.5) * 255.0), a_min=0.0, a_max=255.0)]. *)
Definition art_raw (x : F) : F :=
  np_clip ((x * (of_int 1 / of_int 2) + of_int 1 / of_int 2) * of_int 255)%num
          (of_int 0) (of_int 255).

End Optimisation.

(** [astype('uint8')] never raises and always returns a [uint8].  For a
    float whose truncation is a [uint8] value it returns that value.  For
    any other float (a NaN, an infinity, a number below 0 or above 255)
    NumPy returns what the C conversion of the platform returns, at most
    with a [RuntimeWarning]: on x86-64 a NaN becomes 0. *)
Class Uint8Externals (F : Type) := unspecified_uint8 : F → Z.

Section Display.
Context {F : Type} `{!Trunc F, !Uint8Externals F}.

(** The truncation of [x] when it is a [uint8] value. *)
Definition uint8_of_float (x : F) : option Z :=
  z ← trunc x;
  if bool_decide (0 ≤ z < 256) then Some z else None.

Definition astype_uint8 (x : F) : Z :=
  default (unspecified_uint8 x `mod` 256) (uint8_of_float x).
End Display.

(** A platform on which every unspecified conversion gives 0, as x86-64
    does for a NaN. *)
Definition nan_to_zero : Uint8Externals binary64 := λ _, 0.

(** The largest [uint8] value, 255, as a binary64 number. *)
Definition uint8_max : spec_float := S754_finite false 8972014882652160 (-45).

(** *** [total_variation_loss_l1] *)

Section TotalVariationL1.
Context {T : Type} `{!Arith T, !Abs T}.

(** [x[1:,:,:] - x[:-1,:,:]] and [x[:,1:,:] - x[:,:-1,:]], their absolute
    values summed. *)
Definition total_variation_loss_l1 (x : list (list (list T))) : T :=
  (reduce_sum (concat (concat
     (image_map fabs (image_zip_with fsub (rows_from_1 x) (rows_to_last x)))))
   + reduce_sum (concat (concat
     (image_map fabs (image_zip_with fsub (cols_from_1 x) (cols_to_last x))))))%num.
End TotalVariationL1.

(** *** Inputs and checks for the image cells *)

(** An [imresize] that returns an image of the requested size. *)
Definition test_resize : ImageExternals Z := {|
  imresize := λ im size,
    replicate (fst size) (replicate (snd size) [0; 128; 255]);
|}.

(** A [2 x 2 x 3] image of scaled [uint8] values. *)
Definition test_art_image {F T} `{!Arith F, !Arith T, !Cast F T}
  : list (list (list T)) :=
  replicate 2 (replicate 2 (rescale_pixel (F := F) <$> [0; 128; 255])).

(** [f z && f (z + 1) && ... && f (z + n - 1)]. *)
Fixpoint range_checkb (f : Z → bool) (n : nat) (z : Z) : bool :=
  match n with
  | O => true
  | S n => f z && range_checkb f n (z + 1)
  end.

(** The scaling of [prep_image] on float32 tensors, with Python floats
    for the literals. *)
Definition rescale32 (v : Z) : binary32 := rescale_pixel (F := binary64) v.

(** A scaled [uint8] value converted back for display. *)
Definition display_of_pixel `{!Uint8Externals binary64} (v : Z) : Z :=
  astype_uint8 (art_raw (cast (rescale32 v) : binary64)).

(** The checks run on a [uint8] value [v]: the next value is scaled to a
    larger float32; the float32 survives [astype('float64')] followed by
    [astype('float32')]; the value displayed is [v] or [v - 1]. *)
Definition rescale_checkb (v : Z) : bool :=
  SFltb (b32 (rescale32 v)) (b32 (rescale32 (v + 1))).

Definition widen_checkb (v : Z) : bool :=
  bool_decide (cast (cast (rescale32 v) : binary64) = rescale32 v).

Definition display_checkb (v : Z) : bool :=
  let x := art_raw (cast (rescale32 v) : binary64) in
  bool_decide (uint8_of_float x = Some v ∨ uint8_of_float x = Some (v - 1)).

(** *** The sizes computed by [prep_image] on Python floats *)

(** [int(a*224/b)] evaluated on the kernel's own binary64 numbers and
    machine integers: the check that the quotient lies between [lo] and
    [hi], for one pair of sides, for a row [b, b+1, ...] of [n] smaller
    sides, and for the rows of [n] consecutive larger sides, the row of
    side [a] having [k] smaller sides. *)
Section PrimSizes.
Variables (one k224 : PrimInt63.int) (lo hi : PrimFloat.float).

Definition prim_scaled_side_checkb (a b : PrimInt63.int) : bool :=
  let q := PrimFloat.div (PrimFloat.of_uint63 (PrimInt63.mul a k224))
                         (PrimFloat.of_uint63 b) in
  PrimFloat.leb lo q && PrimFloat.leb q hi.

Fixpoint prim_row_checkb (a : PrimInt63.int) (n : nat) (b : PrimInt63.int) : bool :=
  match n with
  | O => true
  | S n => prim_scaled_side_checkb a b && prim_row_checkb a n (PrimInt63.add b one)
  end.

Fixpoint prim_triangle_checkb (n k : nat) (a : PrimInt63.int) : bool :=
  match n with
  | O => true
  | S n => prim_row_checkb a k one && prim_triangle_checkb n (S k) (PrimInt63.add a one)
  end.
End PrimSizes.

(** The largest image side covered by the check. *)
Definition max_side : nat := 4096.

(** 224 and 2^62 in binary64. *)
Definition c224 : spec_float := S754_finite false 7881299347898368 (-45).
Definition c2p62 : spec_float := S754_finite false 4503599627370496 10.

(** ** 7. Facts about the Reptile loop, in any arithmetic *)

Section ReptileFacts.
Context {F T : Type} `{!Arith F, !Arith T, !Cast F T, !Externals F T}.
Implicit Types (m d : gmap string (list T)) (h : hyper F) (pd : plot_data F).

Lemma tscale_l_tscale (s : F) (a : list T) :
  (∀ x y : T, (x * y = y * x)%num) → tscale_l s a = tscale a s.
Proof.
  intros Hcomm. unfold tscale_l, tscale.
  apply list_fmap_ext. intros _ x _. apply Hcomm.
Qed.

Lemma lookup_train h m x y name :
  train_current_model_on_batch h m x y !! name =
    (λ param, tsub param
       (tscale (backward m (totorch x) (totorch y) name) (inner_stepsize h)))
    <$> m !! name.
Proof.
  unfold train_current_model_on_batch. rewrite map_lookup_imap.
  destruct (m !! name); reflexivity.
Qed.

(** Training rewrites the parameters in place: no name appears or
    disappears. *)
Lemma dom_train h m x y : dom (train_current_model_on_batch h m x y) = dom m.
Proof.
  apply set_eq. intros name.
  rewrite !elem_of_dom, lookup_train, fmap_is_Some. reflexivity.
Qed.

Lemma dom_iter_train h m x y n :
  dom (Nat.iter n (λ m, train_current_model_on_batch h m x y) m) = dom m.
Proof.
  induction n as [|n IH]; simpl; [reflexivity|].
  rewrite dom_train. exact IH.
Qed.

Lemma dom_sgd_epoch h inds y_all m : dom (sgd_epoch h inds y_all m) = dom m.
Proof.
  unfold sgd_epoch.
  generalize (py_range_step (length x_all) (inner_batchsize h)). intros starts.
  revert m. induction starts as [|start starts IH]; intros m; simpl; [reflexivity|].
  rewrite IH. apply dom_train.
Qed.

Lemma dom_inner_sgd h inds y_all m : dom (inner_sgd h inds y_all m) = dom m.
Proof.
  unfold inner_sgd. induction (inner_epochs h) as [|n IH]; simpl; [reflexivity|].
  rewrite dom_sgd_epoch. exact IH.
Qed.

Lemma dom_adapt h (w : world) : dom (model (adapt h w)) = dom (model w).
Proof.
  unfold adapt. destruct (gen_task (rng_state w)) as [f g].
  destruct (rng_permutation (length x_all) g) as [inds g']. simpl.
  apply dom_inner_sgd.
Qed.

(** Loading a dictionary with the model's own names leaves the model equal
    to that dictionary. *)
Lemma load_state_dict_same_dom m d : dom m = dom d → load_state_dict m d = d.
Proof.
  intros Hdom. apply map_eq. intros name.
  unfold load_state_dict. rewrite map_lookup_zip_with.
  destruct (d !! name) as [new|] eqn:Hd.
  - assert (is_Some (m !! name)) as [old ->]; [|reflexivity].
    apply elem_of_dom. rewrite Hdom. apply elem_of_dom. eauto.
  - destruct (m !! name); reflexivity.
Qed.

Lemma dom_interpolate (wb wa : gmap string (list T)) (s : F) :
  dom wa = dom wb → dom (interpolate wb wa s) = dom wb.
Proof.
  intros Hdom. unfold interpolate. rewrite dom_map_zip_with_L, Hdom.
  apply intersection_idemp_L.
Qed.

Lemma lookup_interpolate (wb wa : gmap string (list T)) (s : F) name :
  interpolate wb wa s !! name =
    b ← wb !! name; a ← wa !! name; Some (interpolate_tensor s b a).
Proof. unfold interpolate. apply map_lookup_zip_with. Qed.

(** The evaluation branch ends on the parameters it started from. *)
Lemma plot_branch_id h pd m : plot_branch h pd m = m.
Proof.
  unfold plot_branch, deepcopy, state_dict, deref.
  apply load_state_dict_same_dom, dom_iter_train.
Qed.

(** With a detached snapshot and an alias of the live model, the model
    ends up holding the interpolation between the snapshot and itself. *)
Lemma load_interpolation_detached (s : F) (snapshot m : gmap string (list T)) :
  dom m = dom snapshot →
  load_interpolation s (Detached snapshot) Live m = interpolate snapshot m s.
Proof.
  intros Hdom. unfold load_interpolation, deref.
  apply load_state_dict_same_dom.
  rewrite dom_interpolate by exact Hdom. exact Hdom.
Qed.

Lemma meta_update_detached h outer_step (snapshot m : gmap string (list T)) :
  dom m = dom snapshot →
  meta_update h outer_step (Detached snapshot) m =
    interpolate snapshot m (outer_stepsize h outer_step).
Proof. apply load_interpolation_detached. Qed.

(** The parameters at the end of an outer iteration. *)
Lemma model_reptile_iteration h pd outer_step (w : world) :
  model (reptile_iteration h pd outer_step w) =
    interpolate (model w) (model (adapt h w)) (outer_stepsize h outer_step).
Proof.
  unfold reptile_iteration, deepcopy, state_dict, deref. cbn [model].
  rewrite meta_update_detached by apply dom_adapt.
  destruct (plot_now h outer_step); [apply plot_branch_id | reflexivity].
Qed.

Lemma reptile_steps_S h pd n (w : world) :
  reptile_steps h pd (S n) w = reptile_iteration h pd n (reptile_steps h pd n w).
Proof. unfold reptile_steps. rewrite seq_S, foldl_snoc. reflexivity. Qed.
End ReptileFacts.

(** ** 8. Facts about the two arithmetics *)

Section FloatFacts.
Variables prec emax : Z.

Lemma SFmul_comm x y : SFmul prec emax x y = SFmul prec emax y x.
Proof.
  destruct x as [sx|sx| |sx mx ex], y as [sy|sy| |sy my ey]; simpl;
    rewrite ?(xorb_comm sx sy); try reflexivity.
  rewrite (Pos.mul_comm mx my), (Z.add_comm ex ey). reflexivity.
Qed.

Lemma SFsub_diag x : is_finite x = true → SFsub prec emax x x = S754_zero false.
Proof.
  destruct x as [[]|[]| |sx mx ex]; simpl; try done.
  intros _. rewrite Z.sub_diag. reflexivity.
Qed.

Lemma SFmul_zero_l s y :
  is_finite y = true → ∃ s', SFmul prec emax (S754_zero s) y = S754_zero s'.
Proof. destruct y; simpl; try done; eauto. Qed.

Lemma SFmul_zero_r x s :
  is_finite x = true → ∃ s', SFmul prec emax x (S754_zero s) = S754_zero s'.
Proof. destruct x; simpl; try done; eauto. Qed.

(** Adding a zero of either sign to a finite value other than [-0]
    returns that value. *)
Lemma SFadd_zero_r x s : regular x = true → SFadd prec emax x (S754_zero s) = x.
Proof. destruct x as [[]|[]| |sx mx ex], s; simpl; done. Qed.
End FloatFacts.

Lemma SFleb_trans x y z : SFleb x y = true → SFleb y z = true → SFleb x z = true.
Proof.
  unfold SFleb, SFcompare.
  destruct x as [sx|sx| |sx mx ex], y as [sy|sy| |sy my ey], z as [sz|sz| |sz mz ez];
    try (destruct sx); try (destruct sy); try (destruct sz); try done.
  all: change (PosDef.Pos.compare_cont Eq) with Pos.compare.
  all: destruct (Z.compare_spec ex ey), (Z.compare_spec ey ez), (Z.compare_spec ex ez);
       try done; try lia; subst.
  all: destruct (Pos.compare_spec mx my), (Pos.compare_spec my mz), (Pos.compare_spec mx mz);
       simpl; try done; try lia.
Qed.

Lemma binary32_fmul_comm (x y : binary32) : (x * y = y * x)%num.
Proof. simpl. f_equal. apply SFmul_comm. Qed.

(** [x + (x - x) * s = x] in binary32, for finite [x] and [s]. *)
Lemma binary32_interpolate_self (x s : binary32) :
  regular (b32 x) = true → is_finite (b32 s) = true → (x + (x - x) * s = x)%num.
Proof.
  destruct x as [x], s as [s]. simpl. intros Hx Hs. f_equal.
  rewrite SFsub_diag by (destruct x as [[]| | |]; done).
  destruct (SFmul_zero_l 24 128 false s Hs) as [s' ->].
  apply SFadd_zero_r, Hx.
Qed.

(** [x + (y - x) * 0 = x] in binary32, when [y - x] does not overflow. *)
Lemma binary32_interpolate_zero (x y : binary32) :
  regular (b32 x) = true → is_finite (b32 (y - x)%num) = true →
  (x + (y - x) * cast (of_int 0 : binary64) = x)%num.
Proof.
  destruct x as [x], y as [y]. simpl. intros Hx Hd. f_equal.
  destruct (SFmul_zero_r 24 128 (SFsub 24 128 y x) false Hd) as [s' ->].
  apply SFadd_zero_r, Hx.
Qed.

Lemma Qc_interpolate_self (x s : Qc) : (x + (x - x) * s = x)%num.
Proof. simpl. ring. Qed.

Lemma Qc_interpolate_zero (x y : Qc) : (x + (y - x) * cast (of_int 0 : Qc) = x)%num.
Proof.
  simpl. unfold cast, Qc_cast. rewrite Z2Qc_inj_0. ring.
Qed.

Lemma Qc_interpolate_one (x y : Qc) : (x + (y - x) * cast (of_int 1 : Qc) = y)%num.
Proof.
  simpl. unfold cast, Qc_cast. rewrite Z2Qc_inj_1. ring.
Qed.

(** ** 9. The interpolation step, elementwise *)

Section InterpolateFacts.
Context {F T : Type} `{!Arith T, !Cast F T}.
Implicit Types (s : F) (wb wa : list T) (Wb Wa : gmap string (list T)).

Lemma interpolate_tensor_cons s b a wb wa :
  interpolate_tensor s (b :: wb) (a :: wa) =
    (b + (a - b) * cast s)%num :: interpolate_tensor s wb wa.
Proof. reflexivity. Qed.

Lemma interpolate_tensor_left s wb wa :
  Forall2 (λ b a, (b + (a - b) * cast s)%num = b) wb wa →
  interpolate_tensor s wb wa = wb.
Proof.
  induction 1 as [|b a wb wa Hhd _ IH]; [reflexivity|].
  rewrite interpolate_tensor_cons, Hhd, IH. reflexivity.
Qed.

Lemma interpolate_tensor_right s wb wa :
  Forall2 (λ b a, (b + (a - b) * cast s)%num = a) wb wa →
  interpolate_tensor s wb wa = wa.
Proof.
  induction 1 as [|b a wb wa Hhd _ IH]; [reflexivity|].
  rewrite interpolate_tensor_cons, Hhd, IH. reflexivity.
Qed.

Lemma interpolate_left Wb Wa s :
  (∀ name, option_Forall2
             (Forall2 (λ b a, (b + (a - b) * cast s)%num = b))
             (Wb !! name) (Wa !! name)) →
  interpolate Wb Wa s = Wb.
Proof.
  intros Hall. apply map_eq. intros name. rewrite lookup_interpolate.
  destruct (Hall name) as [wb wa Hwb|]; simpl; [|reflexivity].
  rewrite (interpolate_tensor_left _ _ _ Hwb). reflexivity.
Qed.

Lemma interpolate_right Wb Wa s :
  (∀ name, option_Forall2
             (Forall2 (λ b a, (b + (a - b) * cast s)%num = a))
             (Wb !! name) (Wa !! name)) →
  interpolate Wb Wa s = Wa.
Proof.
  intros Hall. apply map_eq. intros name. rewrite lookup_interpolate.
  destruct (Hall name) as [wb wa Hwb|]; simpl; [|reflexivity].
  rewrite (interpolate_tensor_right _ _ _ Hwb). reflexivity.
Qed.

(** Interpolating between a mapping and itself. *)
Lemma interpolate_self Wb s :
  all_elements (λ x, (x + (x - x) * cast s)%num = x) Wb →
  interpolate Wb Wb s = Wb.
Proof.
  intros Hall. apply interpolate_left. intros name.
  destruct (Wb !! name) as [wb|] eqn:Hwb; constructor.
  pose proof (Hall name wb Hwb) as Hwb'. clear Hwb. cbv beta in Hwb'.
  induction Hwb' as [|x l Hx _ IH];
    [apply List.Forall2_nil | apply List.Forall2_cons; [exact Hx | exact IH]].
Qed.

Lemma same_shape_lookup Wb Wa name :
  same_shape Wb Wa →
  option_Forall2 (λ b a, length b = length a) (Wb !! name) (Wa !! name).
Proof.
  intros Hshape. apply (f_equal (λ W, W !! name)) in Hshape.
  rewrite !lookup_fmap in Hshape.
  destruct (Wb !! name), (Wa !! name); simplify_eq/=; constructor; assumption.
Qed.

Lemma same_shape_dom Wb Wa : same_shape Wb Wa → dom Wa = dom Wb.
Proof.
  intros Hshape. apply (f_equal dom) in Hshape.
  rewrite !dom_fmap_L in Hshape. symmetry. exact Hshape.
Qed.

(** An elementwise law lifted to mappings of one shape. *)
Lemma same_shape_Forall2 (P : T → T → Prop) Wb Wa :
  same_shape Wb Wa →
  (∀ b a, P b a) →
  ∀ name, option_Forall2 (Forall2 P) (Wb !! name) (Wa !! name).
Proof.
  intros Hshape HP name.
  destruct (same_shape_lookup _ _ name Hshape) as [wb wa Hlen|]; constructor.
  revert wa Hlen. induction wb as [|b wb IH]; intros [|a wa] Hlen;
    try discriminate; [apply List.Forall2_nil|].
  apply List.Forall2_cons; [apply HP|].
  apply IH. simpl in Hlen. congruence.
Qed.
End InterpolateFacts.

Section ZeroEpochs.
Context {F T : Type} `{!Arith F, !Arith T, !Cast F T, !Externals F T}.

(** With [inner_epochs = 0] the inner loop body never runs. *)
Lemma adapt_zero_epochs (h : hyper F) (w : world) :
  inner_epochs h = 0%nat → model (adapt h w) = model w.
Proof.
  intros Hzero. unfold adapt. destruct (gen_task (rng_state w)) as [f g].
  destruct (rng_permutation (length x_all) g) as [inds g'].
  unfold inner_sgd. rewrite Hzero. reflexivity.
Qed.

Lemma reptile_iteration_zero_epochs (h : hyper F) (pd : plot_data F) i (w : world) :
  inner_epochs h = 0%nat →
  all_elements (λ x, (x + (x - x) * cast (outer_stepsize h i))%num = x) (model w) →
  model (reptile_iteration h pd i w) = model w.
Proof.
  intros Hzero Hall.
  rewrite model_reptile_iteration, adapt_zero_epochs by exact Hzero.
  apply interpolate_self, Hall.
Qed.
End ZeroEpochs.

(** ** 10. The outer iteration of the Reptile loop *)

(** C1.  In every outer iteration of the Reptile loop, with [W_before] the
    parameters snapshotted at the start of the iteration, [W_after] the
    parameters after the inner SGD adaptation and [s] the outer step size of
    the iteration, the parameters at the end of the iteration (evaluation
    branch included) are, independently for every parameter name,
    [W_before + s * (W_after - W_before)].  Names outside the model are
    absent on both sides.  The notebook writes the scalar on the right of
    the product; the two readings agree since multiplication commutes. *)
Theorem reptile_iteration_moves_towards_adapted
    {F T : Type} `{!Arith F, !Arith T, !Cast F T, !Externals F T}
    (h : hyper F) (pd : plot_data F) (w0 : world) (i : nat) (name : string) :
  (∀ x y : T, (x * y = y * x)%num) →
  let w := reptile_steps h pd i w0 in
  let W_before := model w in
  let W_after := model (adapt h w) in
  let s := outer_stepsize h i in
  model (reptile_steps h pd (S i) w0) !! name =
    (wb ← W_before !! name;
     wa ← W_after !! name;
     Some (tadd wb (tscale_l s (tsub wa wb)))).
Proof.
  intros Hcomm w W_before W_after s.
  rewrite reptile_steps_S. fold w.
  rewrite model_reptile_iteration, lookup_interpolate.
  fold W_before W_after s.
  destruct (W_before !! name) as [wb|]; [|reflexivity].
  destruct (W_after !! name) as [wa|]; [|reflexivity].
  simpl. unfold interpolate_tensor. rewrite tscale_l_tscale by exact Hcomm.
  reflexivity.
Qed.

Lemma reptile_iteration_moves_towards_adapted_witness :
  let w0 := World (Externals0 := test_externals (F := binary64)) test_weights32 0%nat in
  let w := reptile_steps notebook_hyper64 test_plot_data 3 w0 in
  let W_before := model w in
  let W_after := model (adapt notebook_hyper64 w) in
  let s := outer_stepsize notebook_hyper64 3 in
  model (reptile_steps notebook_hyper64 test_plot_data 4 w0) !! "0.weight" =
    (wb ← W_before !! "0.weight";
     wa ← W_after !! "0.weight";
     Some (tadd wb (tscale_l s (tsub wa wb)))).
Proof.
  apply (reptile_iteration_moves_towards_adapted (Externals0 := test_externals)).
  exact binary32_fmul_comm.
Defined.

(** C2.  In outer iteration [i] of [N = outer_steps], the step size used by
    the meta-update is [outer_stepsize0 * (1 - i / N)]: the parameters at the
    end of the iteration are the interpolation with exactly that factor. *)
Theorem outer_stepsize_linear_schedule
    {F T : Type} `{!Arith F, !Arith T, !Cast F T, !Externals F T}
    (h : hyper F) (pd : plot_data F) (w0 : world) (i : nat) :
  let N := outer_steps h in
  let initial_rate := outer_stepsize0 h in
  let s := (initial_rate * (of_int 1 - of_int (Z.of_nat i) / of_int (Z.of_nat N)))%num in
  let w := reptile_steps h pd i w0 in
  outer_stepsize h i = s ∧
  model (reptile_steps h pd (S i) w0) = interpolate (model w) (model (adapt h w)) s.
Proof.
  intros N initial_rate s w. split; [reflexivity|].
  rewrite reptile_steps_S. apply model_reptile_iteration.
Qed.

(** C9.  The evaluation branch of the outer loop leaves the model as it
    found it: after the snapshot, the 32 SGD steps on the plotted task and
    the restore, every parameter has the value it had on entry. *)
Theorem plot_branch_restores_weights
    {F T : Type} `{!Arith F, !Arith T, !Cast F T, !Externals F T}
    (h : hyper F) (pd : plot_data F) (m : gmap string (list T)) :
  plot_branch h pd m = m ∧
  ∀ name, plot_branch h pd m !! name = m !! name.
Proof.
  split; [apply plot_branch_id|].
  intros name. rewrite plot_branch_id. reflexivity.
Qed.

(** ** 11. The step-size schedule *)

(** The kernel's binary64 numbers compute what the specification of
    binary64 says. *)
Lemma prim_of_int_spec (z : Z) :
  0 ≤ z < 2 ^ 63 →
  FloatOps.Prim2SF (prim_of_int z) = binary_normalize 53 1024 z 0 false.
Proof.
  intros Hz. unfold prim_of_int.
  rewrite FloatAxioms.of_uint63_spec, Uint63.of_Z_spec, Z.mod_small; [reflexivity|].
  exact Hz.
Qed.

Lemma notebook_outer_steps : Z.of_nat (outer_steps notebook_hyper64) = 10000.
Proof. vm_compute. reflexivity. Qed.

Lemma prim_outer_stepsize_spec (i : nat) :
  Z.of_nat i < 2 ^ 63 →
  b64 (outer_stepsize notebook_hyper64 i) =
    FloatOps.Prim2SF (prim_outer_stepsize (Z.of_nat i)).
Proof.
  intros Hi. unfold prim_outer_stepsize.
  rewrite FloatAxioms.mul_spec, FloatAxioms.sub_spec, !FloatAxioms.div_spec.
  rewrite !prim_of_int_spec by lia.
  unfold outer_stepsize. rewrite notebook_outer_steps. reflexivity.
Qed.

Lemma schedule_checkb_spec (n : nat) (z : Z) (k : nat) :
  schedule_checkb n z = true → (k < n)%nat →
  schedule_step_checkb (z + Z.of_nat k) = true.
Proof.
  revert z k. induction n as [|n IH]; intros z k Hchk Hk; [lia|].
  simpl in Hchk. apply andb_prop in Hchk as [Hz Hchk].
  destruct k as [|k].
  - rewrite Z.add_0_r. exact Hz.
  - replace (z + Z.of_nat (S k)) with (z + 1 + Z.of_nat k) by lia.
    apply IH; [exact Hchk | lia].
Qed.

(** The schedule of the notebook in binary64, checked value by value. *)
Lemma notebook_schedule_checked :
  schedule_checkb (outer_steps notebook_hyper64) 0 = true.
Proof. vm_cast_no_check (eq_refl true). Qed.

Lemma notebook_schedule_step (i : nat) :
  (i < outer_steps notebook_hyper64)%nat →
  fleb (outer_stepsize notebook_hyper64 i) (outer_stepsize notebook_hyper64 i) = true
  ∧ fleb (outer_stepsize notebook_hyper64 (S i)) (outer_stepsize notebook_hyper64 i) = true
  ∧ finite_step (outer_stepsize notebook_hyper64 i) = true.
Proof.
  intros Hi.
  pose proof (schedule_checkb_spec _ 0 i notebook_schedule_checked Hi) as Hchk.
  pose proof notebook_outer_steps as HN.
  assert (Z.of_nat i < 2 ^ 63 ∧ Z.of_nat (S i) < 2 ^ 63) as [Hi' HSi'].
  { revert Hi HN. generalize (outer_steps notebook_hyper64). intros N Hi HN.
    clear Hchk. lia. }
  clear Hi HN. unfold schedule_step_checkb in Hchk. rewrite Z.add_0_l in Hchk.
  apply andb_prop in Hchk as [Hchk Hfin]. apply andb_prop in Hchk as [Hrefl Hnext].
  rewrite FloatAxioms.leb_spec in Hrefl, Hnext.
  replace (Z.of_nat i + 1) with (Z.of_nat (S i)) in Hnext by lia.
  rewrite <- (prim_outer_stepsize_spec (S i) HSi') in Hnext.
  rewrite <- (prim_outer_stepsize_spec i Hi') in Hrefl, Hnext, Hfin.
  split; [exact Hrefl|]. split; [exact Hnext|].
  destruct (outer_stepsize notebook_hyper64 i) as [x]. exact Hfin.
Qed.

Lemma notebook_schedule_end :
  outer_stepsize notebook_hyper64 (outer_steps notebook_hyper64) = B64 (S754_zero false).
Proof. vm_compute. reflexivity. Qed.

Lemma notebook_schedule_finite (i : nat) :
  (i < outer_steps notebook_hyper64)%nat →
  is_finite (b32 (cast (outer_stepsize notebook_hyper64 i))) = true.
Proof. intros Hi. apply (notebook_schedule_step i Hi). Qed.

Lemma notebook_schedule_antitone (i j : nat) :
  (i ≤ j ≤ outer_steps notebook_hyper64)%nat →
  fleb (outer_stepsize notebook_hyper64 j) (outer_stepsize notebook_hyper64 i) = true.
Proof.
  intros [Hij Hj]. induction Hij as [|j Hij IH].
  - apply Nat.le_lteq in Hj as [Hlt| ->].
    + apply (notebook_schedule_step i Hlt).
    + rewrite notebook_schedule_end. reflexivity.
  - apply (SFleb_trans _ (b64 (outer_stepsize notebook_hyper64 j))).
    + apply (notebook_schedule_step j). exact Hj.
    + apply IH. apply Nat.lt_le_incl, Hj.
Qed.

(** The schedule in exact arithmetic, for any hyperparameters. *)
Lemma Qc_schedule_antitone (h : hyper Qc) (i j : nat) :
  (0 ≤ outer_stepsize0 h)%Qc → (i ≤ j)%nat →
  (outer_stepsize h j ≤ outer_stepsize h i)%Qc.
Proof.
  intros Hrate Hij. unfold outer_stepsize. simpl.
  apply Qcmult_le_mono_nonneg_l; [exact Hrate|].
  unfold Qcminus. apply Qcplus_le_mono_l, Qcopp_le_compat.
  destruct (outer_steps h) as [|N'] eqn:HN.
  - change (Z.of_nat 0) with 0%Z. unfold Qcdiv. rewrite Z2Qc_inj_0.
    change (/ 0)%Qc with 0%Qc. rewrite !Qcmult_0_r. apply Qcle_refl.
  - unfold Qcdiv. apply Qcmult_le_mono_nonneg_r.
    + apply Qclt_le_weak, Qcinv_pos. rewrite <- Z2Qc_inj_0.
      apply (proj1 (Z2Qc_inj_lt _ _)). lia.
    + apply (proj1 (Z2Qc_inj_le _ _)). lia.
Qed.

Lemma Qc_schedule_end (h : hyper Qc) :
  outer_steps h ≠ 0%nat → outer_stepsize h (outer_steps h) = 0%Qc.
Proof.
  intros HN. unfold outer_stepsize. simpl.
  assert (Qc_of_Z (Z.of_nat (outer_steps h)) ≠ 0%Qc) as Hnz.
  { rewrite <- Z2Qc_inj_0. intros Heq. apply Z2Qc_inj in Heq. lia. }
  rewrite Z2Qc_inj_1. field. exact Hnz.
Qed.

(** C3.  The outer step size is non-increasing in the iteration index [i]
    over [0 <= i <= N] and is exactly [0] at [i = N]: in the notebook's own
    arithmetic (binary64, [outer_stepsize0 = 0.1], [N = 10000]), and in
    exact arithmetic for every non-negative initial rate and every [N > 0]. *)
Theorem outer_stepsize_non_increasing_and_zero_at_end :
  (∀ i j : nat, (i ≤ j ≤ outer_steps notebook_hyper64)%nat →
     fleb (outer_stepsize notebook_hyper64 j) (outer_stepsize notebook_hyper64 i) = true)
  ∧ outer_stepsize notebook_hyper64 (outer_steps notebook_hyper64) = B64 (S754_zero false)
  ∧ (∀ (h : hyper Qc) (i j : nat),
       (0 ≤ outer_stepsize0 h)%Qc → (i ≤ j ≤ outer_steps h)%nat →
       (outer_stepsize h j ≤ outer_stepsize h i)%Qc)
  ∧ (∀ h : hyper Qc,
       outer_steps h ≠ 0%nat → outer_stepsize h (outer_steps h) = 0%Qc).
Proof.
  split; [exact notebook_schedule_antitone|].
  split; [vm_compute; reflexivity|].
  split; [|exact Qc_schedule_end].
  intros h i j Hrate [Hij _]. apply Qc_schedule_antitone; assumption.
Qed.

Lemma outer_stepsize_non_increasing_and_zero_at_end_witness :
  fleb (outer_stepsize notebook_hyper64 7) (outer_stepsize notebook_hyper64 3) = true
  ∧ (outer_stepsize notebook_hyperQ 7 ≤ outer_stepsize notebook_hyperQ 3)%Qc
  ∧ outer_stepsize notebook_hyperQ (outer_steps notebook_hyperQ) = 0%Qc.
Proof.
  destruct outer_stepsize_non_increasing_and_zero_at_end as (H64 & _ & HQ & HQend).
  split; [|split].
  - apply (H64 3%nat 7%nat). split; apply Nat.leb_le; vm_compute; reflexivity.
  - apply (HQ notebook_hyperQ 3%nat 7%nat).
    + vm_compute. intros H. discriminate H.
    + split; apply Nat.leb_le; vm_compute; reflexivity.
  - apply (HQend notebook_hyperQ). intros H. apply (f_equal (Nat.eqb 0)) in H.
    vm_compute in H. discriminate H.
Defined.

(** ** 12. The endpoints of the interpolation *)

(** The notebook's float32 interpolation with step size [1.0] on the
    parameters [0.3, -0.07] moving to [-0.07, 0.3]: the first element
    comes out one unit in the last place away from [-0.07]. *)
Example interpolate_one_float32 :
  load_interpolation (of_int 1 : binary64) (Detached test_weights32) Live
    test_weights32' !! "0.weight" =
    Some [B32 (S754_finite true 9395240 (-27)); B32 (S754_finite false 10066330 (-25))]
  ∧ test_weights32' !! "0.weight" =
    Some [B32 (S754_finite true 9395241 (-27)); B32 (S754_finite false 10066330 (-25))].
Proof. split; vm_compute; reflexivity. Qed.

(** C4, as stated, fails on float32 tensors: with step size [1] the
    meta-update of a model holding [W_after = {-0.07, 0.3, ...}], from the
    snapshot [W_before = {0.3, -0.07, ...}], does not leave [W_after]. *)
Lemma interpolation_not_exact_at_one_in_float32 :
  ¬ (load_interpolation (of_int 0 : binary64)
       (Detached test_weights32) Live test_weights32' = test_weights32
     ∧ load_interpolation (of_int 1 : binary64)
         (Detached test_weights32) Live test_weights32' = test_weights32').
Proof.
  intros [_ Hone].
  apply (f_equal (λ W, W !! "0.weight")) in Hone.
  vm_compute in Hone. discriminate Hone.
Qed.

Lemma binary32_interpolate_zero_mapping (Wb Wa : gmap string (list binary32)) :
  same_shape Wb Wa →
  all_elements (λ x, regular (b32 x) = true) Wb →
  all_elements (λ d, is_finite (b32 d) = true) (map_zip_with tsub Wa Wb) →
  interpolate Wb Wa (of_int 0 : binary64) = Wb.
Proof.
  intros Hshape Hreg Hfin. apply interpolate_left. intros name.
  pose proof (same_shape_lookup _ _ name Hshape) as Hname.
  specialize (Hreg name). specialize (Hfin name).
  rewrite map_lookup_zip_with in Hfin.
  destruct Hname as [wb wa Hlen|]; constructor.
  specialize (Hreg wb eq_refl). specialize (Hfin (tsub wa wb) eq_refl).
  cbv beta in Hreg, Hfin. clear name.
  revert wa Hlen Hfin. induction Hreg as [|b wb Hb _ IH]; intros [|a wa] Hlen Hfin;
    try discriminate; [apply List.Forall2_nil|].
  unfold tsub in Hfin. simpl in Hfin. apply Forall_cons in Hfin as [Hd Hfin].
  apply List.Forall2_cons.
  - apply binary32_interpolate_zero; assumption.
  - apply IH; [simpl in Hlen; congruence | exact Hfin].
Qed.

(** C4, amended.  In exact arithmetic the meta-update is exact at both
    endpoints, for two mappings of one model: step size [0] returns
    [W_before] and step size [1] returns [W_after].  On the notebook's
    float32 tensors the endpoint [0] is still exact, for finite parameters
    whose difference does not overflow; the endpoint [1] returns
    [W_before + (W_after - W_before)] as rounded by float32, which need not
    be [W_after]. *)
Theorem interpolation_endpoints :
  (∀ Wb Wa : gmap string (list Qc), same_shape Wb Wa →
     load_interpolation (of_int 0 : Qc) (Detached Wb) Live Wa = Wb
     ∧ load_interpolation (of_int 1 : Qc) (Detached Wb) Live Wa = Wa)
  ∧
  (∀ Wb Wa : gmap string (list binary32), same_shape Wb Wa →
     all_elements (λ x, regular (b32 x) = true) Wb →
     all_elements (λ d, is_finite (b32 d) = true) (map_zip_with tsub Wa Wb) →
     load_interpolation (of_int 0 : binary64) (Detached Wb) Live Wa = Wb).
Proof.
  split.
  - intros Wb Wa Hshape.
    rewrite !load_interpolation_detached by (apply same_shape_dom, Hshape).
    split.
    + apply interpolate_left, same_shape_Forall2; [exact Hshape|].
      intros b a. apply Qc_interpolate_zero.
    + apply interpolate_right, same_shape_Forall2; [exact Hshape|].
      intros b a. apply Qc_interpolate_one.
  - intros Wb Wa Hshape Hreg Hfin.
    rewrite load_interpolation_detached by (apply same_shape_dom, Hshape).
    apply binary32_interpolate_zero_mapping; assumption.
Qed.

Lemma interpolation_endpoints_witness :
  (load_interpolation (of_int 0 : Qc) (Detached test_weightsQ) Live test_weightsQ'
     = test_weightsQ
   ∧ load_interpolation (of_int 1 : Qc) (Detached test_weightsQ) Live test_weightsQ'
     = test_weightsQ')
  ∧ load_interpolation (of_int 0 : binary64) (Detached test_weights32) Live
      test_weights32' = test_weights32.
Proof.
  destruct interpolation_endpoints as [HQ H32]. split.
  - apply (HQ test_weightsQ test_weightsQ'). vm_compute. reflexivity.
  - apply (H32 test_weights32 test_weights32').
    + vm_compute. reflexivity.
    + unfold all_elements. apply (bool_decide_unpack _). vm_compute. exact I.
    + unfold all_elements. apply (bool_decide_unpack _). vm_compute. exact I.
Defined.

(** ** 13. Zero inner epochs *)

(** C5.  With [inner_epochs = 0] an outer iteration performs no inner
    training step, whatever task is sampled (the random generator is
    arbitrary, so the task of phase 0 and amplitude 3 is covered): the
    adapted model is the model, the parameters after the meta-update are the
    initial ones, and the predictions on every input are unchanged.  This
    holds in exact arithmetic for every hyperparameter choice, and in the
    notebook's arithmetic (float32 parameters, the notebook's schedule in
    binary64) for parameters that are finite and not [-0.0]. *)
Theorem zero_inner_epochs_leave_model_unchanged :
  (∀ (E : Externals Qc Qc) (h : hyper Qc) (pd : plot_data Qc) (i : nat) (w : world),
     inner_epochs h = 0%nat →
     model (adapt h w) = model w
     ∧ model (reptile_iteration h pd i w) = model w
     ∧ ∀ x, predict_using_current_model (model (reptile_iteration h pd i w)) x =
            predict_using_current_model (model w) x)
  ∧
  (∀ (E : Externals binary64 binary32) (pd : plot_data binary64) (i : nat) (w : world),
     (i < outer_steps zero_epoch_hyper)%nat →
     all_elements (λ x, regular (b32 x) = true) (model w) →
     model (adapt zero_epoch_hyper w) = model w
     ∧ model (reptile_iteration zero_epoch_hyper pd i w) = model w
     ∧ ∀ x, predict_using_current_model
              (model (reptile_iteration zero_epoch_hyper pd i w)) x =
            predict_using_current_model (model w) x).
Proof.
  split.
  - intros E h pd i w Hzero.
    assert (model (reptile_iteration h pd i w) = model w) as Hsame.
    { apply reptile_iteration_zero_epochs; [exact Hzero|].
      intros name tensor _. apply Forall_forall. intros x _.
      apply Qc_interpolate_self. }
    split; [apply adapt_zero_epochs, Hzero|]. split; [exact Hsame|].
    intros x. rewrite Hsame. reflexivity.
  - intros E pd i w Hi Hreg.
    assert (model (reptile_iteration zero_epoch_hyper pd i w) = model w) as Hsame.
    { apply reptile_iteration_zero_epochs; [reflexivity|].
      intros name tensor Hname. specialize (Hreg name tensor Hname).
      cbv beta in Hreg. eapply Forall_impl; [exact Hreg|].
      intros x Hx. apply binary32_interpolate_self; [exact Hx|].
      apply notebook_schedule_finite. exact Hi. }
    split; [apply adapt_zero_epochs; reflexivity|]. split; [exact Hsame|].
    intros x. rewrite Hsame. reflexivity.
Qed.

Lemma zero_inner_epochs_leave_model_unchanged_witness :
  model (reptile_iteration (Externals0 := test_externals) zero_epoch_hyper test_plot_data 0
           (World (Externals0 := test_externals) test_weightsQ 0%nat)) = test_weightsQ
  ∧ model (reptile_iteration (Externals0 := test_externals) zero_epoch_hyper test_plot_data 0
             (World (Externals0 := test_externals) test_weights32 0%nat)) = test_weights32.
Proof.
  destruct zero_inner_epochs_leave_model_unchanged as [HQ H32]. split.
  - apply (HQ test_externals zero_epoch_hyper test_plot_data 0%nat
              (World (Externals0 := test_externals) test_weightsQ 0%nat)).
    reflexivity.
  - apply (H32 test_externals test_plot_data 0%nat
               (World (Externals0 := test_externals) test_weights32 0%nat)).
    + apply Nat.ltb_lt. vm_compute. reflexivity.
    + unfold all_elements. apply (bool_decide_unpack _). vm_compute. exact I.
Defined.

(** ** 14. The loop on the test environment *)

(** The first task sampled by the test generator has phase 0 and
    amplitude 3. *)
Example gen_task_test :
  gen_task (Externals0 := test_externals (F := Qc) (T := Qc)) 0%nat
  = (Task (Qc_of_Z 0) (Qc_of_Z 2 + Qc_of_Z 1)%Qc, 2%nat).
Proof. reflexivity. Qed.

(** The 32 SGD steps of the evaluation branch do move the parameters ... *)
Example evaluation_steps_change_the_model :
  Nat.iter 32
    (λ m, train_current_model_on_batch (Externals0 := test_externals)
            notebook_hyperQ m (xtrain_plot test_plot_data)
            (f_randomsine (Externals0 := test_externals (T := Qc))
               (f_plot test_plot_data) <$> xtrain_plot test_plot_data))
    test_weightsQ ≠ test_weightsQ.
Proof.
  intros Heq. apply (f_equal (λ W, fmap (M := list) this <$> W !! "0.bias")) in Heq.
  vm_compute in Heq. discriminate Heq.
Qed.

(** ... and restoring through an alias of the live parameters instead of a
    copy would keep the moved parameters. *)
Lemma restore_from_alias {T : Type} (m' : gmap string (list T)) :
  load_state_dict m' (deref m' state_dict) = m'.
Proof. apply load_state_dict_same_dom. reflexivity. Qed.

(** The first and the last step sizes of the notebook, in binary64:
    [0.1] and [0.1 * (1 - 9999/10000) = 9.9999999999989e-06]. *)
Example notebook_first_and_last_step :
  outer_stepsize notebook_hyper64 0 = B64 (S754_finite false 7205759403792794 (-56))
  ∧ outer_stepsize notebook_hyper64 9999 = B64 (S754_finite false 5902958103586407 (-69)).
Proof. split; vm_compute; reflexivity. Qed.

(** ** 15. Reshaping and spatial permutations *)

Section Reshape.
Context {T : Type} `{!Arith T}.
Implicit Types (rows : list (list T)) (flat : list T).

Lemma length_concat_uniform rows (n : nat) :
  Forall (λ row, length row = n) rows → length (concat rows) = (length rows * n)%nat.
Proof.
  induction 1 as [|row rows Hrow _ IH]; [reflexivity|].
  simpl. rewrite length_app, Hrow, IH. reflexivity.
Qed.

Lemma take_drop_concat_uniform rows (n r : nat) :
  Forall (λ row, length row = n) rows →
  (r < length rows)%nat →
  Some (take n (drop (r * n) (concat rows))) = rows !! r.
Proof.
  intros Hrows. revert r. induction Hrows as [|row rows Hrow _ IH]; intros r Hr.
  - simpl in Hr. lia.
  - change (concat (row :: rows)) with (row ++ concat rows).
    destruct r as [|r].
    + change (0 * n)%nat with 0%nat. rewrite drop_0.
      rewrite take_app_length' by (symmetry; exact Hrow). reflexivity.
    + change (S r * n)%nat with (n + r * n)%nat.
      rewrite <- drop_drop, drop_app_length' by (symmetry; exact Hrow).
      apply IH. simpl in Hr. lia.
Qed.

(** Cutting the concatenation of rows of [n > 0] elements gives the rows
    back. *)
Lemma tf_reshape_concat rows (n : nat) :
  (0 < n)%nat → Forall (λ row, length row = n) rows →
  tf_reshape (concat rows) n = rows.
Proof.
  intros Hn Hrows. unfold tf_reshape.
  rewrite (length_concat_uniform _ n Hrows), Nat.div_mul by lia.
  apply list_eq. intros r. rewrite list_lookup_fmap.
  destruct (decide (r < length rows)%nat) as [Hr|Hr].
  - rewrite lookup_seq_lt by exact Hr. simpl.
    apply take_drop_concat_uniform; assumption.
  - rewrite lookup_seq_ge, lookup_ge_None_2 by lia. reflexivity.
Qed.

Lemma tf_reshape_length flat (n : nat) :
  length (tf_reshape flat n) = (length flat / n)%nat.
Proof. unfold tf_reshape. rewrite length_fmap, length_seq. reflexivity. Qed.

Lemma tf_reshape_rows flat (n : nat) :
  Forall (λ row, length row = n) (tf_reshape flat n).
Proof.
  unfold tf_reshape. apply Forall_fmap, Forall_forall. intros r Hr. simpl.
  apply elem_of_seq in Hr as [_ Hr]. simpl in Hr.
  destruct n as [|n]; [reflexivity|].
  rewrite length_take, length_drop.
  pose proof (Nat.Div0.mul_div_le (length flat) (S n)) as Hle.
  assert ((r + 1) * S n ≤ length flat / S n * S n)%nat
    by (apply Nat.mul_le_mono_r; lia).
  lia.
Qed.

(** The indices of the pixel vectors read by [permute_spatial]. *)
Lemma block_indices (B hw : nat) :
  (b ← seq 0 B; (λ k, b * hw + k)%nat <$> seq 0 hw) = seq 0 (B * hw).
Proof.
  induction B as [|B IH]; [reflexivity|].
  rewrite seq_S, bind_app, IH. cbn [mbind list_bind]. rewrite app_nil_r.
  change (0 + B)%nat with B.
  change (λ k : nat, (B * hw + k)%nat) with (Nat.add (B * hw)).
  rewrite (fmap_add_seq (B * hw) 0 hw), Nat.add_0_r.
  change (S B * hw)%nat with (hw + B * hw)%nat.
  rewrite (Nat.add_comm hw), seq_app. reflexivity.
Qed.

Lemma fmap_lookup_seq {A} (d : A) (l : list A) :
  (λ i, default d (l !! i)) <$> seq 0 (length l) = l.
Proof.
  apply list_eq. intros i. rewrite list_lookup_fmap.
  destruct (decide (i < length l)%nat) as [Hi|Hi].
  - rewrite lookup_seq_lt by exact Hi. simpl.
    destruct (lookup_lt_is_Some_2 l i Hi) as [x Hx]. rewrite Hx. reflexivity.
  - rewrite lookup_seq_ge, lookup_ge_None_2 by lia. reflexivity.
Qed.

Lemma permuted_block_indices (σ : list nat) (B hw : nat) :
  σ ≡ₚ seq 0 hw →
  (b ← seq 0 B; (λ k, b * hw + k)%nat <$> σ) ≡ₚ seq 0 (B * hw).
Proof.
  intros Hσ. rewrite <- block_indices.
  induction (seq 0 B) as [|b bs IH]; [reflexivity|].
  simpl. rewrite IH, Hσ. reflexivity.
Qed.

Lemma permute_spatial_pixels (σ : list nat) (t : tensor4 T) :
  data (permute_spatial σ t) =
    concat ((λ i, default [] (tf_reshape (data t) (dim3 t) !! i)) <$>
            (b ← seq 0 (dim0 t); (λ k, b * (dim1 t * dim2 t) + k)%nat <$> σ)).
Proof.
  unfold permute_spatial. simpl. f_equal.
  induction (seq 0 (dim0 t)) as [|b bs IH]; [reflexivity|].
  rewrite !bind_cons, fmap_app, <- IH, <- list_fmap_compose. reflexivity.
Qed.

(** The rows of a spatially permuted activation are a permutation of the
    rows of the activation. *)
Lemma tf_reshape_permute_spatial (σ : list nat) (t : tensor4 T) :
  wf_tensor4 t → (0 < dim3 t)%nat →
  σ ≡ₚ seq 0 (dim1 t * dim2 t) →
  tf_reshape (data (permute_spatial σ t)) (dim3 t) ≡ₚ tf_reshape (data t) (dim3 t).
Proof.
  intros Hwf HC Hσ. rewrite permute_spatial_pixels.
  set (px := tf_reshape (data t) (dim3 t)).
  assert (length px = (dim0 t * (dim1 t * dim2 t))%nat) as Hlen.
  { unfold px. rewrite tf_reshape_length, Hwf.
    rewrite <- !Nat.mul_assoc, (Nat.mul_assoc (dim0 t)), Nat.mul_assoc.
    rewrite Nat.div_mul by lia. lia. }
  pose proof (permuted_block_indices σ (dim0 t) _ Hσ) as Hidx.
  rewrite tf_reshape_concat.
  - rewrite Hidx, <- Hlen. rewrite fmap_lookup_seq. reflexivity.
  - exact HC.
  - apply Forall_fmap, Forall_forall. intros i Hi. simpl.
    rewrite Hidx in Hi. apply elem_of_seq in Hi as [_ Hi].
    rewrite <- Hlen in Hi. simpl in Hi.
    destruct (lookup_lt_is_Some_2 px i Hi) as [row Hrow]. rewrite Hrow. simpl.
    pose proof (tf_reshape_rows (data t) (dim3 t)) as Hrows.
    rewrite Forall_forall in Hrows. apply Hrows.
    apply list_elem_of_lookup. exists i. exact Hrow.
Qed.
End Reshape.

(** ** 16. The Gram matrix *)

Section Gram.
Context {T : Type} `{!Arith T}.
Implicit Types (rows : list (list T)) (row u v : list T).

Lemma tf_transpose_columns (n : nat) rows :
  tf_transpose n rows = (λ j, component j <$> rows) <$> seq 0 n.
Proof. reflexivity. Qed.

Lemma dot_columns (i j : nat) rows :
  dot (component i <$> rows) (component j <$> rows) =
    reduce_sum ((λ row, component i row * component j row)%num <$> rows).
Proof.
  unfold dot. f_equal.
  rewrite zip_with_fmap_l, zip_with_fmap_r, zip_with_diag. reflexivity.
Qed.

(** Entry [(i, j)] of [tf_matmul n (tf_transpose n rows) rows] is the sum
    over the rows of the products of components [i] and [j]. *)
Lemma gram_entries (n : nat) rows :
  tf_matmul n (tf_transpose n rows) rows =
    (λ i, (λ j, reduce_sum ((λ row, component i row * component j row)%num <$> rows))
            <$> seq 0 n) <$> seq 0 n.
Proof.
  unfold tf_matmul. rewrite tf_transpose_columns, <- list_fmap_compose.
  apply list_fmap_ext. intros _ i _. simpl.
  rewrite <- list_fmap_compose. apply list_fmap_ext. intros _ j _. simpl.
  apply dot_columns.
Qed.

Section ExactAddition.
Hypothesis fadd_comm : ∀ x y : T, (x + y = y + x)%num.
Hypothesis fadd_assoc : ∀ x y z : T, (x + (y + z) = (x + y) + z)%num.

Lemma reduce_sum_Permutation (l l' : list T) :
  l ≡ₚ l' → reduce_sum l = reduce_sum l'.
Proof.
  induction 1 as [|x l l' _ IH|x y l|l l' l'' _ IH1 _ IH2]; simpl.
  - reflexivity.
  - rewrite IH. reflexivity.
  - rewrite !fadd_assoc, (fadd_comm y x). reflexivity.
  - rewrite IH1. exact IH2.
Qed.

(** When addition is associative and commutative, the Gram matrix of a
    list of rows does not depend on the order of the rows. *)
Lemma gram_rows_Permutation (n : nat) rows rows' :
  rows ≡ₚ rows' →
  tf_matmul n (tf_transpose n rows) rows = tf_matmul n (tf_transpose n rows') rows'.
Proof.
  intros Hperm. rewrite !gram_entries.
  apply list_fmap_ext. intros _ i _. apply list_fmap_ext. intros _ j _.
  apply reduce_sum_Permutation, fmap_Permutation, Hperm.
Qed.

Lemma gram_matrix_permute_spatial (σ : list nat) (t : tensor4 T) :
  wf_tensor4 t → σ ≡ₚ seq 0 (dim1 t * dim2 t) →
  gram_matrix (permute_spatial σ t) = gram_matrix t.
Proof.
  intros Hwf Hσ. unfold gram_matrix.
  change (dim3 (permute_spatial σ t)) with (dim3 t).
  destruct (dim3 t) as [|C] eqn:HC; [reflexivity|].
  apply gram_rows_Permutation. rewrite <- HC.
  apply tf_reshape_permute_spatial; [exact Hwf | lia | exact Hσ].
Qed.
End ExactAddition.

End Gram.

(** ** 17. Sums of rationals and the quadratic form of a Gram matrix *)

Ltac qc_ops :=
  change (@fadd Qc Qc_arith) with Qcplus in *;
  change (@fsub Qc Qc_arith) with Qcminus in *;
  change (@fmul Qc Qc_arith) with Qcmult in *;
  change (@fdiv Qc Qc_arith) with Qcdiv in *;
  change (@of_int Qc Qc_arith) with Qc_of_Z in *;
  change (@cast Qc Qc Qc_cast) with (λ x : Qc, x) in *;
  cbv beta in *.

(** An optional rational is determined by its reduced fraction. *)
Lemma Some_Qc_eq (o : option Qc) (q : Qc) :
  this <$> o = Some (this q) → o = Some q.
Proof.
  destruct o as [q'|]; simpl; [|discriminate].
  intros Heq. f_equal. apply Qc_is_canon. injection Heq as ->. reflexivity.
Qed.

Section QcSums.
Local Open Scope Qc_scope.
Implicit Types (l : list Qc).

Lemma reduce_sum_nil : reduce_sum (T := Qc) [] = 0.
Proof. unfold reduce_sum. simpl. apply Z2Qc_inj_0. Qed.

Lemma reduce_sum_cons (x : Qc) l : reduce_sum (x :: l) = x + reduce_sum l.
Proof. reflexivity. Qed.





Lemma reduce_sum_nonneg l : Forall (λ x, 0 ≤ x) l → 0 ≤ reduce_sum l.
Proof.
  induction 1 as [|x l Hx _ IH].
  - rewrite reduce_sum_nil. apply Qcle_refl.
  - rewrite reduce_sum_cons. apply Qcplus_nonneg_nonneg; assumption.
Qed.

Lemma Qc_square_nonneg (x : Qc) : 0 ≤ x * x.
Proof.
  destruct (Qclt_le_dec x 0) as [Hneg|Hpos].
  - replace (x * x) with ((- x) * (- x)) by ring.
    assert (0 ≤ - x) as Hx.
    { apply Qclt_le_weak in Hneg. apply Qcopp_le_compat in Hneg.
      replace (- 0) with 0 in Hneg by ring. exact Hneg. }
    apply Qcmult_nonneg_nonneg; exact Hx.
  - apply Qcmult_nonneg_nonneg; exact Hpos.
Qed.


End QcSums.

(** ** 18. What [permute_spatial] does to the elements *)

Section PermuteSpatial.
Context {T : Type} `{!Arith T}.

Lemma lookup_concat_uniform {A} (rows : list (list A)) (n p c : nat) :
  Forall (λ row, length row = n) rows → (c < n)%nat →
  concat rows !! (p * n + c)%nat = (row ← rows !! p; row !! c).
Proof.
  intros Hrows Hc. revert p.
  induction Hrows as [|row rows Hrow _ IH]; intros p.
  - rewrite lookup_nil. reflexivity.
  - change (concat (row :: rows)) with (row ++ concat rows).
    destruct p as [|p].
    + change (0 * n + c)%nat with c. rewrite lookup_app_l by lia. reflexivity.
    + rewrite lookup_app_r by (rewrite Hrow; lia).
      replace (S p * n + c - length row)%nat with (p * n + c)%nat
        by (rewrite Hrow; lia).
      apply IH.
Qed.

Lemma bind_concat_fmap {A B} (g : A → list B) (l : list A) :
  l ≫= g = concat (g <$> l).
Proof.
  induction l as [|x l IH]; [reflexivity|].
  rewrite bind_cons, fmap_cons, IH. reflexivity.
Qed.

Lemma lookup_block_indices (σ : list nat) (B hw b q : nat) :
  length σ = hw → (b < B)%nat → (q < hw)%nat →
  (b' ← seq 0 B; (λ k, b' * hw + k)%nat <$> σ) !! (b * hw + q)%nat =
    (λ k, b * hw + k)%nat <$> σ !! q.
Proof.
  intros Hσ Hb Hq. rewrite bind_concat_fmap.
  rewrite (lookup_concat_uniform _ hw); [| |exact Hq].
  - rewrite list_lookup_fmap, lookup_seq_lt by exact Hb. simpl.
    apply list_lookup_fmap.
  - apply Forall_fmap, Forall_forall. intros b' _. simpl.
    rewrite length_fmap. exact Hσ.
Qed.

(** Element [(b, h, w, c)] of the permuted activation is element
    [(b, h', w', c)] of the activation, where [(h', w')] is the spatial
    position that [σ] assigns to [(h, w)]: the same for every channel. *)
Lemma get4_permute_spatial (σ : list nat) (t : tensor4 T) (b h w c : nat) :
  wf_tensor4 t → σ ≡ₚ seq 0 (dim1 t * dim2 t) →
  (b < dim0 t)%nat → (h < dim1 t)%nat → (w < dim2 t)%nat → (c < dim3 t)%nat →
  get4 (permute_spatial σ t) b h w c =
    (k ← σ !! (h * dim2 t + w)%nat; get4 t b (k / dim2 t) (k mod dim2 t) c).
Proof.
  intros Hwf Hσ Hb Hh Hw Hc.
  set (H := dim1 t) in *. set (W := dim2 t) in *. set (C := dim3 t) in *.
  assert (length σ = (H * W)%nat) as Hlen
    by (rewrite Hσ; apply length_seq).
  assert (h * W + w < H * W)%nat as Hq by nia.
  destruct (lookup_lt_is_Some_2 σ (h * W + w)%nat) as [k Hk]; [lia|].
  assert (k < H * W)%nat as Hklt.
  { assert (k ∈ seq 0 (H * W)) as Hin
      by (rewrite <- Hσ; apply list_elem_of_lookup; eauto).
    apply elem_of_seq in Hin. lia. }
  rewrite Hk. cbn [mbind option_bind].
  unfold get4. rewrite permute_spatial_pixels. fold H W C.
  change (dim1 (permute_spatial σ t)) with H.
  change (dim2 (permute_spatial σ t)) with W.
  change (dim3 (permute_spatial σ t)) with C.
  set (px := tf_reshape (data t) C).
  assert (length px = (dim0 t * (H * W))%nat) as Hpx.
  { unfold px. rewrite tf_reshape_length, Hwf. fold H W C.
    replace (dim0 t * H * W * C)%nat with (dim0 t * (H * W) * C)%nat by lia.
    apply Nat.div_mul. lia. }
  assert (px !! (b * (H * W) + k)%nat =
          Some (take C (drop ((b * (H * W) + k) * C) (data t)))) as Hrow.
  { unfold px, tf_reshape. rewrite list_lookup_fmap, lookup_seq_lt; [reflexivity|].
    change (length (data t) / C)%nat with (length (data t) / dim3 t)%nat.
    rewrite <- tf_reshape_length. fold C px. rewrite Hpx. nia. }
  replace (((b * H + h) * W + w) * C + c)%nat
    with ((b * (H * W) + (h * W + w)) * C + c)%nat by lia.
  rewrite (lookup_concat_uniform _ C); [|  |exact Hc].
  - rewrite list_lookup_fmap, lookup_block_indices by assumption.
    rewrite Hk. simpl. rewrite Hrow. simpl.
    rewrite lookup_take_lt by exact Hc. rewrite lookup_drop. f_equal.
    pose proof (Nat.div_mod_eq k W) as Hdiv. nia.
  - apply Forall_fmap, Forall_forall. intros i Hi. simpl.
    rewrite (permuted_block_indices σ (dim0 t) _ Hσ) in Hi.
    apply elem_of_seq in Hi as [_ Hi]. rewrite <- Hpx in Hi. simpl in Hi.
    destruct (lookup_lt_is_Some_2 px i Hi) as [row Hi']. rewrite Hi'. simpl.
    pose proof (tf_reshape_rows (data t) C) as Hrows.
    rewrite Forall_forall in Hrows. apply Hrows.
    apply list_elem_of_lookup. exists i. exact Hi'.
Qed.
End PermuteSpatial.

(** ** 19. Permutation invariance of the style loss, and the content loss *)

Lemma style_loss_same_gram {F T : Type} `{!Arith F, !Arith T, !Cast F T}
    (S X S' X' : gmap string (tensor4 T)) (layer : string) :
  option_Forall2 (λ s s', gram_matrix s = gram_matrix s'
                          ∧ dim1 s = dim1 s' ∧ dim2 s = dim2 s' ∧ dim3 s = dim3 s')
    (S !! layer) (S' !! layer) →
  option_Forall2 (λ x x', gram_matrix x = gram_matrix x') (X !! layer) (X' !! layer) →
  style_loss (F := F) S X layer = style_loss (F := F) S' X' layer.
Proof.
  intros HS HX. unfold style_loss.
  destruct HS as [s s' (Hg & H1 & H2 & H3)|]; [|reflexivity].
  destruct HX as [x x' Hx|]; [|reflexivity].
  simpl. rewrite Hg, Hx, H1, H2, H3. reflexivity.
Qed.

(** C6.  In exact arithmetic, [gram_matrix] returns the same matrix for an
    activation and for the activation with its spatial positions permuted
    (the same permutation in every channel), and so [style_loss] returns the
    same value whether the permuted activation is the candidate's or the
    style image's. *)
Theorem gram_matrix_invariant_under_spatial_permutation
    (t : tensor4 Qc) (σ : list nat) :
  wf_tensor4 t → σ ≡ₚ seq 0 (dim1 t * dim2 t) →
  gram_matrix (permute_spatial σ t) = gram_matrix t
  ∧ (∀ (S X : gmap string (tensor4 Qc)) (layer : string),
       X !! layer = Some t →
       style_loss (F := Qc) S (<[layer := permute_spatial σ t]> X) layer =
       style_loss (F := Qc) S X layer)
  ∧ (∀ (S X : gmap string (tensor4 Qc)) (layer : string),
       S !! layer = Some t →
       style_loss (F := Qc) (<[layer := permute_spatial σ t]> S) X layer =
       style_loss (F := Qc) S X layer).
Proof.
  intros Hwf Hσ.
  assert (gram_matrix (permute_spatial σ t) = gram_matrix t) as Hgram.
  { apply gram_matrix_permute_spatial; [apply Qcplus_comm | apply Qcplus_assoc | | ];
      assumption. }
  split; [exact Hgram|]. split.
  - intros S X layer HX. apply style_loss_same_gram.
    + destruct (S !! layer); constructor. repeat split; reflexivity.
    + rewrite lookup_insert_eq, HX. constructor. exact Hgram.
  - intros S X layer HS. apply style_loss_same_gram.
    + rewrite lookup_insert_eq, HS. constructor. repeat split; [exact Hgram|..]; reflexivity.
    + destruct (X !! layer); constructor. reflexivity.
Qed.

Lemma gram_matrix_invariant_under_spatial_permutation_witness :
  gram_matrix (permute_spatial test_permutation (test_activation (T := Qc))) =
  gram_matrix (test_activation (T := Qc)).
Proof.
  apply (gram_matrix_invariant_under_spatial_permutation test_activation test_permutation).
  - reflexivity.
  - apply (bool_decide_unpack _). vm_compute. exact I.
Defined.

(** In float32 the sum of [2^24], [1] and [1] depends on the order of the
    additions: adding the two [1] first gives [2^24 + 2], adding a [1] to
    [2^24] first loses it.  Whichever two of three positions a summation
    adds first, the arrangement that holds the two [1] there and any other
    arrangement give different sums. *)
Example float32_sum_of_three_depends_on_the_order :
  let big : binary32 := of_int 16777216 in
  let one : binary32 := of_int 1 in
  ((one + one) + big = of_int 16777218 ∧ big + (one + one) = of_int 16777218)%num
  ∧ ((big + one) + one = big ∧ (one + big) + one = big
     ∧ one + (big + one) = big ∧ one + (one + big) = big)%num.
Proof. vm_compute. repeat split; reflexivity. Qed.

(** C6, as stated, fails on float32 tensors: for the activation holding
    4096, 1 and 1 at its three positions, rotating the positions changes
    the Gram matrix from [2^24 + 2] to [2^24], and the style loss against
    the unpermuted activation from 0 to a positive number. *)
Lemma gram_matrix_not_invariant_in_float32 :
  let t := large_and_small32 in
  let S : gmap string (tensor4 binary32) := {[ "Mixed_3b" := t ]} in
  wf_tensor4 t
  ∧ rotation3 ≡ₚ seq 0 (dim1 t * dim2 t)
  ∧ gram_matrix t = [[of_int 16777218]]
  ∧ gram_matrix (permute_spatial rotation3 t) = [[of_int 16777216]]
  ∧ gram_matrix (permute_spatial rotation3 t) ≠ gram_matrix t
  ∧ style_loss (F := binary64) S S "Mixed_3b" = Some (of_int 0)
  ∧ style_loss (F := binary64) S (<["Mixed_3b" := permute_spatial rotation3 t]> S) "Mixed_3b"
      = Some (B32 (S754_finite false 14913081 (-27)))
  ∧ style_loss (F := binary64) S (<["Mixed_3b" := permute_spatial rotation3 t]> S) "Mixed_3b"
      ≠ style_loss (F := binary64) S S "Mixed_3b".
Proof.
  cbv zeta.
  split; [reflexivity|].
  split; [apply (bool_decide_unpack _); vm_compute; exact I|].
  split; [vm_compute; reflexivity|].
  split; [vm_compute; reflexivity|].
  split; [vm_compute; discriminate|].
  split; [vm_compute; reflexivity|].
  split; [vm_compute; reflexivity|].
  vm_compute. discriminate.
Qed.

(** The content loss of the notebook on the activations [[3]] and [[1]] is
    [2], half of their mean squared error [4]. *)
Example content_loss_value :
  content_loss (F := Qc) (test_features 1) (test_features 3) "Mixed_4b" = Some (Qc_of_Z 2)
  ∧ mean_squared_error [Qc_of_Z 3] [Qc_of_Z 1] = Qc_of_Z 4.
Proof.
  split.
  - apply Some_Qc_eq. vm_compute. reflexivity.
  - apply Qc_is_canon. vm_compute. reflexivity.
Qed.

(** C7, as stated, fails: [content_loss] is not the mean squared error,
    neither in exact arithmetic nor in float32. *)
Lemma content_loss_is_not_the_mean_squared_error :
  content_loss (F := Qc) (test_features 1) (test_features 3) "Mixed_4b" ≠
    Some (mean_squared_error [Qc_of_Z 3] [Qc_of_Z 1])
  ∧ content_loss (F := binary64) (T := binary32)
      (test_features 1) (test_features 3) "Mixed_4b" ≠
    Some (mean_squared_error [of_int 3] [of_int 1]).
Proof.
  split; intros Heq; vm_compute in Heq; discriminate Heq.
Qed.

(** C7, amended.  [content_loss] returns one half of the mean squared
    error between the current image's content-layer activations and the
    captured activations of the photo. *)
Theorem content_loss_is_half_the_mean_squared_error
    {F T : Type} `{!Arith F, !Arith T, !Cast F T}
    (P X : gmap string (tensor4 T)) (layer : string) (p x : tensor4 T) :
  P !! layer = Some p → X !! layer = Some x →
  content_loss (F := F) P X layer =
    Some (cast (of_int 1 / of_int 2 : F)%num * mean_squared_error (data x) (data p))%num.
Proof.
  intros HP HX. unfold content_loss. rewrite HP, HX. reflexivity.
Qed.

Lemma content_loss_is_half_the_mean_squared_error_witness :
  content_loss (F := Qc) (T := Qc) (test_features 1) (test_features 3) "Mixed_4b" =
    Some (cast ((of_int 1 / of_int 2)%num : Qc)
          * mean_squared_error (data (Tensor4 1 1 1 1 [of_int 3 : Qc]))
                               (data (Tensor4 1 1 1 1 [of_int 1 : Qc])))%num.
Proof.
  apply (content_loss_is_half_the_mean_squared_error (F := Qc) (T := Qc)
           (test_features 1) (test_features 3) "Mixed_4b");
    vm_compute; reflexivity.
Defined.

(** ** 20. The assembled loss *)

Section Capture.
Context {T : Type}.

(** [capture] succeeds when every requested layer is an end point, and
    then holds exactly the requested layers. *)
Lemma capture_all_layers (end_points : gmap string (tensor4 T))
    (l0 l1 l2 l3 l4 : tensor4 T) :
  end_points !! "Mixed_4b" = Some l0 →
  end_points !! "Conv2d_1a_7x7" = Some l1 →
  end_points !! "Conv2d_2c_3x3" = Some l2 →
  end_points !! "Mixed_3b" = Some l3 →
  end_points !! "Mixed_4d" = Some l4 →
  capture all_layers end_points =
    Some (list_to_map [ ("Mixed_4b", l0); ("Conv2d_1a_7x7", l1);
                        ("Conv2d_2c_3x3", l2); ("Mixed_3b", l3); ("Mixed_4d", l4) ]).
Proof.
  intros H0 H1 H2 H3 H4. unfold capture.
  erewrite (proj2 (mapM_Some _ all_layers _)); [reflexivity|].
  unfold all_layers, photo_layers, style_layers. simpl app.
  repeat apply List.Forall2_cons; try apply List.Forall2_nil.
  - rewrite H0. reflexivity.
  - rewrite H1. reflexivity.
  - rewrite H2. reflexivity.
  - rewrite H3. reflexivity.
  - rewrite H4. reflexivity.
Qed.
End Capture.

Lemma loss_weight_values :
  cast (cl * of_int 1)%num = Qc_of_Z 10
  ∧ cast (sl * of_int 1)%num = Qc_of_Z 2000000
  ∧ cast (sl * of_int 10)%num = Qc_of_Z 20000000
  ∧ cast (vp * of_int 1)%num = (Qc_of_Z 1 / Qc_of_Z 100000)%Qc.
Proof. repeat split; apply Qc_is_canon; vm_compute; reflexivity. Qed.

Lemma loss_weights_positive : Forall (λ w, (0 < w)%Qc) loss_weights.
Proof. repeat constructor. Qed.

(** C8.  In exact arithmetic, when the network exposes the five captured
    layers, the total loss is the weighted sum of exactly six terms: the
    content loss on [Mixed_4b] (weight 10), the style losses on
    [Conv2d_1a_7x7], [Conv2d_2c_3x3] (weight 2000000 each), [Mixed_3b] and
    [Mixed_4d] (weight 20000000 each), and the total-variation penalty on
    the pixels (weight 1/100000); every weight is positive. *)
Theorem total_loss_is_weighted_sum_of_six_terms
    (E : TfExternals Qc Qc) (P S : gmap string (tensor4 Qc))
    (image : list (list (list Qc))) :
  (∀ layer, layer ∈ all_layers → is_Some (inception_v1 image !! layer)) →
  is_Some (P !! "Mixed_4b") →
  (∀ layer, layer ∈ style_layers → is_Some (S !! layer)) →
  ∃ (X : gmap string (tensor4 Qc)) (c s1 s2 s3 s4 : Qc),
    capture all_layers (inception_v1 image) = Some X
    ∧ (∀ layer, layer ∈ all_layers → X !! layer = inception_v1 image !! layer)
    ∧ content_loss (F := Qc) P X "Mixed_4b" = Some c
    ∧ style_loss (F := Qc) S X "Conv2d_1a_7x7" = Some s1
    ∧ style_loss (F := Qc) S X "Conv2d_2c_3x3" = Some s2
    ∧ style_loss (F := Qc) S X "Mixed_3b" = Some s3
    ∧ style_loss (F := Qc) S X "Mixed_4d" = Some s4
    ∧ total_loss (F := Qc) P S image =
        Some (Qc_of_Z 10 * c
              + Qc_of_Z 2000000 * s1 + Qc_of_Z 2000000 * s2
              + Qc_of_Z 20000000 * s3 + Qc_of_Z 20000000 * s4
              + Qc_of_Z 1 / Qc_of_Z 100000 * total_variation_loss_lX (F := Qc) image)%Qc
    ∧ Forall (λ w, (0 < w)%Qc) loss_weights.
Proof.
  intros Hnet HP HS.
  destruct (Hnet "Mixed_4b") as [l0 H0]; [set_solver|].
  destruct (Hnet "Conv2d_1a_7x7") as [l1 H1]; [set_solver|].
  destruct (Hnet "Conv2d_2c_3x3") as [l2 H2]; [set_solver|].
  destruct (Hnet "Mixed_3b") as [l3 H3]; [set_solver|].
  destruct (Hnet "Mixed_4d") as [l4 H4]; [set_solver|].
  destruct HP as [p Hp].
  destruct (HS "Conv2d_1a_7x7") as [t1 Ht1]; [set_solver|].
  destruct (HS "Conv2d_2c_3x3") as [t2 Ht2]; [set_solver|].
  destruct (HS "Mixed_3b") as [t3 Ht3]; [set_solver|].
  destruct (HS "Mixed_4d") as [t4 Ht4]; [set_solver|].
  pose proof (capture_all_layers _ _ _ _ _ _ H0 H1 H2 H3 H4) as Hcap.
  set (X := list_to_map _) in Hcap.
  assert (X !! "Mixed_4b" = Some l0) as HX0 by reflexivity.
  assert (X !! "Conv2d_1a_7x7" = Some l1) as HX1 by reflexivity.
  assert (X !! "Conv2d_2c_3x3" = Some l2) as HX2 by reflexivity.
  assert (X !! "Mixed_3b" = Some l3) as HX3 by reflexivity.
  assert (X !! "Mixed_4d" = Some l4) as HX4 by reflexivity.
  assert (∃ c, content_loss (F := Qc) P X "Mixed_4b" = Some c) as [c Hc].
  { unfold content_loss. rewrite Hp, HX0. eauto. }
  assert (∃ s, style_loss (F := Qc) S X "Conv2d_1a_7x7" = Some s) as [s1 Hs1].
  { unfold style_loss. rewrite Ht1, HX1. eauto. }
  assert (∃ s, style_loss (F := Qc) S X "Conv2d_2c_3x3" = Some s) as [s2 Hs2].
  { unfold style_loss. rewrite Ht2, HX2. eauto. }
  assert (∃ s, style_loss (F := Qc) S X "Mixed_3b" = Some s) as [s3 Hs3].
  { unfold style_loss. rewrite Ht3, HX3. eauto. }
  assert (∃ s, style_loss (F := Qc) S X "Mixed_4d" = Some s) as [s4 Hs4].
  { unfold style_loss. rewrite Ht4, HX4. eauto. }
  exists X, c, s1, s2, s3, s4.
  split; [exact Hcap|]. split.
  { intros layer Hlayer. unfold all_layers, photo_layers, style_layers in Hlayer.
    simpl in Hlayer. repeat (apply elem_of_cons in Hlayer as [->|Hlayer]);
      [congruence..|]. apply elem_of_nil in Hlayer. destruct Hlayer. }
  repeat (split; [assumption|]). split; [|exact loss_weights_positive].
  unfold total_loss, losses. rewrite Hcap. cbn [mbind option_bind].
  rewrite Hc, Hs1, Hs2, Hs3, Hs4. cbn [mbind option_bind fmap option_fmap option_map].
  destruct loss_weight_values as (-> & -> & -> & ->).
  f_equal. rewrite !reduce_sum_cons, reduce_sum_nil. qc_ops. ring.
Qed.

Lemma total_loss_is_weighted_sum_of_six_terms_witness :
  ∃ (X : gmap string (tensor4 Qc)) (c s1 s2 s3 s4 : Qc),
    capture all_layers (inception_v1 (TfExternals := test_tf_externals (F := Qc))
                          test_image) = Some X
    ∧ (∀ layer, layer ∈ all_layers →
         X !! layer = inception_v1 (TfExternals := test_tf_externals (F := Qc))
                        test_image !! layer)
    ∧ content_loss (F := Qc) (test_features 1) X "Mixed_4b" = Some c
    ∧ style_loss (F := Qc) (test_features 1) X "Conv2d_1a_7x7" = Some s1
    ∧ style_loss (F := Qc) (test_features 1) X "Conv2d_2c_3x3" = Some s2
    ∧ style_loss (F := Qc) (test_features 1) X "Mixed_3b" = Some s3
    ∧ style_loss (F := Qc) (test_features 1) X "Mixed_4d" = Some s4
    ∧ total_loss (F := Qc) (TfExternals0 := test_tf_externals)
        (test_features 1) (test_features 1) test_image =
        Some (Qc_of_Z 10 * c
              + Qc_of_Z 2000000 * s1 + Qc_of_Z 2000000 * s2
              + Qc_of_Z 20000000 * s3 + Qc_of_Z 20000000 * s4
              + Qc_of_Z 1 / Qc_of_Z 100000
                * total_variation_loss_lX (F := Qc)
                    (TfExternals0 := test_tf_externals) test_image)%Qc
    ∧ Forall (λ w, (0 < w)%Qc) loss_weights.
Proof.
  apply (total_loss_is_weighted_sum_of_six_terms test_tf_externals
           (test_features 1) (test_features 1) test_image).
  - intros layer Hlayer. apply (bool_decide_unpack _).
    revert layer Hlayer. apply Forall_forall. vm_compute.
    repeat constructor.
  - apply (bool_decide_unpack _). vm_compute. exact I.
  - intros layer Hlayer. apply (bool_decide_unpack _).
    revert layer Hlayer. apply Forall_forall. vm_compute.
    repeat constructor.
Defined.

(** The value of the total loss on the test image. *)
Example total_loss_value :
  total_loss (F := Qc) (TfExternals0 := test_tf_externals)
    (test_features 1) (test_features 1) test_image =
  Some (Qc_of_Z 135 / Qc_of_Z 100000)%Qc.
Proof. apply Some_Qc_eq. vm_compute. reflexivity. Qed.

(** ** 21. Shape, symmetry and positivity of the Gram matrix *)


Section GramElements.
Context {T : Type} `{!Arith T}.






End GramElements.




(** The Gram matrix of the test activation. *)
Example gram_matrix_value :
  fmap (M := list) (fmap (M := list) this) (gram_matrix (test_activation (T := Qc))) =
    [ [84 # 1; 100 # 1]; [100 # 1; 120 # 1] ]%Q.
Proof. vm_compute. reflexivity. Qed.

(** ** 22. The Reptile loop as a whole *)

Section LoopFacts.
Context {F T : Type} `{!Arith F, !Arith T, !Cast F T, !Externals F T}.
Implicit Types (m : gmap string (list T)) (h : hyper F) (pd : plot_data F).

Lemma world_eq (w w' : world) :
  model w = model w' → rng_state w = rng_state w' → w = w'.
Proof. destruct w, w'. simpl. intros -> ->. reflexivity. Qed.

Lemma rng_state_reptile_iteration h pd outer_step (w : world) :
  rng_state (reptile_iteration h pd outer_step w) =
    snd (rng_permutation (length x_all) (snd (gen_task (rng_state w)))).
Proof.
  unfold reptile_iteration, adapt.
  destruct (gen_task (rng_state w)) as [f g]. cbn [snd].
  destruct (rng_permutation (length x_all) g) as [inds g']. reflexivity.
Qed.

Lemma reptile_iteration_with_plot b h pd pd' outer_step (w : world) :
  reptile_iteration (with_plot b h) pd' outer_step w =
    reptile_iteration h pd outer_step w.
Proof.
  apply world_eq.
  - rewrite !model_reptile_iteration. reflexivity.
  - rewrite !rng_state_reptile_iteration. reflexivity.
Qed.
End LoopFacts.

(** X1.  Evaluation never changes training: the state of the loop after
    any number of outer iterations (model parameters and random
    generator) is the same whatever the value of [plot] and whatever the
    task and minibatch shown in the plots. *)
Theorem evaluation_does_not_change_training
    {F T : Type} `{!Arith F, !Arith T, !Cast F T, !Externals F T}
    (b : bool) (h : hyper F) (pd pd' : plot_data F) (n : nat) (w : world) :
  reptile_steps (with_plot b h) pd' n w = reptile_steps h pd n w.
Proof.
  induction n as [|n IH]; [reflexivity|].
  rewrite !reptile_steps_S, IH. apply reptile_iteration_with_plot.
Qed.

(** X2.  The tasks sampled by the loop do not depend on the model or on
    the hyperparameters: two runs started from the same state of the
    random generator have the same generator state after the same number
    of outer iterations, whatever their weights, step sizes, epoch counts
    and plot data. *)
Theorem sampled_tasks_do_not_depend_on_the_model
    {F T : Type} `{!Arith F, !Arith T, !Cast F T, !Externals F T}
    (h h' : hyper F) (pd pd' : plot_data F) (n : nat) (w w' : world) :
  rng_state w = rng_state w' →
  rng_state (reptile_steps h pd n w) = rng_state (reptile_steps h' pd' n w').
Proof.
  intros Hrng. induction n as [|n IH]; [exact Hrng|].
  rewrite !reptile_steps_S, !rng_state_reptile_iteration, IH. reflexivity.
Qed.

Lemma sampled_tasks_do_not_depend_on_the_model_witness :
  rng_state (reptile_steps notebook_hyperQ test_plot_data 3
               (World (Externals0 := test_externals) test_weightsQ 0%nat)) =
  rng_state (reptile_steps zero_epoch_hyper test_plot_data 3
               (World (Externals0 := test_externals) test_weightsQ' 0%nat)).
Proof.
  apply (sampled_tasks_do_not_depend_on_the_model
           (Externals0 := test_externals)).
  reflexivity.
Defined.

(** ** 23. Names and shapes of the parameters *)

Section ShapeFacts.
Context {F T : Type} `{!Arith F, !Arith T, !Cast F T, !Externals F T}.
Implicit Types (m : gmap string (list T)) (h : hyper F) (pd : plot_data F).

Lemma same_shape_refl m : same_shape m m.
Proof. reflexivity. Qed.

Lemma same_shape_trans m1 m2 m3 :
  same_shape m1 m2 → same_shape m2 m3 → same_shape m1 m3.
Proof. unfold same_shape. congruence. Qed.

Lemma same_shape_train h m x y :
  gradients_have_parameter_shape →
  same_shape (train_current_model_on_batch h m x y) m.
Proof.
  intros Hgrad. apply map_eq. intros name.
  rewrite !lookup_fmap, lookup_train.
  destruct (m !! name) as [param|] eqn:Hparam; [|reflexivity].
  simpl. f_equal. unfold tsub, tscale.
  rewrite length_zip_with, length_fmap, (Hgrad _ _ _ _ _ Hparam). lia.
Qed.

Lemma same_shape_sgd_epoch h inds y_all m :
  gradients_have_parameter_shape → same_shape (sgd_epoch h inds y_all m) m.
Proof.
  intros Hgrad. unfold sgd_epoch.
  generalize (py_range_step (length x_all) (inner_batchsize h)). intros starts.
  revert m. induction starts as [|start starts IH]; intros m; simpl;
    [reflexivity|].
  eapply same_shape_trans; [apply IH|]. apply same_shape_train, Hgrad.
Qed.

Lemma same_shape_inner_sgd h inds y_all m :
  gradients_have_parameter_shape → same_shape (inner_sgd h inds y_all m) m.
Proof.
  intros Hgrad. unfold inner_sgd.
  induction (inner_epochs h) as [|n IH]; simpl; [reflexivity|].
  eapply same_shape_trans; [|exact IH]. apply same_shape_sgd_epoch, Hgrad.
Qed.

Lemma same_shape_adapt h (w : world) :
  gradients_have_parameter_shape → same_shape (model (adapt h w)) (model w).
Proof.
  intros Hgrad. unfold adapt. destruct (gen_task (rng_state w)) as [f g].
  destruct (rng_permutation (length x_all) g) as [inds g']. simpl.
  apply same_shape_inner_sgd, Hgrad.
Qed.

Lemma same_shape_interpolate (wb wa : gmap string (list T)) (s : F) :
  same_shape wa wb → same_shape (interpolate wb wa s) wb.
Proof.
  intros Hshape. apply map_eq. intros name.
  rewrite !lookup_fmap, lookup_interpolate.
  destruct (same_shape_lookup _ _ name Hshape) as [a b Hlen|]; simpl.
  - f_equal. unfold interpolate_tensor, tadd, tscale, tsub.
    rewrite length_zip_with, length_fmap, length_zip_with. lia.
  - reflexivity.
Qed.

Lemma dom_reptile_steps h pd n (w : world) :
  dom (model (reptile_steps h pd n w)) = dom (model w).
Proof.
  induction n as [|n IH]; [reflexivity|].
  rewrite reptile_steps_S, model_reptile_iteration.
  rewrite dom_interpolate by apply dom_adapt. exact IH.
Qed.
End ShapeFacts.

(** X3.  The loop keeps the names and the shapes of the model's
    parameters: after any number of outer iterations the model has the
    parameter names it started with, and, when the gradients have the
    shape of their parameters, every parameter has the number of elements
    it started with. *)
Theorem loop_keeps_parameter_names_and_shapes
    {F T : Type} `{!Arith F, !Arith T, !Cast F T, !Externals F T}
    (h : hyper F) (pd : plot_data F) (n : nat) (w : world) :
  dom (model (reptile_steps h pd n w)) = dom (model w)
  ∧ (gradients_have_parameter_shape →
     same_shape (model (reptile_steps h pd n w)) (model w)).
Proof.
  split; [apply dom_reptile_steps|].
  intros Hgrad. induction n as [|n IH]; [reflexivity|].
  rewrite reptile_steps_S, model_reptile_iteration.
  eapply same_shape_trans; [|exact IH].
  apply same_shape_interpolate, same_shape_adapt, Hgrad.
Qed.

Lemma loop_keeps_parameter_names_and_shapes_witness :
  same_shape
    (model (reptile_steps notebook_hyperQ test_plot_data 2
              (World (Externals0 := test_externals) test_weightsQ 0%nat)))
    test_weightsQ.
Proof.
  apply (loop_keeps_parameter_names_and_shapes
           (Externals0 := test_externals) notebook_hyperQ test_plot_data 2
           (World (Externals0 := test_externals) test_weightsQ 0%nat)).
  intros m x y name param Hparam. simpl. rewrite Hparam. reflexivity.
Defined.

(** ** 24. The minibatches of an epoch *)

Section Batches.
Context {A : Type}.

Lemma chunks_concat (bs n : nat) (l : list A) :
  (length l ≤ n * bs)%nat →
  concat ((λ k, take bs (drop (k * bs) l)) <$> seq 0 n) = l.
Proof.
  revert l. induction n as [|n IH]; intros l Hlen.
  - destruct l; [reflexivity | simpl in Hlen; lia].
  - rewrite <- cons_seq, <- fmap_S_seq, fmap_cons, <- list_fmap_compose.
    simpl concat. rewrite drop_0.
    rewrite (list_fmap_ext _ (λ k, take bs (drop (k * bs) (drop bs l))) (seq 0 n)).
    + rewrite IH; [apply take_drop|]. rewrite length_drop. lia.
    + intros _ k _. simpl. rewrite drop_drop. reflexivity.
Qed.

Lemma chunks_length (bs k : nat) (l : list A) :
  (0 < bs)%nat → (k < (length l + bs - 1) / bs)%nat →
  (0 < length (take bs (drop (k * bs) l)) ≤ bs)%nat.
Proof.
  intros Hbs Hk. rewrite length_take, length_drop.
  pose proof (Nat.Div0.mul_div_le (length l + bs - 1) bs) as Hdiv.
  assert (S k * bs ≤ length l + bs - 1)%nat as Hle.
  { etransitivity; [|rewrite Nat.mul_comm in Hdiv; exact Hdiv].
    apply Nat.mul_le_mono_r. lia. }
  simpl in Hle. lia.
Qed.

Lemma ceil_div_bound (n bs : nat) :
  (0 < bs)%nat → (n ≤ (n + bs - 1) / bs * bs)%nat.
Proof.
  intros Hbs.
  pose proof (Nat.div_mod_eq (n + bs - 1) bs) as Heq.
  pose proof (Nat.mod_upper_bound (n + bs - 1) bs) as Hmod.
  lia.
Qed.
End Batches.

(** X4.  One epoch of the inner loop trains on the minibatches
    [inds[0:b]], [inds[b:2b]], ... in this order, for
    [b = inner_batchsize > 0] and [inds] a shuffle of the indices of
    [x_all]: the minibatches put end to end are [inds], so every index is
    used exactly once; no minibatch is empty or longer than [b]; and there
    are [ceil(len(x_all) / b)] of them. *)
Theorem epoch_minibatches_partition_the_shuffled_indices
    {F T : Type} `{!Arith F, !Arith T, !Cast F T, !Externals F T}
    (h : hyper F) (inds : list nat) (y_all : list F) (m : gmap string (list T)) :
  (0 < inner_batchsize h)%nat →
  length inds = length x_all →
  sgd_epoch h inds y_all m =
    foldl (λ m batch_indices,
             train_current_model_on_batch h m
               (np_index x_all batch_indices) (np_index y_all batch_indices))
          m (epoch_batches h inds)
  ∧ concat (epoch_batches h inds) = inds
  ∧ Forall (λ batch_indices,
              (0 < length batch_indices ≤ inner_batchsize h)%nat)
           (epoch_batches h inds)
  ∧ length (epoch_batches h inds) =
      ((length x_all + inner_batchsize h - 1) / inner_batchsize h)%nat.
Proof.
  intros Hbs Hlen. unfold epoch_batches, sgd_epoch. split; [|split; [|split]].
  - rewrite foldl_fmap. reflexivity.
  - unfold py_range_step. destruct (inner_batchsize h) as [|b] eqn:Hb; [lia|].
    rewrite <- list_fmap_compose. apply chunks_concat.
    rewrite Hlen. apply ceil_div_bound. lia.
  - unfold py_range_step. destruct (inner_batchsize h) as [|b] eqn:Hb; [lia|].
    rewrite <- list_fmap_compose. apply Forall_fmap, Forall_forall.
    intros k Hk. apply elem_of_seq in Hk. simpl.
    apply chunks_length; [lia|]. rewrite Hlen. lia.
  - unfold py_range_step. destruct (inner_batchsize h) as [|b] eqn:Hb; [lia|].
    rewrite !length_fmap, length_seq. reflexivity.
Qed.

Lemma epoch_minibatches_partition_the_shuffled_indices_witness :
  concat (epoch_batches (Externals0 := test_externals (T := Qc))
            notebook_hyperQ [1; 0]%nat) = [1; 0]%nat.
Proof.
  apply (epoch_minibatches_partition_the_shuffled_indices
           (Externals0 := test_externals (T := Qc))
           notebook_hyperQ [1; 0]%nat [] test_weightsQ).
  - vm_compute. lia.
  - reflexivity.
Defined.

(** ** 25. The step sizes the loop runs with *)

Lemma SFltb_leb_trans x y z :
  SFltb x y = true → SFleb y z = true → SFltb x z = true.
Proof.
  unfold SFltb, SFleb, SFcompare.
  destruct x as [sx|sx| |sx mx ex], y as [sy|sy| |sy my ey], z as [sz|sz| |sz mz ez];
    try (destruct sx); try (destruct sy); try (destruct sz); try done.
  all: change (PosDef.Pos.compare_cont Eq) with Pos.compare.
  all: destruct (Z.compare_spec ex ey), (Z.compare_spec ey ez), (Z.compare_spec ex ez);
       try done; try lia; subst.
  all: destruct (Pos.compare_spec mx my), (Pos.compare_spec my mz), (Pos.compare_spec mx mz);
       simpl; try done; try lia.
Qed.

Lemma notebook_last_step_positive :
  SFltb (S754_zero false)
    (b64 (outer_stepsize notebook_hyper64 (outer_steps notebook_hyper64 - 1))) = true.
Proof. vm_compute. reflexivity. Qed.

Lemma notebook_first_step :
  outer_stepsize notebook_hyper64 0 = outer_stepsize0 notebook_hyper64.
Proof. vm_compute. reflexivity. Qed.

Lemma Qc_schedule_first (h : hyper Qc) :
  outer_stepsize h 0 = outer_stepsize0 h.
Proof.
  unfold outer_stepsize. simpl. change (Z.of_nat 0) with 0%Z.
  rewrite Z2Qc_inj_0, Z2Qc_inj_1. unfold Qcdiv. ring.
Qed.

Lemma Qc_schedule_positive (h : hyper Qc) (i : nat) :
  (0 < outer_stepsize0 h)%Qc → (i < outer_steps h)%nat →
  (0 < outer_stepsize h i)%Qc.
Proof.
  intros Hrate Hi. unfold outer_stepsize. simpl.
  apply Qcmult_pos_pos; [exact Hrate|].
  assert (0 < Qc_of_Z (Z.of_nat (outer_steps h)))%Qc as HN.
  { rewrite <- Z2Qc_inj_0. apply (proj1 (Z2Qc_inj_lt _ _)). lia. }
  assert (Qc_of_Z (Z.of_nat i) < Qc_of_Z (Z.of_nat (outer_steps h)))%Qc as Hlt.
  { apply (proj1 (Z2Qc_inj_lt _ _)). lia. }
  apply (Qcmult_lt_mono_pos_r _ _ (Qc_of_Z (Z.of_nat (outer_steps h))) HN).
  rewrite Qcmult_0_l, Z2Qc_inj_1.
  replace ((1 - Qc_of_Z (Z.of_nat i) / Qc_of_Z (Z.of_nat (outer_steps h)))
           * Qc_of_Z (Z.of_nat (outer_steps h)))%Qc
    with (Qc_of_Z (Z.of_nat (outer_steps h)) - Qc_of_Z (Z.of_nat i))%Qc.
  - unfold Qcminus. rewrite <- (Qcplus_opp_r (Qc_of_Z (Z.of_nat i))).
    apply Qcplus_lt_mono_r. exact Hlt.
  - field. intros Hzero. rewrite Hzero in HN. revert HN. apply Qcle_not_lt, Qcle_refl.
Qed.

(** X5.  Inside the loop the meta-update never runs with a zero step size:
    for every executed iteration [i < N] the step size is positive and at
    most the initial rate, in the notebook's binary64 schedule and, in
    exact arithmetic, for every positive initial rate and every [N]. *)
Theorem executed_step_sizes_are_positive :
  (∀ i : nat, (i < outer_steps notebook_hyper64)%nat →
     SFltb (S754_zero false) (b64 (outer_stepsize notebook_hyper64 i)) = true
     ∧ fleb (outer_stepsize notebook_hyper64 i) (outer_stepsize0 notebook_hyper64) = true)
  ∧ (∀ (h : hyper Qc) (i : nat),
       (0 < outer_stepsize0 h)%Qc → (i < outer_steps h)%nat →
       (0 < outer_stepsize h i)%Qc ∧ (outer_stepsize h i ≤ outer_stepsize0 h)%Qc).
Proof.
  split.
  - intros i Hi. split.
    + apply (SFltb_leb_trans _ _ _ notebook_last_step_positive).
      apply (notebook_schedule_antitone i (outer_steps notebook_hyper64 - 1)).
      revert Hi. generalize (outer_steps notebook_hyper64). intros N Hi. lia.
    + rewrite <- notebook_first_step.
      apply (notebook_schedule_antitone 0 i).
      revert Hi. generalize (outer_steps notebook_hyper64). intros N Hi. lia.
  - intros h i Hrate Hi. split; [apply Qc_schedule_positive; assumption|].
    rewrite <- (Qc_schedule_first h).
    apply Qc_schedule_antitone; [apply Qclt_le_weak, Hrate | lia].
Qed.

Lemma executed_step_sizes_are_positive_witness :
  SFltb (S754_zero false) (b64 (outer_stepsize notebook_hyper64 5)) = true
  ∧ (0 < outer_stepsize notebook_hyperQ 5)%Qc.
Proof.
  destruct executed_step_sizes_are_positive as [H64 HQ]. split.
  - apply (H64 5%nat). apply Nat.ltb_lt. vm_compute. reflexivity.
  - apply (HQ notebook_hyperQ 5%nat).
    + vm_compute. reflexivity.
    + apply Nat.ltb_lt. vm_compute. reflexivity.
Defined.

(** ** 26. The meta-update as a convex combination *)

Lemma Qc_list_this_inj (l l' : list Qc) :
  this <$> l = this <$> l' → l = l'.
Proof.
  revert l'. induction l as [|q l IH]; intros [|q' l'] Heq; try discriminate;
    [reflexivity|].
  injection Heq as Hq Hl. f_equal; [|apply IH, Hl].
  apply Qc_is_canon. rewrite Hq. reflexivity.
Qed.

Lemma Some_Qc_list_eq (o : option (list Qc)) (l : list Qc) :
  fmap (M := list) this <$> o = Some (this <$> l) → o = Some l.
Proof.
  destruct o as [l'|]; [|discriminate]. simpl. intros [= Heq].
  f_equal. apply Qc_list_this_inj, Heq.
Qed.

Lemma Qc_between (b a s : Qc) :
  (0 ≤ s)%Qc → (s ≤ 1)%Qc →
  ((b ≤ a → b ≤ b + (a - b) * s ∧ b + (a - b) * s ≤ a)
   ∧ (a ≤ b → a ≤ b + (a - b) * s ∧ b + (a - b) * s ≤ b))%Qc.
Proof.
  intros Hs0 Hs1.
  assert (0 ≤ 1 + - s)%Qc as Hs1' by (apply (proj1 (Qcle_minus_iff _ _)), Hs1).
  split; intros Hab; apply (proj1 (Qcle_minus_iff _ _)) in Hab;
    (split; apply (proj2 (Qcle_minus_iff _ _))).
  - replace (b + (a - b) * s + - b)%Qc with ((a + - b) * s)%Qc by ring.
    apply Qcmult_nonneg_nonneg; assumption.
  - replace (a + - (b + (a - b) * s))%Qc with ((a + - b) * (1 + - s))%Qc by ring.
    apply Qcmult_nonneg_nonneg; assumption.
  - replace (b + (a - b) * s + - a)%Qc with ((b + - a) * (1 + - s))%Qc by ring.
    apply Qcmult_nonneg_nonneg; assumption.
  - replace (b + - (b + (a - b) * s))%Qc with ((b + - a) * s)%Qc by ring.
    apply Qcmult_nonneg_nonneg; assumption.
Qed.

Lemma Qc_schedule_unit_interval (h : hyper Qc) (i : nat) :
  (0 ≤ outer_stepsize0 h)%Qc → (outer_stepsize0 h ≤ 1)%Qc →
  (i ≤ outer_steps h)%nat →
  (0 ≤ outer_stepsize h i)%Qc ∧ (outer_stepsize h i ≤ 1)%Qc.
Proof.
  intros H0 H1 Hi. split.
  - destruct (decide (outer_steps h = 0%nat)) as [HN|HN].
    + assert (i = 0%nat) as -> by lia. rewrite Qc_schedule_first. exact H0.
    + rewrite <- (Qc_schedule_end h HN).
      apply Qc_schedule_antitone; assumption.
  - apply (Qcle_trans _ (outer_stepsize0 h)); [|exact H1].
    rewrite <- (Qc_schedule_first h).
    apply Qc_schedule_antitone; [exact H0 | lia].
Qed.

(** X6.  In exact arithmetic, with an initial rate between 0 and 1, the
    meta-update never overshoots: after an outer iteration every element
    of every parameter lies between its value before the iteration and
    its value after the inner adaptation. *)
Theorem meta_update_stays_between_before_and_after
    `{!Externals Qc Qc} (h : hyper Qc) (pd : plot_data Qc) (i : nat) (w : world)
    (name : string) (wb wa : list Qc) (k : nat) (b a : Qc) :
  (0 ≤ outer_stepsize0 h)%Qc → (outer_stepsize0 h ≤ 1)%Qc →
  (i ≤ outer_steps h)%nat →
  model w !! name = Some wb → model (adapt h w) !! name = Some wa →
  wb !! k = Some b → wa !! k = Some a →
  ∃ (wn : list Qc) (c : Qc),
    model (reptile_iteration h pd i w) !! name = Some wn
    ∧ wn !! k = Some c
    ∧ (b ≤ a → b ≤ c ∧ c ≤ a)%Qc
    ∧ (a ≤ b → a ≤ c ∧ c ≤ b)%Qc.
Proof.
  intros H0 H1 Hi Hwb Hwa Hb Ha.
  destruct (Qc_schedule_unit_interval h i H0 H1 Hi) as [Hs0 Hs1].
  exists (interpolate_tensor (outer_stepsize h i) wb wa),
         (b + (a - b) * outer_stepsize h i)%Qc.
  split; [|split].
  - rewrite model_reptile_iteration, lookup_interpolate, Hwb, Hwa. reflexivity.
  - unfold interpolate_tensor, tadd, tscale, tsub.
    rewrite lookup_zip_with, Hb. simpl.
    rewrite list_lookup_fmap, lookup_zip_with, Ha. simpl. rewrite Hb. reflexivity.
  - apply Qc_between; assumption.
Qed.

Lemma meta_update_stays_between_before_and_after_witness :
  ∃ (wn : list Qc) (c : Qc),
    model (reptile_iteration (Externals0 := test_externals) notebook_hyperQ
             test_plot_data 0
             (World (Externals0 := test_externals) test_weightsQ 0%nat))
      !! "0.bias" = Some wn
    ∧ wn !! 0%nat = Some c
    ∧ (Qc_of_Z 5 ≤ Q2Qc (49 # 10) → Qc_of_Z 5 ≤ c ∧ c ≤ Q2Qc (49 # 10))%Qc
    ∧ (Q2Qc (49 # 10) ≤ Qc_of_Z 5 → Q2Qc (49 # 10) ≤ c ∧ c ≤ Qc_of_Z 5)%Qc.
Proof.
  apply (meta_update_stays_between_before_and_after
           (Externals0 := test_externals) notebook_hyperQ test_plot_data 0
           (World (Externals0 := test_externals) test_weightsQ 0%nat)
           "0.bias" [Qc_of_Z 5] [Q2Qc (49 # 10)] 0 (Qc_of_Z 5) (Q2Qc (49 # 10))).
  - vm_compute. discriminate.
  - vm_compute. discriminate.
  - apply Nat.leb_le. vm_compute. reflexivity.
  - reflexivity.
  - apply Some_Qc_list_eq. vm_compute. reflexivity.
  - reflexivity.
  - reflexivity.
Defined.

(** ** 27. The layers the total loss needs *)

Section LossKeys.
Context {F T : Type} `{!Arith F, !Arith T, !Cast F T, !TfExternals F T}.
Implicit Types (P S X : gmap string (tensor4 T)).

Lemma capture_is_Some (layers : list string) (end_points : gmap string (tensor4 T)) :
  is_Some (capture layers end_points)
  ↔ ∀ layer, layer ∈ layers → is_Some (end_points !! layer).
Proof.
  unfold capture. rewrite fmap_is_Some, mapM_is_Some, Forall_forall.
  split; intros Hall layer Hlayer; specialize (Hall layer Hlayer).
  - simpl in Hall. apply fmap_is_Some in Hall. exact Hall.
  - simpl. apply fmap_is_Some. exact Hall.
Qed.

Lemma bind_is_Some {A B} (o : option A) (f : A → option B) :
  is_Some (o ≫= f) ↔ ∃ a, o = Some a ∧ is_Some (f a).
Proof.
  destruct o as [a|]; simpl.
  - split; [intros Hf; exists a; auto | intros (a' & [= <-] & Hf); exact Hf].
  - split; [intros [? [=]] | intros (? & [=] & _)].
Qed.

Lemma content_loss_is_Some P X layer :
  is_Some (content_loss (F := F) P X layer)
  ↔ is_Some (P !! layer) ∧ is_Some (X !! layer).
Proof.
  unfold content_loss. rewrite bind_is_Some. split.
  - intros (p & -> & Hx). apply bind_is_Some in Hx as (x & -> & _).
    split; eexists; reflexivity.
  - intros [[p ->] [x ->]]. exists p. split; [reflexivity|].
    simpl. eexists; reflexivity.
Qed.

Lemma style_loss_is_Some S X layer :
  is_Some (style_loss (F := F) S X layer)
  ↔ is_Some (S !! layer) ∧ is_Some (X !! layer).
Proof.
  unfold style_loss. rewrite bind_is_Some. split.
  - intros (p & -> & Hx). apply bind_is_Some in Hx as (x & -> & _).
    split; eexists; reflexivity.
  - intros [[p ->] [x ->]]. exists p. split; [reflexivity|].
    simpl. eexists; reflexivity.
Qed.

Lemma content_loss_agree P P' X layer :
  P !! layer = P' !! layer →
  content_loss (F := F) P X layer = content_loss (F := F) P' X layer.
Proof. unfold content_loss. intros ->. reflexivity. Qed.

Lemma style_loss_agree S S' X layer :
  S !! layer = S' !! layer →
  style_loss (F := F) S X layer = style_loss (F := F) S' X layer.
Proof. unfold style_loss. intros ->. reflexivity. Qed.

Lemma losses_is_Some P S image :
  is_Some (losses (F := F) P S image)
  ↔ ∃ X, capture all_layers (inception_v1 image) = Some X
         ∧ is_Some (content_loss (F := F) P X "Mixed_4b")
         ∧ is_Some (style_loss (F := F) S X "Conv2d_1a_7x7")
         ∧ is_Some (style_loss (F := F) S X "Conv2d_2c_3x3")
         ∧ is_Some (style_loss (F := F) S X "Mixed_3b")
         ∧ is_Some (style_loss (F := F) S X "Mixed_4d").
Proof.
  unfold losses. rewrite bind_is_Some. split.
  - intros (X & Hcap & H). exists X. split; [exact Hcap|].
    apply bind_is_Some in H as (c & -> & H).
    apply bind_is_Some in H as (s1 & -> & H).
    apply bind_is_Some in H as (s2 & -> & H).
    apply bind_is_Some in H as (s3 & -> & H).
    apply bind_is_Some in H as (s4 & -> & H).
    repeat split; eexists; reflexivity.
  - intros (X & Hcap & [c Hc] & [s1 Hs1] & [s2 Hs2] & [s3 Hs3] & [s4 Hs4]).
    exists X. split; [exact Hcap|].
    rewrite Hc, Hs1, Hs2, Hs3, Hs4. simpl. eexists; reflexivity.
Qed.
End LossKeys.

(** X7.  [total_loss] has a value exactly when no dictionary lookup fails:
    the network must expose the five captured layers, [photo_features]
    must hold ['Mixed_4b'] and [style_features] the four style layers; in
    every other case building the loss raises a [KeyError]. *)
Theorem total_loss_defined_exactly_when_layers_present
    {F T : Type} `{!Arith F, !Arith T, !Cast F T, !TfExternals F T}
    (P S : gmap string (tensor4 T)) (image : list (list (list T))) :
  is_Some (total_loss (F := F) P S image)
  ↔ (∀ layer, layer ∈ all_layers → is_Some (inception_v1 image !! layer))
    ∧ is_Some (P !! "Mixed_4b")
    ∧ (∀ layer, layer ∈ style_layers → is_Some (S !! layer)).
Proof.
  unfold total_loss. rewrite fmap_is_Some, losses_is_Some. split.
  - intros (X & Hcap & Hc & Hs1 & Hs2 & Hs3 & Hs4).
    split; [apply capture_is_Some; eauto|].
    apply content_loss_is_Some in Hc as [Hc _].
    apply style_loss_is_Some in Hs1 as [Hs1 _], Hs2 as [Hs2 _],
      Hs3 as [Hs3 _], Hs4 as [Hs4 _].
    split; [exact Hc|]. intros layer Hlayer.
    unfold style_layers in Hlayer.
    repeat (apply elem_of_cons in Hlayer as [->|Hlayer]); try assumption.
    apply elem_of_nil in Hlayer. destruct Hlayer.
  - intros (Hnet & HP & HS).
    destruct (Hnet "Mixed_4b") as [l0 H0]; [set_solver|].
    destruct (Hnet "Conv2d_1a_7x7") as [l1 H1]; [set_solver|].
    destruct (Hnet "Conv2d_2c_3x3") as [l2 H2]; [set_solver|].
    destruct (Hnet "Mixed_3b") as [l3 H3]; [set_solver|].
    destruct (Hnet "Mixed_4d") as [l4 H4]; [set_solver|].
    pose proof (capture_all_layers _ _ _ _ _ _ H0 H1 H2 H3 H4) as Hcap.
    set (X := list_to_map _) in Hcap. exists X. split; [exact Hcap|].
    split; [apply content_loss_is_Some; split; [exact HP | by eexists]|].
    repeat split; apply style_loss_is_Some;
      (split; [apply HS; set_solver | by eexists]).
Qed.

(** X8.  [total_loss] reads [photo_features] only at ['Mixed_4b'] and
    [style_features] only at the four style layers: the other activations
    captured for the photo and for the style image never change the
    loss. *)
Theorem total_loss_ignores_unused_captured_layers
    {F T : Type} `{!Arith F, !Arith T, !Cast F T, !TfExternals F T}
    (P P' S S' : gmap string (tensor4 T)) (image : list (list (list T))) :
  P !! "Mixed_4b" = P' !! "Mixed_4b" →
  (∀ layer, layer ∈ style_layers → S !! layer = S' !! layer) →
  total_loss (F := F) P S image = total_loss (F := F) P' S' image.
Proof.
  intros HP HS. unfold total_loss, losses.
  destruct (capture all_layers (inception_v1 image)) as [X|]; [|reflexivity].
  cbn [mbind option_bind].
  rewrite (content_loss_agree P P' X _ HP).
  rewrite (style_loss_agree S S' X "Conv2d_1a_7x7") by (apply HS; set_solver).
  rewrite (style_loss_agree S S' X "Conv2d_2c_3x3") by (apply HS; set_solver).
  rewrite (style_loss_agree S S' X "Mixed_3b") by (apply HS; set_solver).
  rewrite (style_loss_agree S S' X "Mixed_4d") by (apply HS; set_solver).
  reflexivity.
Qed.

Lemma total_loss_ignores_unused_captured_layers_witness :
  total_loss (F := Qc) (TfExternals0 := test_tf_externals)
    (test_features 1) (test_features 1) test_image =
  total_loss (F := Qc) (TfExternals0 := test_tf_externals)
    (<["Mixed_3b" := Tensor4 1 1 1 1 [Qc_of_Z 7]]> (test_features 1))
    (delete "Mixed_4b" (test_features 1)) test_image.
Proof.
  apply (total_loss_ignores_unused_captured_layers
           (TfExternals0 := test_tf_externals)).
  - reflexivity.
  - intros layer Hlayer. unfold style_layers in Hlayer.
    repeat (apply elem_of_cons in Hlayer as [->|Hlayer]); try reflexivity.
    apply elem_of_nil in Hlayer. destruct Hlayer.
Defined.

(** ** 28. Sign and zeros of the content and style losses *)

Section QcLosses.
Local Open Scope Qc_scope.

Lemma Qc_sum_zero (a b : Qc) : 0 ≤ a → 0 ≤ b → a + b = 0 → a = 0 ∧ b = 0.
Proof.
  intros Ha Hb Hab. split; apply Qcle_antisym; try assumption.
  - rewrite <- Hab, <- (Qcplus_0_r a) at 1. apply Qcplus_le_mono_l, Hb.
  - rewrite <- Hab, <- (Qcplus_0_l b) at 1. apply Qcplus_le_mono_r, Ha.
Qed.

Lemma Forall_square_nonneg (l : list Qc) : Forall (λ v, 0 ≤ v) (tf_square l).
Proof.
  unfold tf_square. apply Forall_fmap, Forall_forall. intros v _.
  apply Qc_square_nonneg.
Qed.

Lemma sum_squares_zero (l : list Qc) :
  reduce_sum (tf_square l) = 0 → Forall (λ v, v = 0) l.
Proof.
  induction l as [|v l IH]; intros Hsum; [constructor|].
  unfold tf_square in Hsum. rewrite fmap_cons, reduce_sum_cons in Hsum.
  apply Qc_sum_zero in Hsum as [Hv Hl].
  - constructor; [|apply IH, Hl].
    destruct (Qcmult_integral _ _ Hv); assumption.
  - apply Qc_square_nonneg.
  - apply reduce_sum_nonneg, Forall_square_nonneg.
Qed.

Lemma sum_squares_of_zeros (l : list Qc) :
  Forall (λ v, v = 0) l → reduce_sum (tf_square l) = 0.
Proof.
  induction 1 as [|v l -> _ IH].
  - apply reduce_sum_nil.
  - unfold tf_square in *. rewrite fmap_cons, reduce_sum_cons, IH. qc_ops. ring.
Qed.

Lemma zip_sub_zero (x p : list Qc) :
  length x = length p →
  Forall (λ v, v = 0) (zip_with Qcminus x p) ↔ x = p.
Proof.
  revert p. induction x as [|a x IH]; intros [|b p] Hlen; try discriminate.
  - split; [reflexivity | constructor].
  - simpl in Hlen. injection Hlen as Hlen. simpl. rewrite Forall_cons, (IH p Hlen).
    split.
    + intros [Hab ->]. f_equal.
      rewrite <- (Qcplus_0_r b), <- Hab. ring.
    + intros [= -> ->]. split; [ring | reflexivity].
Qed.

Lemma zip_sub_self (l : list Qc) : Forall (λ v, v = 0) (zip_with Qcminus l l).
Proof. apply zip_sub_zero; reflexivity. Qed.

Lemma Qc_of_nat_pos (n : nat) : n ≠ 0%nat → 0 < Qc_of_Z (Z.of_nat n).
Proof.
  intros Hn. rewrite <- Z2Qc_inj_0. apply (proj1 (Z2Qc_inj_lt _ _)). lia.
Qed.

Lemma Qc_half_pos : 0 < Qc_of_Z 1 / Qc_of_Z 2.
Proof. reflexivity. Qed.

Lemma Qc_div_pos_zero (a b : Qc) : 0 < b → a / b = 0 ↔ a = 0.
Proof.
  intros Hb. split.
  - intros Hq. unfold Qcdiv in Hq.
    destruct (Qcmult_integral _ _ Hq) as [Ha|Hinv]; [exact Ha|].
    pose proof (Qcinv_pos _ Hb) as Hpos. rewrite Hinv in Hpos.
    exfalso. revert Hpos. apply Qcle_not_lt, Qcle_refl.
  - intros ->. unfold Qcdiv. ring.
Qed.

Lemma Qc_div_nonneg (a b : Qc) : 0 ≤ a → 0 < b → 0 ≤ a / b.
Proof.
  intros Ha Hb. unfold Qcdiv.
  apply Qcmult_nonneg_nonneg; [exact Ha|]. apply Qclt_le_weak, Qcinv_pos, Hb.
Qed.
End QcLosses.

(** X9.  In exact arithmetic the content distance is never negative, and
    for two activations with the same positive number of elements it is
    zero exactly when the candidate's activation equals the photo's. *)
Theorem content_loss_zero_exactly_on_equal_activations
    (P X : gmap string (tensor4 Qc)) (layer : string) (p x : tensor4 Qc) :
  P !! layer = Some p → X !! layer = Some x →
  length (data x) = length (data p) → data p ≠ [] →
  ∃ c : Qc, content_loss (F := Qc) P X layer = Some c
            ∧ (0 ≤ c)%Qc
            ∧ (c = 0%Qc ↔ data x = data p).
Proof.
  intros HP HX Hlen Hne. unfold content_loss. rewrite HP, HX. simpl.
  eexists. split; [reflexivity|]. qc_ops. unfold reduce_mean. qc_ops.
  set (d := zip_with Qcminus (data x) (data p)).
  assert (0 < Qc_of_Z (Z.of_nat (length (tf_square d))))%Qc as Hn.
  { apply Qc_of_nat_pos. unfold tf_square, d.
    rewrite length_fmap, length_zip_with, Hlen, Nat.min_id.
    destruct (data p); [congruence | discriminate]. }
  split.
  - apply Qcmult_nonneg_nonneg; [apply Qclt_le_weak, Qc_half_pos|].
    apply Qc_div_nonneg; [|exact Hn].
    apply reduce_sum_nonneg, Forall_square_nonneg.
  - rewrite <- (zip_sub_zero _ _ Hlen). fold d. split.
    + intros Hc. apply sum_squares_zero.
      destruct (Qcmult_integral _ _ Hc) as [Hhalf|Hmean].
      * pose proof Qc_half_pos as Hpos. rewrite Hhalf in Hpos.
        exfalso. revert Hpos. apply Qcle_not_lt, Qcle_refl.
      * apply (Qc_div_pos_zero _ _ Hn), Hmean.
    + intros Hd. rewrite (sum_squares_of_zeros d Hd). unfold Qcdiv. ring.
Qed.

Lemma content_loss_zero_exactly_on_equal_activations_witness :
  ∃ c : Qc, content_loss (F := Qc) (test_features 1) (test_features 3) "Mixed_4b" = Some c
            ∧ (0 ≤ c)%Qc
            ∧ (c = 0%Qc ↔ [Qc_of_Z 3] = [Qc_of_Z 1]).
Proof.
  apply (content_loss_zero_exactly_on_equal_activations
           (test_features 1) (test_features 3) "Mixed_4b"
           (Tensor4 1 1 1 1 [Qc_of_Z 1]) (Tensor4 1 1 1 1 [Qc_of_Z 3])).
  - reflexivity.
  - reflexivity.
  - reflexivity.
  - discriminate.
Defined.

(** ** 29. The normaliser of the style loss *)

Lemma int32_wrap_mod (z : Z) : ∃ k : Z, int32_wrap z = z + 2 ^ 32 * k.
Proof.
  unfold int32_wrap. exists (- ((z + 2 ^ 31) / 2 ^ 32)).
  rewrite Z.mod_eq by lia. lia.
Qed.

Lemma int32_wrap_shift (z k : Z) : int32_wrap (z + 2 ^ 32 * k) = int32_wrap z.
Proof.
  unfold int32_wrap. f_equal.
  replace (z + 2 ^ 32 * k + 2 ^ 31) with (z + 2 ^ 31 + k * 2 ^ 32) by lia.
  apply Z_mod_plus_full.
Qed.

Lemma int32_wrap_mul (a b : Z) :
  int32_wrap (int32_wrap a * int32_wrap b) = int32_wrap (a * b).
Proof.
  destruct (int32_wrap_mod a) as [ka ->], (int32_wrap_mod b) as [kb ->].
  replace ((a + 2 ^ 32 * ka) * (b + 2 ^ 32 * kb))
    with (a * b + 2 ^ 32 * (a * kb + ka * b + 2 ^ 32 * ka * kb)) by ring.
  apply int32_wrap_shift.
Qed.


Lemma style_loss_divisor
    {F T : Type} `{!Arith F, !Arith T, !Cast F T}
    (S X : gmap string (tensor4 T)) (layer : string) (s x : tensor4 T) :
  S !! layer = Some s → X !! layer = Some x →
  style_loss (F := F) S X layer =
    Some (reduce_mean
            (tf_square (concat (zip_with (zip_with fsub)
                                  (gram_matrix x) (gram_matrix s))))
          / (cast (of_int 4 : F)
             * of_int (int32_wrap (Z.of_nat (dim1 s * dim2 s * dim3 s)
                                   * Z.of_nat (dim1 s * dim2 s * dim3 s)))))%num.
Proof.
  intros HS HX. unfold style_loss. rewrite HS, HX. simpl. do 4 f_equal.
  rewrite int32_wrap_mul. f_equal. lia.
Qed.



(** X11.  In exact arithmetic, for a style activation with at least one
    channel and a normaliser that has stayed positive, the style
    distance is never negative and it is zero when the candidate's
    activation at the layer is the style image's. *)
Theorem style_loss_nonnegative_and_zero_on_same_activation
    (S X : gmap string (tensor4 Qc)) (layer : string) (s x : tensor4 Qc) :
  S !! layer = Some s → X !! layer = Some x →
  dim3 s ≠ 0%nat →
  0 < int32_wrap (Z.of_nat (dim1 s * dim2 s * dim3 s) * Z.of_nat (dim1 s * dim2 s * dim3 s)) →
  ∃ c : Qc, style_loss (F := Qc) S X layer = Some c
            ∧ (0 ≤ c)%Qc
            ∧ (x = s → c = 0%Qc).
Proof.
  intros HS HX HC Hwrap.
  rewrite (style_loss_divisor (F := Qc) S X layer s x HS HX).
  eexists. split; [reflexivity|]. qc_ops. unfold reduce_mean. qc_ops.
  set (n := Z.of_nat (dim1 s * dim2 s * dim3 s)) in *.
  assert (0 < Qc_of_Z 4 * Qc_of_Z (int32_wrap (n * n)))%Qc as Hdiv.
  { apply Qcmult_pos_pos; [reflexivity|].
    rewrite <- Z2Qc_inj_0. apply (proj1 (Z2Qc_inj_lt _ _)). exact Hwrap. }
  split.
  - apply Qc_div_nonneg; [|exact Hdiv].
    unfold Qcdiv. apply Qcmult_nonneg_nonneg.
    + apply reduce_sum_nonneg, Forall_square_nonneg.
    + destruct (length _) as [|k]; [apply Qcle_refl|].
      apply Qclt_le_weak, Qcinv_pos, Qc_of_nat_pos. discriminate.
  - intros ->.
    rewrite sum_squares_of_zeros; [unfold Qcdiv; ring|].
    apply Forall_concat, Forall_forall. intros row Hrow.
    apply elem_of_lookup_zip_with in Hrow as (i & r & r' & -> & Hr & Hr').
    rewrite Hr in Hr'. injection Hr' as <-. apply zip_sub_self.
Qed.

Lemma style_loss_nonnegative_and_zero_on_same_activation_witness :
  ∃ c : Qc, style_loss (F := Qc) (test_features 1) (test_features 3) "Mixed_3b" = Some c
            ∧ (0 ≤ c)%Qc
            ∧ (Tensor4 1 1 1 1 [Qc_of_Z 3] = Tensor4 1 1 1 1 [Qc_of_Z 1] → c = 0%Qc).
Proof.
  apply (style_loss_nonnegative_and_zero_on_same_activation
           (test_features 1) (test_features 3) "Mixed_3b"
           (Tensor4 1 1 1 1 [Qc_of_Z 1]) (Tensor4 1 1 1 1 [Qc_of_Z 3])).
  - reflexivity.
  - reflexivity.
  - discriminate.
  - vm_compute. reflexivity.
Defined.

(** X12.  When [H*W*C] is a multiple of [2^16], as for a [128 x 128 x 64]
    activation, the normaliser of [style_loss] wraps around to 0: on
    float32 tensors the loss is then the mean squared difference of the
    Gram matrices divided by [+0.0]. *)
Theorem style_loss_divides_by_zero_when_the_normaliser_wraps
    (S X : gmap string (tensor4 binary32)) (layer : string) (s x : tensor4 binary32) :
  S !! layer = Some s → X !! layer = Some x →
  (2 ^ 16 | Z.of_nat (dim1 s * dim2 s * dim3 s)) →
  style_loss (F := binary64) S X layer =
    Some (reduce_mean
            (tf_square (concat (zip_with (zip_with fsub)
                                  (gram_matrix x) (gram_matrix s))))
          / B32 (S754_zero false))%num.
Proof.
  intros HS HX [k Hk].
  rewrite (style_loss_divisor (F := binary64) S X layer s x HS HX).
  rewrite Hk.
  replace (k * 2 ^ 16 * (k * 2 ^ 16)) with (0 + 2 ^ 32 * (k * k)) by ring.
  rewrite int32_wrap_shift. reflexivity.
Qed.

Lemma style_loss_divides_by_zero_when_the_normaliser_wraps_witness :
  style_loss (F := binary64)
    {[ "Mixed_3b" := Tensor4 1 128 128 64 [of_int 1 : binary32] ]}
    {[ "Mixed_3b" := Tensor4 1 128 128 64 [of_int 3 : binary32] ]} "Mixed_3b" =
    Some (reduce_mean
            (tf_square (concat (zip_with (zip_with fsub)
               (gram_matrix (Tensor4 1 128 128 64 [of_int 3 : binary32]))
               (gram_matrix (Tensor4 1 128 128 64 [of_int 1 : binary32])))))
          / B32 (S754_zero false))%num.
Proof.
  apply (style_loss_divides_by_zero_when_the_normaliser_wraps
           {[ "Mixed_3b" := Tensor4 1 128 128 64 [of_int 1 : binary32] ]}
           {[ "Mixed_3b" := Tensor4 1 128 128 64 [of_int 3 : binary32] ]}
           "Mixed_3b").
  - reflexivity.
  - reflexivity.
  - exists 16. cbn [dim1 dim2 dim3]. rewrite !Nat2Z.inj_mul. reflexivity.
Defined.

(** ** 30. The total-variation penalties *)

Section Slices.
Context {T : Type}.
Implicit Types (x : list (list (list T))) (row : list (list T)) (px : list T).

Lemma rows_to_last_snoc x row : rows_to_last (x ++ [row]) = x.
Proof.
  unfold rows_to_last. rewrite length_app. simpl.
  apply take_app_length'. lia.
Qed.

Lemma cols_to_last_rows_from_1_snoc x row px :
  cols_to_last (rows_from_1 (x ++ [row ++ [px]])) =
    match x with
    | [] => []
    | _ :: x' => cols_to_last x' ++ [row]
    end.
Proof.
  unfold cols_to_last, rows_from_1. destruct x as [|row0 x]; [reflexivity|].
  simpl. rewrite drop_0, fmap_app. simpl. f_equal. f_equal.
  rewrite length_app. simpl. apply take_app_length'. lia.
Qed.

Lemma concat_all_nil {A} (l : list (list A)) : Forall (λ r, r = []) l → concat l = [].
Proof. induction 1 as [|r l -> _ IH]; [reflexivity | exact IH]. Qed.

Lemma image_zip_with_nil_rows (f : T → T → T) (a b : list (list (list T))) :
  Forall (λ r, r = []) b → Forall (λ r, r = []) (image_zip_with f a b).
Proof.
  intros Hb. revert a. induction Hb as [|r b -> _ IH]; intros [|ra a]; simpl;
    try constructor.
  - apply zip_with_nil_r.
  - apply IH.
Qed.

Lemma image_map_nil_rows (f : T → T) (a : list (list (list T))) :
  Forall (λ r, r = []) a → Forall (λ r, r = []) (image_map f a).
Proof.
  unfold image_map. induction 1 as [|r a -> _ IH]; simpl; constructor;
    [reflexivity | exact IH].
Qed.

Lemma cols_to_last_narrow x :
  Forall (λ row, (length row ≤ 1)%nat) x → Forall (λ r, r = []) (cols_to_last x).
Proof.
  unfold cols_to_last. intros Hx. apply Forall_fmap.
  eapply Forall_impl; [exact Hx|]. intros row Hrow. cbv beta in *.
  destruct row as [|px [|px' row]]; [reflexivity..|]. simpl in Hrow. lia.
Qed.

Lemma rows_to_last_narrow x :
  Forall (λ row, (length row ≤ 1)%nat) x →
  Forall (λ row, (length row ≤ 1)%nat) (rows_to_last x).
Proof. unfold rows_to_last. apply Forall_take. Qed.

(** The slices of an image commute with a map over its elements. *)
Lemma rows_from_1_map (f : T → T) x :
  rows_from_1 (image_map f x) = image_map f (rows_from_1 x).
Proof. unfold rows_from_1, image_map. symmetry. apply fmap_drop. Qed.

Lemma rows_to_last_map (f : T → T) x :
  rows_to_last (image_map f x) = image_map f (rows_to_last x).
Proof.
  unfold rows_to_last, image_map. rewrite length_fmap. symmetry. apply fmap_take.
Qed.

Lemma cols_from_1_map (f : T → T) x :
  cols_from_1 (image_map f x) = image_map f (cols_from_1 x).
Proof.
  unfold cols_from_1, image_map. rewrite <- !list_fmap_compose.
  apply list_fmap_ext. intros _ row _. simpl. symmetry. apply fmap_drop.
Qed.

Lemma cols_to_last_map (f : T → T) x :
  cols_to_last (image_map f x) = image_map f (cols_to_last x).
Proof.
  unfold cols_to_last, image_map. rewrite <- !list_fmap_compose.
  apply list_fmap_ext. intros _ row _. simpl.
  rewrite length_fmap. symmetry. apply fmap_take.
Qed.

Lemma zip_with_map_both {A B} (g : A → A → B) (f : A → A) (a b : list A) :
  (∀ u v, g (f u) (f v) = g u v) →
  zip_with g (f <$> a) (f <$> b) = zip_with g a b.
Proof.
  intros Hg. revert b. induction a as [|u a IH]; intros [|v b]; simpl;
    [reflexivity..|]. rewrite Hg, IH. reflexivity.
Qed.

Lemma image_zip_with_map_both (g : T → T → T) (f : T → T) (a b : list (list (list T))) :
  (∀ u v, g (f u) (f v) = g u v) →
  image_zip_with g (image_map f a) (image_map f b) = image_zip_with g a b.
Proof.
  intros Hg. unfold image_zip_with, image_map.
  apply zip_with_map_both. intros r r'.
  apply zip_with_map_both. intros p p'.
  apply zip_with_map_both, Hg.
Qed.
End Slices.

(** X13.  [total_variation_loss_lX] never reads the bottom-right pixel of
    the image: replacing the last pixel of the last row leaves the penalty
    unchanged, whatever the image. *)
Theorem total_variation_ignores_bottom_right_pixel
    {F T : Type} `{!Arith F, !Arith T, !Cast F T, !TfExternals F T}
    (x : list (list (list T))) (row : list (list T)) (px px' : list T) :
  total_variation_loss_lX (F := F) (x ++ [row ++ [px]]) =
    total_variation_loss_lX (F := F) (x ++ [row ++ [px']]).
Proof.
  unfold total_variation_loss_lX.
  rewrite !rows_to_last_snoc, !cols_to_last_rows_from_1_snoc. reflexivity.
Qed.

(** X14.  An image with at most one row, or whose rows have at most one
    pixel, has no neighbouring pixels to compare: its
    [total_variation_loss_lX] is the empty sum, [0]. *)
Theorem total_variation_of_single_row_or_column
    {F T : Type} `{!Arith F, !Arith T, !Cast F T, !TfExternals F T}
    (x : list (list (list T))) :
  (length x ≤ 1)%nat ∨ Forall (λ row, (length row ≤ 1)%nat) x →
  total_variation_loss_lX (F := F) x = of_int 0.
Proof.
  intros Hx. unfold total_variation_loss_lX.
  match goal with |- reduce_sum (concat (concat ?im)) = _ =>
    assert (Forall (λ r, r = []) im) as Him end.
  { apply image_map_nil_rows, image_zip_with_nil_rows, image_map_nil_rows,
      image_zip_with_nil_rows.
    destruct Hx as [Hrows|Hcols].
    - unfold rows_to_last. replace (length x - 1)%nat with 0%nat by lia.
      constructor.
    - apply cols_to_last_narrow, rows_to_last_narrow, Hcols. }
  rewrite (concat_all_nil _ Him). reflexivity.
Qed.

Lemma total_variation_of_single_row_or_column_witness :
  total_variation_loss_lX (F := binary64) (TfExternals0 := test_tf_externals)
    [ [ [of_int 1; of_int 2; of_int 3]; [of_int 4; of_int 5; of_int 6] ] ] =
  (of_int 0 : binary32).
Proof.
  apply (total_variation_of_single_row_or_column
           (F := binary64) (TfExternals0 := test_tf_externals)).
  left. simpl. lia.
Defined.

(** X15.  In exact arithmetic [total_variation_loss_lX] only sees
    differences of neighbouring pixels: adding one constant to every
    element of the image leaves the penalty unchanged. *)
Theorem total_variation_invariant_under_constant_offset
    `{!TfExternals Qc Qc} (c : Qc) (x : list (list (list Qc))) :
  total_variation_loss_lX (F := Qc) (image_map (λ v, v + c)%Qc x) =
    total_variation_loss_lX (F := Qc) x.
Proof.
  unfold total_variation_loss_lX.
  rewrite !rows_from_1_map, !rows_to_last_map, !cols_to_last_map,
    !cols_from_1_map.
  rewrite !(image_zip_with_map_both fsub); [reflexivity|..];
    intros u v; qc_ops; ring.
Qed.

(** ** 31. Flat images *)

Section FlatImages.
Context {F T : Type} `{!Arith F, !Arith T, !Cast F T, !Abs T, !TfExternals F T}.
Variable zero : T.
Hypothesis zero_of_int : of_int 0 = zero.
Hypothesis add_zero : (zero + zero)%num = zero.

Lemma reduce_sum_zeros (l : list T) : Forall (λ v, v = zero) l → reduce_sum l = zero.
Proof.
  unfold reduce_sum. induction 1 as [|v l -> _ IH]; simpl.
  - exact zero_of_int.
  - rewrite IH. exact add_zero.
Qed.

Lemma flat_rows_from_1 (h w : nat) (px : list T) :
  rows_from_1 (replicate h (replicate w px)) = replicate (h - 1) (replicate w px).
Proof. unfold rows_from_1. apply drop_replicate. Qed.

Lemma flat_rows_to_last (h w : nat) (px : list T) :
  rows_to_last (replicate h (replicate w px)) = replicate (h - 1) (replicate w px).
Proof.
  unfold rows_to_last. rewrite length_replicate, take_replicate. f_equal. lia.
Qed.

Lemma flat_cols_from_1 (h w : nat) (px : list T) :
  cols_from_1 (replicate h (replicate w px)) = replicate h (replicate (w - 1) px).
Proof. unfold cols_from_1. rewrite fmap_replicate, drop_replicate. reflexivity. Qed.

Lemma flat_cols_to_last (h w : nat) (px : list T) :
  cols_to_last (replicate h (replicate w px)) = replicate h (replicate (w - 1) px).
Proof.
  unfold cols_to_last.
  rewrite fmap_replicate, length_replicate, take_replicate. do 2 f_equal. lia.
Qed.

Lemma flat_zip_with (f : T → T → T) (h w : nat) (px px' : list T) :
  image_zip_with f (replicate h (replicate w px)) (replicate h (replicate w px')) =
    replicate h (replicate w (zip_with f px px')).
Proof.
  unfold image_zip_with. rewrite zip_with_replicate_l by (rewrite length_replicate; lia).
  rewrite fmap_replicate. f_equal.
  rewrite zip_with_replicate_l by (rewrite length_replicate; lia).
  rewrite fmap_replicate. reflexivity.
Qed.

Lemma flat_map (f : T → T) (h w : nat) (px : list T) :
  image_map f (replicate h (replicate w px)) = replicate h (replicate w (f <$> px)).
Proof. unfold image_map. rewrite !fmap_replicate. reflexivity. Qed.

Lemma flat_elements (P : T → Prop) (h w : nat) (px : list T) :
  Forall P px → Forall P (concat (concat (replicate h (replicate w px)))).
Proof.
  intros Hpx. apply Forall_concat, Forall_concat, Forall_replicate, Forall_replicate, Hpx.
Qed.

Lemma flat_total_variation_l1 (h w : nat) (px : list T) :
  fabs zero = zero →
  Forall (λ v, (v - v)%num = zero) px →
  total_variation_loss_l1 (replicate h (replicate w px)) = zero.
Proof.
  intros Habs Hpx. unfold total_variation_loss_l1.
  rewrite flat_rows_from_1, flat_rows_to_last, flat_cols_from_1, flat_cols_to_last.
  rewrite !flat_zip_with, !flat_map, zip_with_diag.
  rewrite !reduce_sum_zeros; [exact add_zero|..];
    apply flat_elements, Forall_fmap, Forall_fmap;
    (eapply Forall_impl; [exact Hpx|]); intros v Hv; simpl;
    rewrite Hv; exact Habs.
Qed.

Lemma flat_total_variation_lX (h w : nat) (px : list T) :
  (zero * zero)%num = zero →
  tf_pow zero (of_int 125 / of_int 100)%num = zero →
  Forall (λ v, (v - v)%num = zero) px →
  total_variation_loss_lX (F := F) (replicate h (replicate w px)) = zero.
Proof.
  intros Hmul Hpow Hpx. unfold total_variation_loss_lX.
  rewrite flat_rows_from_1, flat_rows_to_last, flat_cols_from_1, !flat_cols_to_last.
  rewrite !flat_zip_with, !flat_map, flat_zip_with, flat_map, !zip_with_diag.
  apply reduce_sum_zeros, flat_elements.
  rewrite <- !list_fmap_compose. apply Forall_fmap.
  eapply Forall_impl; [exact Hpx|]. intros v Hv. simpl.
  rewrite Hv, Hmul, add_zero. exact Hpow.
Qed.
End FlatImages.

(** X16.  A flat image, all of whose pixels are the same vector of finite
    float32 channel values, has no total variation:
    [total_variation_loss_l1] returns [+0.0], and so does
    [total_variation_loss_lX] when [tf.pow] maps [+0.0] to [+0.0]. *)
Theorem flat_image_has_no_total_variation
    `{!TfExternals binary64 binary32} (h w : nat) (px : list binary32) :
  Forall (λ v, is_finite (b32 v) = true) px →
  total_variation_loss_l1 (replicate h (replicate w px)) = B32 (S754_zero false)
  ∧ (tf_pow (B32 (S754_zero false)) (of_int 125 / of_int 100 : binary64)%num
       = B32 (S754_zero false) →
     total_variation_loss_lX (F := binary64) (replicate h (replicate w px))
       = B32 (S754_zero false)).
Proof.
  intros Hpx.
  assert (Forall (λ v : binary32, (v - v)%num = B32 (S754_zero false)) px) as Hsub.
  { eapply Forall_impl; [exact Hpx|]. intros [v] Hv. simpl in *. f_equal.
    apply SFsub_diag, Hv. }
  split.
  - apply (flat_total_variation_l1 (B32 (S754_zero false)));
      try reflexivity. exact Hsub.
  - intros Hpow.
    apply (flat_total_variation_lX (F := binary64) (B32 (S754_zero false)));
      try reflexivity; assumption.
Qed.

Lemma flat_image_has_no_total_variation_witness :
  total_variation_loss_l1 (replicate 3 (replicate 2 [f32_0_3; f32_m0_07]))
    = B32 (S754_zero false)
  ∧ total_variation_loss_lX (F := binary64) (TfExternals0 := test_tf_externals)
      (replicate 3 (replicate 2 [f32_0_3; f32_m0_07]))
    = B32 (S754_zero false).
Proof.
  destruct (flat_image_has_no_total_variation
              (TfExternals0 := test_tf_externals) 3 2 [f32_0_3; f32_m0_07])
    as [Hl1 HlX].
  - repeat constructor.
  - split; [exact Hl1|]. apply HlX. reflexivity.
Defined.

(** ** 32. The absolute total variation *)

Section QcL1.
Local Open Scope Qc_scope.

Lemma Qc_fabs_nonneg (q : Qc) : 0 ≤ fabs q.
Proof.
  unfold fabs, Qc_abs. case_bool_decide as Hq.
  - exact Hq.
  - apply Qcnot_le_lt in Hq.
    apply Qclt_le_weak in Hq. apply Qcopp_le_compat in Hq. exact Hq.
Qed.

Lemma image_map_elements (P : Qc → Prop) (f : Qc → Qc) (x : list (list (list Qc))) :
  (∀ v, P (f v)) → Forall P (concat (concat (image_map f x))).
Proof.
  intros HP. unfold image_map. apply Forall_concat, Forall_concat.
  apply Forall_fmap, Forall_forall. intros row _.
  apply Forall_fmap, Forall_forall. intros px _.
  apply Forall_fmap, Forall_forall. intros v _. apply HP.
Qed.
End QcL1.

(** X17.  In exact arithmetic [total_variation_loss_l1] is never negative,
    and adding one constant to every element of the image leaves it
    unchanged. *)
Theorem total_variation_l1_nonnegative_and_offset_invariant
    (c : Qc) (x : list (list (list Qc))) :
  (0 ≤ total_variation_loss_l1 x)%Qc
  ∧ total_variation_loss_l1 (image_map (λ v, v + c)%Qc x) = total_variation_loss_l1 x.
Proof.
  split.
  - unfold total_variation_loss_l1. qc_ops.
    apply Qcplus_nonneg_nonneg; apply reduce_sum_nonneg, image_map_elements;
      intros v; apply Qc_fabs_nonneg.
  - unfold total_variation_loss_l1.
    rewrite !rows_from_1_map, !rows_to_last_map, !cols_to_last_map,
      !cols_from_1_map.
    rewrite !(image_zip_with_map_both fsub); [reflexivity|..];
      intros u v; qc_ops; ring.
Qed.

(** ** 33. Valid binary64 numbers *)

(** The mantissa of a valid number has at most 53 digits, and exactly 53
    above the smallest exponent. *)
Lemma digits2_pos_bound (m : positive) : Zpos m < 2 ^ Zpos (digits2_pos m).
Proof.
  induction m as [m IH|m IH|]; simpl digits2_pos;
    rewrite ?Pos2Z.inj_succ, ?Z.pow_succ_r by lia; lia.
Qed.

Lemma digits2_pos_lower_bound (m : positive) : 2 ^ (Zpos (digits2_pos m) - 1) ≤ Zpos m.
Proof.
  induction m as [m IH|m IH|]; simpl digits2_pos; [| |reflexivity].
  - rewrite Pos2Z.inj_succ. replace (Z.succ (Zpos (digits2_pos m)) - 1)
      with (Z.succ (Zpos (digits2_pos m) - 1)) by lia.
    rewrite Z.pow_succ_r by lia. lia.
  - rewrite Pos2Z.inj_succ. replace (Z.succ (Zpos (digits2_pos m)) - 1)
      with (Z.succ (Zpos (digits2_pos m) - 1)) by lia.
    rewrite Z.pow_succ_r by lia. lia.
Qed.

Lemma valid_mantissa_bound (s : bool) (m : positive) (e : Z) :
  valid_binary 53 1024 (S754_finite s m e) = true → Zpos m < 2 ^ 53.
Proof.
  unfold valid_binary, bounded, canonical_mantissa, fexp. intros Hvalid.
  apply andb_prop in Hvalid as [Hcanon _]. apply Z.eqb_eq in Hcanon.
  pose proof (digits2_pos_bound m) as Hm.
  assert (Zpos (digits2_pos m) ≤ 53) as Hd by lia.
  eapply Z.lt_le_trans; [exact Hm|]. apply Z.pow_le_mono_r; lia.
Qed.

Lemma valid_normal_mantissa (s : bool) (m : positive) (e : Z) :
  valid_binary 53 1024 (S754_finite s m e) = true → -1074 < e → 2 ^ 52 ≤ Zpos m.
Proof.
  unfold valid_binary, bounded, canonical_mantissa, fexp, emin. intros Hvalid He.
  apply andb_prop in Hvalid as [Hcanon _]. apply Z.eqb_eq in Hcanon.
  pose proof (digits2_pos_lower_bound m) as Hm.
  assert (Zpos (digits2_pos m) = 53) as Hd by lia.
  rewrite Hd in Hm. exact Hm.
Qed.

(** Comparison of two positive finite numbers in canonical form. *)
Lemma SFleb_finite_refl (s : bool) (m : positive) (e : Z) :
  SFleb (S754_finite s m e) (S754_finite s m e) = true.
Proof.
  unfold SFleb, SFcompare. rewrite Z.compare_refl.
  change (PosDef.Pos.compare_cont Eq m m) with (Pos.compare m m).
  rewrite Pos.compare_refl. destruct s; reflexivity.
Qed.

Lemma SFleb_finite_pos (m m' : positive) (e e' : Z) :
  SFleb (S754_finite false m e) (S754_finite false m' e') = true →
  e < e' ∨ (e = e' ∧ Zpos m ≤ Zpos m').
Proof.
  unfold SFleb, SFcompare.
  change (PosDef.Pos.compare_cont Eq) with Pos.compare.
  destruct (Z.compare_spec e e') as [->|He|He].
  - destruct (Pos.compare_spec m m') as [->|Hlt|Hgt]; intros Hle.
    + right. split; [reflexivity | apply Z.le_refl].
    + right. split; [reflexivity | apply Z.lt_le_incl; exact Hlt].
    + discriminate Hle.
  - intros _. left. exact He.
  - intros Hle. discriminate Hle.
Qed.

(** Rounding never produces a NaN, so the product or the sum of a number
    with a finite constant is a NaN only when the number is one. *)
Section NoNaN.
Variables prec emax : Z.

Lemma shr_1_nonneg (mrs : shr_record) : 0 ≤ shr_m mrs → 0 ≤ shr_m (shr_1 mrs).
Proof. destruct mrs as [[|[p|p|]|[p|p|]] r s]; simpl; lia. Qed.

Lemma iter_pos_shr_1_nonneg (p : positive) (mrs : shr_record) :
  0 ≤ shr_m mrs → 0 ≤ shr_m (SpecFloat.iter_pos shr_1 p mrs).
Proof.
  revert mrs. induction p as [p IH|p IH|]; intros mrs Hm; simpl.
  - apply IH, IH, shr_1_nonneg, Hm.
  - apply IH, IH, Hm.
  - apply shr_1_nonneg, Hm.
Qed.

Lemma shr_fexp_nonneg (m e : Z) (l : location) :
  0 ≤ m → 0 ≤ shr_m (fst (shr_fexp prec emax m e l)).
Proof.
  intros Hm. unfold shr_fexp, shr.
  assert (0 ≤ shr_m (shr_record_of_loc m l)) as Hrec by (destruct l as [|[]]; exact Hm).
  destruct (fexp prec emax (Zdigits2 m + e) - e) as [|p|p]; cbn [fst];
    [exact Hrec | apply iter_pos_shr_1_nonneg, Hrec | exact Hrec].
Qed.

Lemma round_nearest_even_nonneg (m : Z) (l : location) :
  0 ≤ m → 0 ≤ round_nearest_even m l.
Proof.
  intros Hm. destruct l as [|[]]; cbn [round_nearest_even];
    try destruct (Z.even m); lia.
Qed.

Lemma binary_round_aux_not_nan (sx : bool) (mx ex : Z) (lx : location) :
  0 ≤ mx → binary_round_aux prec emax sx mx ex lx ≠ S754_nan.
Proof.
  intros Hm. unfold binary_round_aux.
  pose proof (shr_fexp_nonneg mx ex lx Hm) as H1.
  destruct (shr_fexp prec emax mx ex lx) as [mrs' e']. cbn [fst] in H1.
  pose proof (shr_fexp_nonneg _ e' loc_Exact
                (round_nearest_even_nonneg _ (loc_of_shr_record mrs') H1)) as H2.
  destruct (shr_fexp prec emax _ e' loc_Exact) as [mrs'' e'']. cbn [fst] in H2.
  destruct (shr_m mrs'') as [|m|m]; [discriminate| |lia].
  destruct (e'' <=? emax - prec); discriminate.
Qed.

Lemma binary_normalize_not_nan (m e : Z) (szero : bool) :
  binary_normalize prec emax m e szero ≠ S754_nan.
Proof.
  destruct m as [|m|m]; cbn [binary_normalize]; [discriminate|..];
    unfold binary_round; destruct (shl_align _ _ _) as [mz ez];
    apply binary_round_aux_not_nan; lia.
Qed.

Lemma SFmul_finite_not_nan (x : spec_float) (s : bool) (m : positive) (e : Z) :
  x ≠ S754_nan → SFmul prec emax x (S754_finite s m e) ≠ S754_nan.
Proof.
  intros Hx. destruct x as [sx|sx| |sx mx ex]; cbn [SFmul];
    [discriminate | discriminate | exact Hx |].
  apply binary_round_aux_not_nan. lia.
Qed.

Lemma SFadd_finite_not_nan (x : spec_float) (s : bool) (m : positive) (e : Z) :
  x ≠ S754_nan → SFadd prec emax x (S754_finite s m e) ≠ S754_nan.
Proof.
  intros Hx. destruct x as [sx|sx| |sx mx ex]; cbn [SFadd];
    [discriminate | discriminate | exact Hx |].
  apply binary_normalize_not_nan.
Qed.
End NoNaN.

(** ** 34. Slices and the central crop *)

Section Slicing.
Context {A : Type}.

Lemma py_slice_in_range (a b : Z) (l : list A) :
  0 ≤ a → a ≤ b → b ≤ Z.of_nat (length l) →
  py_slice a b l = take (Z.to_nat (b - a)) (drop (Z.to_nat a) l).
Proof.
  intros Ha Hab Hb. unfold py_slice, py_slice_bound.
  rewrite !(proj2 (Z.ltb_ge _ _)) by lia.
  rewrite !Z.min_l by lia. reflexivity.
Qed.

Lemma py_slice_length (a b : Z) (l : list A) :
  0 ≤ a → a ≤ b → b ≤ Z.of_nat (length l) →
  length (py_slice a b l) = Z.to_nat (b - a).
Proof.
  intros Ha Hab Hb. rewrite py_slice_in_range by assumption.
  rewrite length_take, length_drop. lia.
Qed.

Lemma py_slice_lookup (a b : Z) (l : list A) (i : nat) :
  0 ≤ a → a ≤ b → b ≤ Z.of_nat (length l) → (i < Z.to_nat (b - a))%nat →
  py_slice a b l !! i = l !! (Z.to_nat a + i)%nat.
Proof.
  intros Ha Hab Hb Hi. rewrite py_slice_in_range by assumption.
  rewrite lookup_take_lt by exact Hi. apply lookup_drop.
Qed.

Lemma py_slice_elem_of (a b : Z) (l : list A) (x : A) :
  x ∈ py_slice a b l → x ∈ l.
Proof.
  unfold py_slice. intros Hx.
  eapply subseteq_drop, subseteq_take, Hx.
Qed.

End Slicing.

Section Crop.
Context {A : Type}.

Lemma image_shape_has_shape (h w : nat) (im : list (list (list A))) :
  has_shape h w im → (0 < h)%nat → image_shape im = (h, w).
Proof.
  intros [Hh Hw] Hpos. unfold image_shape. rewrite Hh. f_equal.
  destruct Hw as [|row im Hrow _]; [simpl in Hh; lia | exact Hrow].
Qed.

Lemma central_crop_spec (h w : nat) (im : list (list (list A))) :
  has_shape h w im → (224 ≤ h)%nat → (224 ≤ w)%nat →
  has_shape 224 224 (central_crop im)
  ∧ ∀ i j : nat, (i < 224)%nat → (j < 224)%nat →
      central_crop im !! i ≫= (λ row, row !! j) =
      im !! (h / 2 - 112 + i)%nat ≫= (λ row, row !! (w / 2 - 112 + j)%nat).
Proof.
  intros Him Hh Hw. unfold central_crop.
  rewrite (image_shape_has_shape h w im Him) by lia.
  destruct Him as [Hlen Hrows].
  assert (Z.of_nat h / 2 = Z.of_nat (h / 2)) as Hh2 by (rewrite Nat2Z.inj_div; reflexivity).
  assert (Z.of_nat w / 2 = Z.of_nat (w / 2)) as Hw2 by (rewrite Nat2Z.inj_div; reflexivity).
  pose proof (Nat.div_mod_eq h 2) as Hhd. pose proof (Nat.mod_upper_bound h 2) as Hhm.
  pose proof (Nat.div_mod_eq w 2) as Hwd. pose proof (Nat.mod_upper_bound w 2) as Hwm.
  rewrite Hh2, Hw2.
  assert (∀ row, row ∈ py_slice (Z.of_nat (h / 2) - 112) (Z.of_nat (h / 2) + 112) im →
                 length row = w) as Hsliced.
  { intros row Hrow. apply py_slice_elem_of in Hrow.
    exact (proj1 (Forall_forall _ _) Hrows row Hrow). }
  split; [split|].
  - rewrite length_fmap, py_slice_length by lia. lia.
  - apply Forall_fmap, Forall_forall. intros row Hrow. cbv beta.
    unfold compose.
    rewrite py_slice_length; rewrite ?(Hsliced row Hrow); lia.
  - intros i j Hi Hj. rewrite list_lookup_fmap.
    rewrite py_slice_lookup by lia.
    replace (Z.to_nat (Z.of_nat (h / 2) - 112) + i)%nat with (h / 2 - 112 + i)%nat by lia.
    destruct (im !! (h / 2 - 112 + i)%nat) as [row|] eqn:Hrow; [|reflexivity].
    cbn [fmap option_fmap option_map mbind option_bind]. rewrite py_slice_lookup.
    + f_equal. lia.
    + lia.
    + lia.
    + rewrite (proj1 (Forall_forall _ _) Hrows row); [lia|].
      eapply list_elem_of_lookup_2, Hrow.
    + lia.
Qed.
End Crop.

(** X18.  The central crop of [prep_image], applied to an image with at
    least 224 rows and 224 columns, returns exactly 224 rows of 224
    pixels, and pixel [(i, j)] of the crop is pixel
    [(h//2 - 112 + i, w//2 - 112 + j)] of the image. *)
Theorem central_crop_is_the_centred_224_square
    {A : Type} (h w : nat) (im : list (list (list A))) :
  has_shape h w im → (224 ≤ h)%nat → (224 ≤ w)%nat →
  has_shape 224 224 (central_crop im)
  ∧ ∀ i j : nat, (i < 224)%nat → (j < 224)%nat →
      central_crop im !! i ≫= (λ row, row !! j) =
      im !! (h / 2 - 112 + i)%nat ≫= (λ row, row !! (w / 2 - 112 + j)%nat).
Proof. apply central_crop_spec. Qed.

Lemma central_crop_is_the_centred_224_square_witness :
  has_shape 224 224 (central_crop (replicate 300 (replicate 225 [0; 128; 255]))).
Proof.
  apply (central_crop_is_the_centred_224_square 300 225).
  - split; [apply length_replicate|].
    apply Forall_replicate, length_replicate.
  - apply Nat.leb_le. reflexivity.
  - apply Nat.leb_le. reflexivity.
Defined.

(** ** 35. [prep_image] *)

Section QcTrunc.
Local Open Scope Qc_scope.

Lemma Qc_trunc_lower_bound (q : Qc) (z : Z) :
  Qc_of_Z z ≤ q → (z ≤ Z.quot (Qnum q) (Zpos (Qden q)))%Z.
Proof.
  intros Hq. apply Z.quot_le_lower_bound; [lia|].
  unfold Qcle, Qle in Hq. simpl in Hq. lia.
Qed.

Lemma Qc_trunc_upper_bound (q : Qc) (z : Z) :
  q ≤ Qc_of_Z z → (0 ≤ z)%Z → (Z.quot (Qnum q) (Zpos (Qden q)) ≤ z)%Z.
Proof.
  intros Hq Hz. unfold Qcle, Qle in Hq. simpl in Hq.
  destruct (Z.le_gt_cases 0 (Qnum q)) as [Hpos|Hneg].
  - apply Z.quot_le_upper_bound; lia.
  - etransitivity; [|exact Hz].
    rewrite <- (Z.opp_involutive (Qnum q)), Z.quot_opp_l by lia.
    assert (0 ≤ Z.quot (- Qnum q) (Zpos (Qden q)))%Z; [|lia].
    apply Z.quot_pos; lia.
Qed.

Lemma Qc_trunc_of_Z (z : Z) : trunc (Qc_of_Z z) = Some z.
Proof.
  unfold trunc, Qc_trunc. f_equal. simpl. apply Z.quot_1_r.
Qed.

Lemma Qc_scaled_side_lower_bound (a b : nat) :
  (0 < b)%nat → (b ≤ a)%nat →
  Qc_of_Z 224 ≤ Qc_of_Z (Z.of_nat a * 224) / Qc_of_Z (Z.of_nat b).
Proof.
  intros Hb Hab.
  assert (0 < Qc_of_Z (Z.of_nat b)) as Hpos by (apply Qc_of_nat_pos; lia).
  apply (Qcmult_le_mono_pos_r _ _ _ Hpos).
  replace (Qc_of_Z (Z.of_nat a * 224) / Qc_of_Z (Z.of_nat b) * Qc_of_Z (Z.of_nat b))
    with (Qc_of_Z (Z.of_nat a * 224)).
  - rewrite <- Z2Qc_inj_mul. apply (proj1 (Z2Qc_inj_le _ _)). nia.
  - field. intros Hzero. rewrite Hzero in Hpos. revert Hpos.
    apply Qcle_not_lt, Qcle_refl.
Qed.
End QcTrunc.

Section PrepImageFacts.
Context {T V : Type} `{!Arith T, !Cast Qc T, !ImageExternals V}.

Lemma Qc_scaled_side (a b : nat) :
  (0 < b)%nat → (b ≤ a)%nat →
  ∃ n : nat, scaled_side (F := Qc) a b = Some n ∧ (224 ≤ n)%nat.
Proof.
  intros Hb Hab. unfold scaled_side.
  rewrite (proj2 (Nat.eqb_neq b 0)) by lia.
  eexists. split; [reflexivity|].
  apply (Z2Nat.inj_le 224); [lia| |].
  - etransitivity; [|apply Qc_trunc_lower_bound, (Qc_scaled_side_lower_bound a b Hb Hab)].
    lia.
  - apply Qc_trunc_lower_bound, (Qc_scaled_side_lower_bound a b Hb Hab).
Qed.

Lemma Qc_resize_size (h w : nat) :
  (0 < h)%nat → (0 < w)%nat →
  ∃ h' w' : nat, resize_size (F := Qc) h w = Some (h', w')
                 ∧ (224 ≤ h')%nat ∧ (224 ≤ w')%nat
                 ∧ (h' = 224 ∨ w' = 224)%nat.
Proof.
  intros Hh Hw. unfold resize_size.
  destruct (h <? w)%nat eqn:Hlt.
  - apply Nat.ltb_lt in Hlt.
    destruct (Qc_scaled_side w h Hh) as (n & -> & Hn); [lia|].
    exists 224%nat, n. simpl. repeat split; auto.
  - apply Nat.ltb_ge in Hlt.
    destruct (Qc_scaled_side h w Hw) as (n & -> & Hn); [lia|].
    exists n, 224%nat. simpl. repeat split; auto.
Qed.
End PrepImageFacts.

(** *** The sizes on Python floats *)

(** A valid binary64 number between 224 and 2^62 truncates to an integer
    that is at least 224. *)
Lemma trunc_at_least_224 (q : spec_float) :
  valid_binary 53 1024 q = true →
  SFleb c224 q = true → SFleb q c2p62 = true →
  ∃ z : Z, SFtrunc q = Some z ∧ 224 ≤ z.
Proof.
  intros Hvalid Hlo Hhi.
  destruct q as [s|s| |s m e]; try discriminate Hlo.
  - destruct s; discriminate.
  - destruct s; [discriminate Hlo|].
    apply SFleb_finite_pos in Hlo as [He|[<- Hm]].
    + pose proof (valid_normal_mantissa _ _ _ Hvalid ltac:(clear -He; lia)) as Hm.
      clear Hvalid Hhi. change (2 ^ 52) with 4503599627370496 in Hm.
      destruct e as [|e|e]; simpl SFtrunc.
      * eexists. split; [reflexivity|]. lia.
      * eexists. split; [reflexivity|].
        assert (0 < 2 ^ Zpos e) as Hpos by (apply Z.pow_pos_nonneg; lia).
        generalize dependent (2 ^ Zpos e). intros c Hpos. nia.
      * eexists. split; [reflexivity|].
        assert (2 ^ Zpos e ≤ 2 ^ 44) as Hpow by (apply Z.pow_le_mono_r; clear -He; lia).
        change (2 ^ 44) with 17592186044416 in Hpow.
        assert (0 < 2 ^ Zpos e) as Hpos by (apply Z.pow_pos_nonneg; lia).
        generalize dependent (2 ^ Zpos e). intros c Hc Hpos.
        apply Z.div_le_lower_bound; [exact Hpos|]. nia.
    + clear Hvalid Hhi. simpl SFtrunc. eexists. split; [reflexivity|].
      change (2 ^ 45) with 35184372088832.
      apply Z.div_le_lower_bound; lia.
Qed.

Lemma to_Z_of_Z_small (z : Z) : 0 ≤ z < 2 ^ 63 → Uint63.to_Z (Uint63.of_Z z) = z.
Proof. intros Hz. rewrite Uint63.of_Z_spec. apply Z.mod_small. exact Hz. Qed.

Lemma of_Z_succ (z : Z) :
  0 ≤ z < 2 ^ 62 → PrimInt63.add (Uint63.of_Z z) (Uint63.of_Z 1) = Uint63.of_Z (z + 1).
Proof.
  intros Hz. apply Uint63.to_Z_inj.
  rewrite Uint63.add_spec, !to_Z_of_Z_small by (change (2 ^ 63) with (2 * 2 ^ 62); lia).
  apply Z.mod_small. change Uint63.wB with (2 * 2 ^ 62). lia.
Qed.

Lemma of_Z_mul_224 (z : Z) :
  0 ≤ z < 2 ^ 32 → PrimInt63.mul (Uint63.of_Z z) (Uint63.of_Z 224) = Uint63.of_Z (z * 224).
Proof.
  intros Hz. apply Uint63.to_Z_inj.
  assert (2 ^ 32 * 224 < 2 ^ 63) as Hb by reflexivity.
  rewrite Uint63.mul_spec, !to_Z_of_Z_small by lia.
  apply Z.mod_small. change Uint63.wB with (2 ^ 63). lia.
Qed.

Lemma prim_row_checkb_spec (k224 : PrimInt63.int) (lo hi : PrimFloat.float)
    (a : PrimInt63.int) (n : nat) (b : Z) (j : nat) :
  prim_row_checkb (Uint63.of_Z 1) k224 lo hi a n (Uint63.of_Z b) = true →
  0 ≤ b → b + Z.of_nat n < 2 ^ 62 → (j < n)%nat →
  prim_scaled_side_checkb k224 lo hi a (Uint63.of_Z (b + Z.of_nat j)) = true.
Proof.
  revert b j. induction n as [|n IH]; intros b j Hchk Hb Hn Hj; [lia|].
  simpl in Hchk. apply andb_prop in Hchk as [Hhere Hchk].
  destruct j as [|j].
  - rewrite Z.add_0_r. exact Hhere.
  - rewrite of_Z_succ in Hchk by lia.
    replace (b + Z.of_nat (S j)) with (b + 1 + Z.of_nat j) by lia.
    apply IH; [exact Hchk|lia|lia|lia].
Qed.

Lemma prim_triangle_checkb_spec (k224 : PrimInt63.int) (lo hi : PrimFloat.float)
    (n k : nat) (a : Z) (i j : nat) :
  prim_triangle_checkb (Uint63.of_Z 1) k224 lo hi n k (Uint63.of_Z a) = true →
  0 ≤ a → a + Z.of_nat n < 2 ^ 62 → Z.of_nat k + Z.of_nat n < 2 ^ 61 →
  (i < n)%nat → (j < k + i)%nat →
  prim_scaled_side_checkb k224 lo hi (Uint63.of_Z (a + Z.of_nat i))
    (Uint63.of_Z (1 + Z.of_nat j)) = true.
Proof.
  revert k a i. induction n as [|n IH]; intros k a i Hchk Ha Hn Hk Hi Hj; [lia|].
  simpl in Hchk. apply andb_prop in Hchk as [Hrow Hchk].
  destruct i as [|i].
  - rewrite Z.add_0_r. eapply prim_row_checkb_spec; [exact Hrow|lia| |lia].
    change (2 ^ 62) with (2 * 2 ^ 61). lia.
  - rewrite of_Z_succ in Hchk by lia.
    replace (a + Z.of_nat (S i)) with (a + 1 + Z.of_nat i) by lia.
    apply (IH (S k)); [exact Hchk|lia|lia|lia|lia|lia].
Qed.

(** Every quotient [a*224/b] with [1 <= b <= a <= max_side], computed in
    binary64, lies between 224 and 2^62. *)
Lemma prim_sizes_checked :
  prim_triangle_checkb (Uint63.of_Z 1) (Uint63.of_Z 224)
    (prim_of_int 224) (prim_of_int (2 ^ 62)) max_side 1 (Uint63.of_Z 1) = true.
Proof. vm_cast_no_check (eq_refl true). Qed.

Lemma c224_spec : FloatOps.Prim2SF (prim_of_int 224) = c224.
Proof. rewrite prim_of_int_spec by (split; [lia|reflexivity]). reflexivity. Qed.

Lemma c2p62_spec : FloatOps.Prim2SF (prim_of_int (2 ^ 62)) = c2p62.
Proof. rewrite prim_of_int_spec by (split; reflexivity || discriminate). reflexivity. Qed.

Lemma binary64_scaled_side (a b : nat) :
  (0 < b)%nat → (b ≤ a)%nat → (a ≤ max_side)%nat →
  ∃ n : nat, scaled_side (F := binary64) a b = Some n ∧ (224 ≤ n)%nat.
Proof.
  intros Hb Hab Ha.
  assert (Z.of_nat max_side = 4096) as Hmax by reflexivity.
  pose proof (prim_triangle_checkb_spec _ _ _ max_side 1 1 (a - 1) (b - 1)
                prim_sizes_checked) as Hchk.
  rewrite Hmax in Hchk.
  specialize (Hchk ltac:(lia) ltac:(reflexivity) ltac:(reflexivity) ltac:(lia) ltac:(lia)).
  replace (1 + Z.of_nat (a - 1)) with (Z.of_nat a) in Hchk by lia.
  replace (1 + Z.of_nat (b - 1)) with (Z.of_nat b) in Hchk by lia.
  unfold prim_scaled_side_checkb in Hchk.
  assert (Z.of_nat a < 2 ^ 32) as Ha32.
  { apply Z.le_lt_trans with 4096; [lia|reflexivity]. }
  rewrite of_Z_mul_224 in Hchk by lia.
  apply andb_prop in Hchk as [Hlo Hhi].
  rewrite FloatAxioms.leb_spec, c224_spec in Hlo.
  rewrite FloatAxioms.leb_spec, c2p62_spec in Hhi.
  pose proof (FloatAxioms.Prim2SF_valid
                (PrimFloat.div (PrimFloat.of_uint63 (Uint63.of_Z (Z.of_nat a * 224)))
                               (PrimFloat.of_uint63 (Uint63.of_Z (Z.of_nat b))))) as Hvalid.
  fold (prim_of_int (Z.of_nat a * 224)) in Hlo, Hhi, Hvalid.
  fold (prim_of_int (Z.of_nat b)) in Hlo, Hhi, Hvalid.
  rewrite FloatAxioms.div_spec in Hlo, Hhi, Hvalid.
  assert (Z.of_nat a * 224 < 2 ^ 63) as Ha63.
  { apply Z.le_lt_trans with (4096 * 224); [lia|reflexivity]. }
  assert (Z.of_nat b < 2 ^ 63) as Hb63.
  { apply Z.le_lt_trans with 4096; [lia|reflexivity]. }
  rewrite !prim_of_int_spec in Hlo, Hhi, Hvalid by lia.
  destruct (trunc_at_least_224 _ Hvalid Hlo Hhi) as (z & Hz & Hz224).
  unfold scaled_side. destruct (Nat.eqb_spec b 0) as [->|_]; [lia|].
  exists (Z.to_nat z). split; [|lia].
  assert (trunc (of_int (Z.of_nat a * 224) / of_int (Z.of_nat b) : binary64)%num = Some z)
    as -> by exact Hz.
  reflexivity.
Qed.

Lemma binary64_resize_size (h w : nat) :
  (0 < h ≤ max_side)%nat → (0 < w ≤ max_side)%nat →
  ∃ h' w' : nat, resize_size (F := binary64) h w = Some (h', w')
                 ∧ (224 ≤ h')%nat ∧ (224 ≤ w')%nat
                 ∧ (h' = 224 ∨ w' = 224)%nat.
Proof.
  intros [Hh Hh'] [Hw Hw']. unfold resize_size.
  destruct (h <? w)%nat eqn:Hlt.
  - apply Nat.ltb_lt in Hlt.
    destruct (binary64_scaled_side w h) as (n & -> & Hn); [lia..|].
    exists 224%nat, n. simpl. repeat split; auto.
  - apply Nat.ltb_ge in Hlt.
    destruct (binary64_scaled_side h w) as (n & -> & Hn); [lia..|].
    exists n, 224%nat. simpl. repeat split; auto.
Qed.

(** Once the size is computed, [prep_image] returns the central crop of
    the resized image and its scaling. *)
Lemma prep_image_of_resize_size
    {F T V : Type} `{!Arith F, !Arith T, !Cast F T, !Trunc F, !ImageExternals V}
    (im : ndarray_image V) (h w h' w' : nat) :
  (∀ img size, has_shape (fst size) (snd size) (imresize img size)) →
  image_shape (as_color im) = (h, w) →
  resize_size (F := F) h w = Some (h', w') → (224 ≤ h')%nat → (224 ≤ w')%nat →
  ∃ (rawim : list (list (list Z))) (out : list (list (list T))),
    prep_image (F := F) im = Some (rawim, out)
    ∧ has_shape 224 224 rawim
    ∧ has_shape 224 224 out
    ∧ out = fmap (M := list) (fmap (M := list)
              (fmap (M := list) (rescale_pixel (F := F)))) rawim.
Proof.
  intros Hresize Hshape Hsize Hh' Hw'. unfold prep_image. rewrite Hshape, Hsize.
  simpl. eexists _, _. split; [reflexivity|].
  destruct (central_crop_spec h' w' (imresize (as_color im) (h', w'))
              (Hresize _ (h', w')) Hh' Hw') as [[Hrows Hcols] _].
  split; [split; assumption|]. split; [|reflexivity].
  split; [rewrite length_fmap; exact Hrows|].
  apply Forall_fmap. eapply Forall_impl; [exact Hcols|].
  intros row Hrow. simpl. rewrite length_fmap. exact Hrow.
Qed.

(** X19.  In exact arithmetic, for an image with at least one row and one
    column and an [imresize] that returns the size it is asked for,
    [prep_image] succeeds and returns two images of 224 rows and 224
    columns: the [uint8] crop, and its elementwise scaling
    [(v/255 - 0.5) * 2]. *)
Theorem prep_image_returns_224_by_224_images
    {T V : Type} `{!Arith T, !Cast Qc T, !ImageExternals V}
    (im : ndarray_image V) (h w : nat) :
  (∀ img size, has_shape (fst size) (snd size) (imresize img size)) →
  image_shape (as_color im) = (h, w) → (0 < h)%nat → (0 < w)%nat →
  ∃ (rawim : list (list (list Z))) (out : list (list (list T))),
    prep_image (F := Qc) im = Some (rawim, out)
    ∧ has_shape 224 224 rawim
    ∧ has_shape 224 224 out
    ∧ out = fmap (M := list) (fmap (M := list)
              (fmap (M := list) (rescale_pixel (F := Qc)))) rawim.
Proof.
  intros Hresize Hshape Hh Hw.
  destruct (Qc_resize_size h w Hh Hw) as (h' & w' & Hsize & Hh' & Hw' & _).
  exact (prep_image_of_resize_size im h w h' w' Hresize Hshape Hsize Hh' Hw').
Qed.

Lemma prep_image_returns_224_by_224_images_witness :
  ∃ (rawim : list (list (list Z))) (out : list (list (list Qc))),
    prep_image (F := Qc) (ImageExternals0 := test_resize)
      (Gray [[7; 8; 9]; [1; 2; 3]]) = Some (rawim, out)
    ∧ has_shape 224 224 rawim
    ∧ has_shape 224 224 out
    ∧ out = fmap (M := list) (fmap (M := list)
              (fmap (M := list) (rescale_pixel (F := Qc)))) rawim.
Proof.
  apply (prep_image_returns_224_by_224_images (T := Qc)
           (ImageExternals0 := test_resize) (Gray [[7; 8; 9]; [1; 2; 3]]) 2 3).
  - intros img [h w]. split; [apply length_replicate|].
    apply Forall_replicate, length_replicate.
  - reflexivity.
  - lia.
  - lia.
Defined.

(** X25.  The same with the sizes computed as Python computes them, in
    binary64: for an image whose sides are between 1 and 4096 pixels and
    an [imresize] that returns the size it is asked for, [int(w*224/h)]
    (or [int(h*224/w)]) is at least 224, and [prep_image] succeeds and
    returns two images of 224 rows and 224 columns. *)
Theorem prep_image_with_python_floats_returns_224_by_224_images
    {T V : Type} `{!Arith T, !Cast binary64 T, !ImageExternals V}
    (im : ndarray_image V) (h w : nat) :
  (∀ img size, has_shape (fst size) (snd size) (imresize img size)) →
  image_shape (as_color im) = (h, w) →
  (0 < h ≤ max_side)%nat → (0 < w ≤ max_side)%nat →
  (∃ h' w' : nat, resize_size (F := binary64) h w = Some (h', w')
                  ∧ (224 ≤ h')%nat ∧ (224 ≤ w')%nat ∧ (h' = 224 ∨ w' = 224)%nat)
  ∧ ∃ (rawim : list (list (list Z))) (out : list (list (list T))),
      prep_image (F := binary64) im = Some (rawim, out)
      ∧ has_shape 224 224 rawim
      ∧ has_shape 224 224 out
      ∧ out = fmap (M := list) (fmap (M := list)
                (fmap (M := list) (rescale_pixel (F := binary64)))) rawim.
Proof.
  intros Hresize Hshape Hh Hw.
  destruct (binary64_resize_size h w Hh Hw) as (h' & w' & Hsize & Hh' & Hw' & Hmin).
  split; [exists h', w'; repeat split; assumption|].
  exact (prep_image_of_resize_size im h w h' w' Hresize Hshape Hsize Hh' Hw').
Qed.

Lemma prep_image_with_python_floats_returns_224_by_224_images_witness :
  (∃ h' w' : nat, resize_size (F := binary64) 2 3 = Some (h', w')
                  ∧ (224 ≤ h')%nat ∧ (224 ≤ w')%nat ∧ (h' = 224 ∨ w' = 224)%nat)
  ∧ ∃ (rawim : list (list (list Z))) (out : list (list (list binary32))),
      prep_image (F := binary64) (ImageExternals0 := test_resize)
        (Gray [[7; 8; 9]; [1; 2; 3]]) = Some (rawim, out)
      ∧ has_shape 224 224 rawim
      ∧ has_shape 224 224 out
      ∧ out = fmap (M := list) (fmap (M := list)
                (fmap (M := list) (rescale_pixel (F := binary64)))) rawim.
Proof.
  apply (prep_image_with_python_floats_returns_224_by_224_images (T := binary32)
           (ImageExternals0 := test_resize) (Gray [[7; 8; 9]; [1; 2; 3]]) 2 3).
  - intros img [h w]. split; [apply length_replicate|].
    apply Forall_replicate, length_replicate.
  - reflexivity.
  - unfold max_side. lia.
  - unfold max_side. lia.
Defined.

(** ** 36. The scaling of pixel values *)

Lemma SFltb_trans x y z : SFltb x y = true → SFltb y z = true → SFltb x z = true.
Proof.
  unfold SFltb, SFcompare.
  destruct x as [sx|sx| |sx mx ex], y as [sy|sy| |sy my ey], z as [sz|sz| |sz mz ez];
    try (destruct sx); try (destruct sy); try (destruct sz); try done.
  all: change (PosDef.Pos.compare_cont Eq) with Pos.compare.
  all: destruct (Z.compare_spec ex ey), (Z.compare_spec ey ez), (Z.compare_spec ex ez);
       try done; try lia; subst.
  all: destruct (Pos.compare_spec mx my), (Pos.compare_spec my mz), (Pos.compare_spec mx mz);
       simpl; try done; try lia.
Qed.

Lemma range_checkb_spec (f : Z → bool) (n : nat) (z v : Z) :
  range_checkb f n z = true → z ≤ v < z + Z.of_nat n → f v = true.
Proof.
  revert z. induction n as [|n IH]; intros z Hchk Hv; [lia|].
  simpl in Hchk. apply andb_prop in Hchk as [Hz Hchk].
  destruct (decide (v = z)) as [->|Hne]; [exact Hz|].
  apply (IH (z + 1) Hchk). lia.
Qed.

Lemma rescale_checked : range_checkb rescale_checkb 255 0 = true.
Proof. vm_compute. reflexivity. Qed.

Lemma widen_checked : range_checkb widen_checkb 256 0 = true.
Proof. vm_compute. reflexivity. Qed.

Lemma display_checked : range_checkb display_checkb 256 0 = true.
Proof. vm_compute. reflexivity. Qed.

Lemma rescale32_step (v : Z) :
  0 ≤ v < 255 → SFltb (b32 (rescale32 v)) (b32 (rescale32 (v + 1))) = true.
Proof. intros Hv. apply (range_checkb_spec _ _ _ v rescale_checked). lia. Qed.

Lemma rescale32_increasing (u v : Z) :
  0 ≤ u → u < v → v ≤ 255 →
  SFltb (b32 (rescale32 u)) (b32 (rescale32 v)) = true.
Proof.
  intros Hu Huv Hv.
  replace v with (u + 1 + Z.of_nat (Z.to_nat (v - u - 1))) in * by lia.
  generalize dependent (Z.to_nat (v - u - 1)). intros k _ Hk.
  induction k as [|k IH].
  - rewrite Z.add_0_r. apply rescale32_step. lia.
  - apply (SFltb_trans _ (b32 (rescale32 (u + 1 + Z.of_nat k)))).
    + apply IH. lia.
    + replace (u + 1 + Z.of_nat (S k)) with (u + 1 + Z.of_nat k + 1) by lia.
      apply rescale32_step. lia.
Qed.

(** X20.  On float32 tensors the scaling of [prep_image] sends the pixel
    value 0 to [-1.0] and 255 to [1.0] exactly, and it is strictly
    increasing on the [uint8] values: distinct pixel values stay distinct
    and every scaled value lies in [[-1, 1]]. *)
Theorem rescale_maps_uint8_into_unit_range :
  rescale32 0 = B32 (S754_finite true 8388608 (-23))
  ∧ rescale32 255 = B32 (S754_finite false 8388608 (-23))
  ∧ (∀ u v : Z, 0 ≤ u → u < v → v ≤ 255 →
       SFltb (b32 (rescale32 u)) (b32 (rescale32 v)) = true)
  ∧ (∀ v : Z, 0 ≤ v ≤ 255 →
       fleb (rescale32 0) (rescale32 v) = true
       ∧ fleb (rescale32 v) (rescale32 255) = true).
Proof.
  split; [vm_compute; reflexivity|]. split; [vm_compute; reflexivity|].
  split; [exact rescale32_increasing|].
  intros v Hv.
  assert (∀ x y, SFltb x y = true → SFleb x y = true) as Hweak.
  { intros x y. unfold SFltb, SFleb. destruct (SFcompare x y) as [[]|]; done. }
  split.
  - destruct (decide (v = 0)) as [->|Hne]; [vm_compute; reflexivity|].
    apply Hweak, rescale32_increasing; lia.
  - destruct (decide (v = 255)) as [->|Hne]; [vm_compute; reflexivity|].
    apply Hweak, rescale32_increasing; lia.
Qed.

Lemma rescale_maps_uint8_into_unit_range_witness :
  SFltb (b32 (rescale32 17)) (b32 (rescale32 200)) = true
  ∧ fleb (rescale32 128) (rescale32 255) = true.
Proof.
  destruct rescale_maps_uint8_into_unit_range as (_ & _ & Hlt & Hle). split.
  - apply (Hlt 17 200); lia.
  - apply (Hle 128). lia.
Defined.

(** ** 37. From the prepared photo to the optimiser and back *)

Section ReshapeRoundTrip.
Context {A : Type}.

Lemma has_shape3_rows (h w c : nat) (im : list (list (list A))) :
  has_shape3 h w c im →
  Forall (λ row, length row = w) im
  ∧ Forall (λ px, length px = c) (concat im)
  ∧ length (concat im) = (h * w)%nat.
Proof.
  intros [Hh Hrows].
  assert (Forall (λ row, length row = w) im) as Hw.
  { eapply Forall_impl; [exact Hrows|]. intros row [Hrow _]. exact Hrow. }
  split; [exact Hw|]. split.
  - apply Forall_concat. eapply Forall_impl; [exact Hrows|].
    intros row [_ Hpx]. exact Hpx.
  - rewrite (length_concat_uniform _ w Hw), Hh. reflexivity.
Qed.

Lemma np_reshape3_flatten (h w c : nat) (im : list (list (list A))) :
  (0 < w)%nat → (0 < c)%nat → has_shape3 h w c im →
  np_reshape3 h w c (np_flatten im) = Some im.
Proof.
  intros Hw Hc Him. destruct (has_shape3_rows h w c im Him) as (Hrows & Hpx & Hlen).
  unfold np_reshape3, np_flatten.
  rewrite (length_concat_uniform _ c Hpx), Hlen, Nat.eqb_refl.
  rewrite (tf_reshape_concat _ c Hc Hpx), (tf_reshape_concat _ w Hw Hrows).
  reflexivity.
Qed.

Lemma tf_reshape_fmap {B} (f : A → B) (flat : list A) (n : nat) :
  tf_reshape (f <$> flat) n = fmap (M := list) (fmap (M := list) f) (tf_reshape flat n).
Proof.
  unfold tf_reshape. rewrite length_fmap, <- list_fmap_compose.
  apply list_fmap_ext. intros _ r _. simpl.
  rewrite fmap_take, fmap_drop. reflexivity.
Qed.
End ReshapeRoundTrip.

Lemma np_reshape3_fmap {A B} (f : A → B) (h w c : nat) (x : list A) :
  np_reshape3 h w c (f <$> x) =
    fmap (M := list) (fmap (M := list) (fmap (M := list) f)) <$> np_reshape3 h w c x.
Proof.
  unfold np_reshape3. rewrite length_fmap.
  destruct (length x =? h * w * c)%nat; [|reflexivity]. simpl. f_equal.
  rewrite !tf_reshape_fmap. reflexivity.
Qed.

Lemma Forall_fmap_id {A} (f : A → A) (l : list A) :
  Forall (λ x, f x = x) l → f <$> l = l.
Proof.
  induction 1 as [|x l Hx _ IH]; [reflexivity|].
  rewrite fmap_cons, Hx, IH. reflexivity.
Qed.

Section FirstEvaluation.
Context {F T : Type} `{!Arith F, !Arith T, !Cast F T, !Cast T F}.

Lemma x_image_x0_init (n : nat) (im : list (list (list T))) :
  (0 < n)%nat → has_shape3 n n 3 im →
  Forall (Forall (Forall (λ v : T, cast (cast v : F) = v))) im →
  x_image n (x0_init im) = Some im.
Proof.
  intros Hn Him Hcast. unfold x_image, x0_init.
  rewrite np_reshape3_fmap, np_reshape3_flatten by (assumption || lia).
  simpl. f_equal. rewrite <- list_fmap_compose.
  apply Forall_fmap_id. eapply Forall_impl; [exact Hcast|].
  intros row Hrow. simpl. rewrite <- list_fmap_compose.
  apply Forall_fmap_id. eapply Forall_impl; [exact Hrow|].
  intros px Hpx. simpl. rewrite <- list_fmap_compose.
  apply Forall_fmap_id. exact Hpx.
Qed.
End FirstEvaluation.

(** X21.  The optimiser starts at the photo: for an image of shape
    [image_size x image_size x 3] whose elements are scaled [uint8]
    values, as [prep_image] returns them, flattening it to the float64
    vector [x0] and rebuilding the float32 [x_image] from [x0] gives the
    image back, so the first loss evaluated is the loss of the photo
    itself. *)
Theorem first_evaluation_is_at_the_prepared_photo
    `{!TfExternals binary64 binary32} (image_size : nat)
    (P S : gmap string (tensor4 binary32)) (art_image : list (list (list binary32))) :
  (0 < image_size)%nat →
  has_shape3 image_size image_size 3 art_image →
  Forall (Forall (Forall (λ x, ∃ v : Z, 0 ≤ v ≤ 255 ∧ x = rescale32 v))) art_image →
  x_image (F := binary64) image_size (x0_init art_image) = Some art_image
  ∧ eval_loss image_size P S (x0_init art_image) =
      (cast (F := binary32) (T := binary64)) <$> total_loss (F := binary64) P S art_image.
Proof.
  intros Hn Hshape Hpx.
  assert (x_image (F := binary64) image_size (x0_init art_image) = Some art_image) as Himg.
  { apply x_image_x0_init; [exact Hn | exact Hshape |].
    eapply Forall_impl; [exact Hpx|]. intros row Hrow.
    eapply Forall_impl; [exact Hrow|]. intros px Hvals.
    eapply Forall_impl; [exact Hvals|]. intros x (v & Hv & ->).
    assert (widen_checkb v = true) as Hchk
      by (apply (range_checkb_spec _ _ _ v widen_checked); lia).
    exact (bool_decide_eq_true_1 _ Hchk). }
  split; [exact Himg|].
  unfold eval_loss. rewrite Himg. simpl.
  destruct (total_loss P S art_image); reflexivity.
Qed.

Lemma first_evaluation_is_at_the_prepared_photo_witness :
  x_image (F := binary64) 2 (x0_init (test_art_image (F := binary64))) =
    Some (test_art_image (F := binary64) (T := binary32)).
Proof.
  destruct (first_evaluation_is_at_the_prepared_photo
              (TfExternals0 := test_tf_externals) 2
              (test_features 1) (test_features 1) (test_art_image (F := binary64)))
    as [Himg _]; [| | |exact Himg].
  - lia.
  - split; [reflexivity|]. apply Forall_replicate.
    split; [reflexivity|]. apply Forall_replicate. reflexivity.
  - do 2 apply Forall_replicate.
    apply Forall_cons; split; [exists 0; split; [lia | reflexivity]|].
    apply Forall_cons; split; [exists 128; split; [lia | reflexivity]|].
    apply Forall_cons; split; [exists 255; split; [lia | reflexivity]|].
    constructor.
Defined.


(** ** 38. Converting the result for display *)

Section QcDisplay.
Local Open Scope Qc_scope.

Lemma Qc_rescale_inverse (q : Qc) :
  ((q / Qc_of_Z 255 - Qc_of_Z 1 / Qc_of_Z 2) * Qc_of_Z 2
   * (Qc_of_Z 1 / Qc_of_Z 2) + Qc_of_Z 1 / Qc_of_Z 2) * Qc_of_Z 255 = q.
Proof.
  assert (Qc_of_Z 2 * (Qc_of_Z 1 / Qc_of_Z 2) = 1) as Hhalf
    by (apply Qc_is_canon; reflexivity).
  assert (q / Qc_of_Z 255 * Qc_of_Z 255 = q) as Hdiv.
  { unfold Qcdiv.
    rewrite <- Qcmult_assoc, (Qcmult_comm (/ _)), Qcmult_inv_r, Qcmult_1_r;
      [reflexivity | discriminate]. }
  generalize dependent (Qc_of_Z 1 / Qc_of_Z 2). intros h Hhalf.
  generalize dependent (q / Qc_of_Z 255). intros x Hdiv.
  generalize dependent (Qc_of_Z 255). intros c Hdiv.
  generalize dependent (Qc_of_Z 2). intros two Hhalf.
  replace (((x - h) * two * h + h) * c)
    with ((x * c) * (two * h) - h * c * (two * h) + h * c) by ring.
  rewrite Hhalf, Hdiv. ring.
Qed.

Lemma Qc_np_clip_bounds (x lo hi : Qc) :
  lo ≤ hi → lo ≤ np_clip x lo hi ∧ np_clip x lo hi ≤ hi.
Proof.
  intros Hbounds. unfold np_clip. simpl.
  rewrite (bool_decide_eq_true_2 _ (Qcle_refl x)).
  destruct (bool_decide (lo ≤ x)) eqn:Hlo.
  - apply bool_decide_eq_true_1 in Hlo.
    destruct (bool_decide (x ≤ hi)) eqn:Hhi.
    + apply bool_decide_eq_true_1 in Hhi. split; assumption.
    + split; [exact Hbounds | apply Qcle_refl].
  - rewrite (bool_decide_eq_true_2 _ Hbounds). split; [apply Qcle_refl | exact Hbounds].
Qed.
End QcDisplay.

(** A float that truncates to a [uint8] value is converted to it, on
    every platform. *)
Lemma astype_uint8_specified {F : Type} `{!Trunc F, !Uint8Externals F} (x : F) (z : Z) :
  uint8_of_float x = Some z → astype_uint8 x = z.
Proof. unfold astype_uint8. intros ->. reflexivity. Qed.

Lemma Qc_display_of_scaled (v : Z) :
  0 ≤ v ≤ 255 →
  uint8_of_float (art_raw (rescale_pixel (F := Qc) (T := Qc) v)) = Some v.
Proof.
  intros Hv. unfold art_raw, rescale_pixel. qc_ops.
  rewrite Qc_rescale_inverse.
  unfold uint8_of_float, np_clip.
  assert (fleb (Qc_of_Z v) (Qc_of_Z v) = true) as ->.
  { apply bool_decide_eq_true_2, Qcle_refl. }
  assert (fleb (Qc_of_Z 0) (Qc_of_Z v) = true) as ->.
  { apply bool_decide_eq_true_2, (proj1 (Z2Qc_inj_le _ _)). lia. }
  assert (fleb (Qc_of_Z v) (Qc_of_Z 255) = true) as ->.
  { apply bool_decide_eq_true_2, (proj1 (Z2Qc_inj_le _ _)). lia. }
  rewrite Qc_trunc_of_Z. cbn [mbind option_bind].
  rewrite bool_decide_eq_true_2 by lia. reflexivity.
Qed.

(** X22.  Scaling a pixel value for the network and converting it back
    for display is the identity in exact arithmetic, but not in the
    notebook's floats: there the [uint8] value [v] comes back as [v] or as
    [v - 1], because [astype('uint8')] truncates; 0 and 255 come back
    unchanged and 1 comes back as 0.  None of this depends on the
    platform. *)
Theorem display_of_a_scaled_pixel :
  (∀ (platform : Uint8Externals Qc) (v : Z), 0 ≤ v ≤ 255 →
     astype_uint8 (art_raw (rescale_pixel (F := Qc) (T := Qc) v)) = v)
  ∧ (∀ (platform : Uint8Externals binary64) (v : Z), 0 ≤ v ≤ 255 →
       display_of_pixel v = v ∨ display_of_pixel v = v - 1)
  ∧ (∀ platform : Uint8Externals binary64,
       display_of_pixel 0 = 0 ∧ display_of_pixel 255 = 255 ∧ display_of_pixel 1 = 0).
Proof.
  split; [intros platform v Hv; apply astype_uint8_specified, Qc_display_of_scaled, Hv|].
  split.
  - intros platform v Hv.
    assert (display_checkb v = true) as Hchk
      by (apply (range_checkb_spec _ _ _ v display_checked); lia).
    destruct (bool_decide_eq_true_1 _ Hchk) as [Hsame|Hless];
      [left | right]; apply astype_uint8_specified; assumption.
  - intros platform.
    repeat split; apply astype_uint8_specified; vm_compute; reflexivity.
Qed.

Lemma display_of_a_scaled_pixel_witness :
  astype_uint8 (Uint8Externals0 := λ _, 0)
    (art_raw (rescale_pixel (F := Qc) (T := Qc) 77)) = 77
  ∧ (display_of_pixel (Uint8Externals0 := nan_to_zero) 77 = 77
     ∨ display_of_pixel (Uint8Externals0 := nan_to_zero) 77 = 77 - 1).
Proof.
  destruct display_of_a_scaled_pixel as (HQ & H64 & _). split.
  - apply (HQ (λ _, 0) 77). lia.
  - apply (H64 nan_to_zero 77). lia.
Defined.

(** *** Binary64 values between 0 and 255 *)

Lemma of_int_255 : (of_int 255 : binary64) = B64 uint8_max.
Proof. vm_compute. reflexivity. Qed.

Lemma of_int_0 : (of_int 0 : binary64) = B64 (S754_zero false).
Proof. vm_compute. reflexivity. Qed.

Lemma uint8_of_float_finite (m p : positive) :
  0 ≤ Zpos m / 2 ^ Zpos p ≤ 255 →
  uint8_of_float (B64 (S754_finite false m (Zneg p))) = Some (Zpos m / 2 ^ Zpos p).
Proof.
  intros Hz. unfold uint8_of_float.
  change (trunc (B64 (S754_finite false m (Zneg p)))) with (Some (Zpos m / 2 ^ Zpos p)).
  unfold mbind, option_bind. rewrite bool_decide_eq_true_2 by lia. reflexivity.
Qed.

Lemma div_bound_45 (m : positive) :
  Zpos m ≤ 8972014882652160 → 0 ≤ Zpos m / 2 ^ 45 ≤ 255.
Proof.
  intros Hle. change (2 ^ 45) with 35184372088832.
  split; [apply Z.div_pos; lia|].
  apply Z.div_le_upper_bound; lia.
Qed.

Lemma div_bound_46 (m e : positive) :
  Zpos m < 2 ^ 53 → 46 ≤ Zpos e → 0 ≤ Zpos m / 2 ^ Zpos e ≤ 255.
Proof.
  intros Hm He.
  assert (2 ^ 46 ≤ 2 ^ Zpos e) as Hpow by (apply Z.pow_le_mono_r; lia).
  change (2 ^ 46) with 70368744177664 in Hpow.
  change (2 ^ 53) with 9007199254740992 in Hm.
  generalize dependent (2 ^ Zpos e). intros c Hc.
  split; [apply Z.div_pos; lia|].
  apply Z.div_le_upper_bound; lia.
Qed.


Lemma uint8_of_float_max : uint8_of_float (B64 uint8_max) = Some 255.
Proof. vm_compute. reflexivity. Qed.

Lemma uint8_of_float_zero : uint8_of_float (B64 (S754_zero false)) = Some 0.
Proof. vm_compute. reflexivity. Qed.

Lemma SFleb_uint8_max_bound (m : positive) (e : Z) :
  Zpos m < 2 ^ 53 →
  SFleb (S754_finite false m e) uint8_max = true →
  ∃ p : positive, e = Zneg p ∧ 0 ≤ Zpos m / 2 ^ Zpos p ≤ 255.
Proof.
  intros Hm Hle. apply SFleb_finite_pos in Hle as [He|[-> Hle]].
  - destruct e as [|e|e]; [exfalso; clear -He; lia | exfalso; clear -He; lia |].
    exists e. split; [reflexivity|]. apply div_bound_46; [exact Hm | clear -He; lia].
  - exists 45%positive. split; [reflexivity|]. apply div_bound_45. exact Hle.
Qed.

Lemma np_clip_finite (s : bool) (m : positive) (e : Z) :
  np_clip (B64 (S754_finite s m e)) (B64 (S754_zero false)) (B64 uint8_max) =
    if s then B64 (S754_zero false)
    else if SFleb (S754_finite false m e) uint8_max then B64 (S754_finite false m e)
         else B64 uint8_max.
Proof.
  unfold np_clip, fleb, binary64_arith, b64. rewrite SFleb_finite_refl.
  destruct s; reflexivity.
Qed.

Lemma clip_to_uint8 (t : spec_float) :
  valid_binary 53 1024 t = true → t ≠ S754_nan →
  ∃ z : Z, uint8_of_float (np_clip (B64 t) (of_int 0) (of_int 255)) = Some z
           ∧ 0 ≤ z ≤ 255.
Proof.
  intros Hvalid Hnan. rewrite of_int_255, of_int_0.
  destruct t as [s|[]| |s m e].
  - exists 0. destruct s; (split; [vm_compute; reflexivity | clear; lia]).
  - exists 0. split; [vm_compute; reflexivity | clear; lia].
  - exists 255. split; [vm_compute; reflexivity | clear; lia].
  - contradiction.
  - rewrite np_clip_finite. destruct s.
    + exists 0. split; [exact uint8_of_float_zero | clear; lia].
    + pose proof (valid_mantissa_bound _ _ _ Hvalid) as Hm. clear Hvalid Hnan.
      destruct (SFleb (S754_finite false m e) uint8_max) eqn:Hle.
      * destruct (SFleb_uint8_max_bound m e Hm Hle) as (p & -> & Hz).
        exists (Zpos m / 2 ^ Zpos p). split; [|exact Hz].
        apply (uint8_of_float_finite m p Hz).
      * exists 255. split; [exact uint8_of_float_max | clear; lia].
Qed.

Lemma of_int_half :
  (of_int 1 / of_int 2 : binary64)%num = B64 (S754_finite false 4503599627370496 (-53)).
Proof. vm_compute. reflexivity. Qed.

(** The value that [art_raw] clips is a binary64 number, and a NaN only
    when the element is a NaN. *)
Lemma art_raw_valid (x : spec_float) :
  valid_binary 53 1024 x = true →
  ∃ t, art_raw (B64 x) = np_clip (B64 t) (of_int 0) (of_int 255)
       ∧ valid_binary 53 1024 t = true
       ∧ (x ≠ S754_nan → t ≠ S754_nan).
Proof.
  intros Hx.
  exists (b64 ((B64 x * (of_int 1 / of_int 2) + of_int 1 / of_int 2) * of_int 255)%num).
  split; [reflexivity|]. split.
  - rewrite <- (FloatAxioms.Prim2SF_SF2Prim x Hx).
    set (p := FloatOps.SF2Prim x).
    pose proof (FloatAxioms.Prim2SF_valid
                  (PrimFloat.mul
                     (PrimFloat.add
                        (PrimFloat.mul p (PrimFloat.div (prim_of_int 1) (prim_of_int 2)))
                        (PrimFloat.div (prim_of_int 1) (prim_of_int 2)))
                     (prim_of_int 255))) as Hvalid.
    rewrite FloatAxioms.mul_spec, FloatAxioms.add_spec, FloatAxioms.mul_spec,
      FloatAxioms.div_spec, !prim_of_int_spec in Hvalid by lia.
    exact Hvalid.
  - intros Hnan. rewrite of_int_half, of_int_255.
    cbn [fmul fadd binary64_arith b64]. unfold uint8_max.
    apply SFmul_finite_not_nan, SFadd_finite_not_nan, SFmul_finite_not_nan, Hnan.
Qed.

(** X23.  The displayed image is always a valid [uint8] image.  Whatever
    element the optimiser returns other than a NaN, in exact arithmetic and
    for every binary64 number (the infinities included), its value in
    [art_raw] is clipped to [[0, 255]] and [astype('uint8')] converts it to
    an integer between 0 and 255 that does not depend on the platform.  A
    NaN passes through [np.clip]; its [uint8] value is the one the
    platform's conversion gives, 0 where that conversion gives 0. *)
Theorem displayed_values_are_uint8 :
  (∀ x : Qc, ∃ z : Z, 0 ≤ z ≤ 255
     ∧ ∀ platform : Uint8Externals Qc, astype_uint8 (art_raw x) = z)
  ∧ (∀ x : spec_float, valid_binary 53 1024 x = true → x ≠ S754_nan →
       ∃ z : Z, 0 ≤ z ≤ 255
         ∧ ∀ platform : Uint8Externals binary64, astype_uint8 (art_raw (B64 x)) = z)
  ∧ (∀ platform : Uint8Externals binary64,
       art_raw (B64 S754_nan) = B64 S754_nan
       ∧ astype_uint8 (art_raw (B64 S754_nan)) =
           unspecified_uint8 (B64 S754_nan) `mod` 256
       ∧ 0 ≤ astype_uint8 (art_raw (B64 S754_nan)) ≤ 255)
  ∧ astype_uint8 (Uint8Externals0 := nan_to_zero) (art_raw (B64 S754_nan)) = 0.
Proof.
  split; [|split; [|split; [|reflexivity]]].
  - intros x. unfold art_raw.
    match goal with |- context [np_clip ?y ?lo ?hi] =>
      destruct (Qc_np_clip_bounds y lo hi) as [Hlo Hhi]; [discriminate|];
      generalize dependent (np_clip y lo hi) end.
    intros r Hlo Hhi.
    pose proof (Qc_trunc_lower_bound r 0 Hlo) as Hz0.
    pose proof (Qc_trunc_upper_bound r 255 Hhi ltac:(lia)) as Hz1.
    eexists. split; [|intros platform; apply astype_uint8_specified].
    2: { unfold uint8_of_float, trunc, Qc_trunc. cbn [mbind option_bind].
         rewrite bool_decide_eq_true_2 by lia. reflexivity. }
    lia.
  - intros x Hx Hnan. destruct (art_raw_valid x Hx) as (t & -> & Ht & Htnan).
    destruct (clip_to_uint8 t Ht (Htnan Hnan)) as (z & Hz & Hrange).
    exists z. split; [exact Hrange|].
    intros platform. apply astype_uint8_specified, Hz.
  - intros platform. split; [reflexivity|]. split; [reflexivity|].
    change (astype_uint8 (art_raw (B64 S754_nan)))
      with (unspecified_uint8 (B64 S754_nan) `mod` 256).
    pose proof (Z.mod_pos_bound (unspecified_uint8 (B64 S754_nan)) 256 ltac:(lia)).
    lia.
Qed.

Lemma displayed_values_are_uint8_witness :
  ∃ z : Z, 0 ≤ z ≤ 255
    ∧ ∀ platform : Uint8Externals binary64,
        astype_uint8 (art_raw (B64 (S754_finite false 4503599627370496 (-52)))) = z.
Proof.
  destruct displayed_values_are_uint8 as (_ & H64 & _).
  apply (H64 (S754_finite false 4503599627370496 (-52))).
  - vm_compute. reflexivity.
  - discriminate.
Defined.

(** ** 39. Choosing the photo and the style *)

(** X24.  The cell that chooses the next photo (or style) never indexes
    out of range and cycles through the list: for a non-empty list and
    any value of the counter it reads a path of the list, increments the
    counter by one, and reads the same path again [len(photos)]
    executions later; from the initial counter [-1] it reads the first
    path. *)
Theorem next_image_cycles_through_the_list (images : list string) (image_i : Z) :
  images ≠ [] →
  fst (next_image images image_i) = image_i + 1
  ∧ (∃ path, snd (next_image images image_i) = Some path ∧ path ∈ images)
  ∧ snd (next_image images (image_i + Z.of_nat (length images))) =
      snd (next_image images image_i)
  ∧ snd (next_image images (-1)) = head images.
Proof.
  intros Hne. unfold next_image. cbn [fst snd].
  assert (0 < Z.of_nat (length images)) as Hlen by (destruct images; [done | simpl; lia]).
  rewrite (proj2 (Nat.eqb_neq _ 0)) by lia.
  split; [reflexivity|]. split; [|split].
  - pose proof (Z.mod_pos_bound (image_i + 1) _ Hlen) as Hmod.
    destruct (lookup_lt_is_Some_2 images
                (Z.to_nat ((image_i + 1) mod Z.of_nat (length images))))
      as [path Hpath]; [lia|].
    exists path. split; [exact Hpath|]. eapply list_elem_of_lookup_2, Hpath.
  - f_equal. f_equal.
    replace (image_i + Z.of_nat (length images) + 1)
      with (image_i + 1 + 1 * Z.of_nat (length images)) by lia.
    apply Z_mod_plus_full.
  - destruct images; [done | reflexivity].
Qed.

Lemma next_image_cycles_through_the_list_witness :
  snd (next_image ["a.jpg"; "b.jpg"; "c.jpg"] (4 + Z.of_nat 3)) =
    snd (next_image ["a.jpg"; "b.jpg"; "c.jpg"] 4).
Proof.
  apply (next_image_cycles_through_the_list ["a.jpg"; "b.jpg"; "c.jpg"] 4).
  discriminate.
Defined.
